(** * Association-rule miner (miner.py): a shallow embedding and its properties

    Part I is the embedding, in the order of the source file:
    - Python values: [str] (code points below 256), [int] as [Z], exceptions
      as an error monad, the insertion-ordered [dict] as an association list;
    - the builtins the program calls: [str.split], [str.strip], [str.join],
      [sorted], [itertools.combinations];
    - class [Rule], [prune], [make_candidates], [make_rules] and the mining
      pipeline of the module body.
    Part II proves the properties of the specification. *)

From Stdlib Require Import ZArith QArith Qcanon Ascii String Lia.
From stdpp Require Import list strings sorting.

Local Open Scope Z_scope.

(** * Part I: the program *)

(** ** Exceptions *)

Inductive exn : Type :=
| KeyError (key : string)
| IndexError
| ZeroDivisionError
| OverflowError.

Inductive result (A : Type) : Type :=
| Ok (a : A)
| Raise (e : exn).
Arguments Ok {A} a.
Arguments Raise {A} e.

#[global] Instance result_ret : MRet result := fun A a => Ok a.
#[global] Instance result_bind : MBind result := fun A B f m =>
  match m with
  | Ok a => f a
  | Raise e => Raise e
  end.

(** [for x in xs: acc = body(acc, x)] where the body may raise. *)
Fixpoint for_each {A S : Type} (body : S -> A -> result S) (xs : list A) (acc : S)
  : result S :=
  match xs with
  | [] => Ok acc
  | x :: xs' => acc' ← body acc x; for_each body xs' acc'
  end.

(** [list(map(f, xs))] where [f] may raise. *)
Fixpoint map_each {A B : Type} (f : A -> result B) (xs : list A) : result (list B) :=
  match xs with
  | [] => Ok []
  | x :: xs' => y ← f x; ys ← map_each f xs'; Ok (y :: ys)
  end.

(** [range(a, b)] *)
Definition range (a b : nat) : list nat := seq a (b - a).

(** [l[i]] for a Python list: a negative index counts from the end. *)
Definition py_index {A : Type} (l : list A) (i : Z) : result A :=
  let j := if i <? 0 then Z.of_nat (length l) + i else i in
  if j <? 0 then Raise IndexError
  else match l !! Z.to_nat j with
       | Some x => Ok x
       | None => Raise IndexError
       end.

(** ** Strings *)

(** [str.isspace] on the code points below 256: TAB..CR, FS..US, SPACE,
    NEL and NBSP. *)
Definition isspace (c : ascii) : bool :=
  let n := N_of_ascii c in
  ((9 <=? n) && (n <=? 13) || (28 <=? n) && (n <=? 32) || (n =? 133) || (n =? 160))%N.

(** [s.split()]: the maximal runs of non-space characters; [cur] is the run
    being read. *)
Fixpoint split_go (cur : string) (s : string) : list string :=
  match s with
  | EmptyString => if String.eqb cur "" then [] else [cur]
  | String c s' =>
      if isspace c
      then (if String.eqb cur "" then split_go "" s' else cur :: split_go "" s')
      else split_go (cur +:+ String c "") s'
  end.

Definition split (s : string) : list string := split_go "" s.

(** [s.strip()] *)
Fixpoint lstrip (s : string) : string :=
  match s with
  | EmptyString => ""
  | String c s' => if isspace c then lstrip s' else s
  end.

Definition rstrip (s : string) : string := String.rev (lstrip (String.rev s)).

Definition strip (s : string) : string := rstrip (lstrip s).

(** [" ".join(items)] *)
Definition join (items : list string) : string := String.concat " " items.

(** [a < b] and [a > b] on [str]: lexicographic on code points. *)
Definition str_lt (a b : string) : Prop := String.compare a b = Lt.

Definition str__lt__ (a b : string) : result bool := Ok (String.ltb a b).

Definition str_gtb (a b : string) : bool := String.ltb b a.

(** ** [sorted] *)

(** Python's [sorted] is a stable sort that calls only [<] on the elements
    (their [__lt__]), which may raise.  It is modelled by the stable
    insertion sort: [x], which stood before the elements of [l], goes past
    an element [y] only when [y < x].  With [reverse=True] the list is
    reversed before and after, which keeps equal elements in their order. *)
Section Sorted.
Context {A : Type}.

Fixpoint insort (lt : A -> A -> result bool) (x : A) (l : list A) : result (list A) :=
  match l with
  | [] => Ok [x]
  | y :: l' =>
      b ← lt y x;
      if b : bool then r ← insort lt x l'; Ok (y :: r) else Ok (x :: y :: l')
  end.

Fixpoint sorted_asc (lt : A -> A -> result bool) (l : list A) : result (list A) :=
  match l with
  | [] => Ok []
  | x :: l' => s ← sorted_asc lt l'; insort lt x s
  end.

Definition sorted (lt : A -> A -> result bool) (l : list A) (reverse : bool)
  : result (list A) :=
  if reverse then s ← sorted_asc lt (list.reverse l); Ok (list.reverse s)
  else sorted_asc lt l.

(** The same sort over a comparison that cannot raise. *)
Fixpoint insort_by (f : A -> A -> bool) (x : A) (l : list A) : list A :=
  match l with
  | [] => [x]
  | y :: l' => if f y x then y :: insort_by f x l' else x :: y :: l'
  end.

Fixpoint sort_by (f : A -> A -> bool) (l : list A) : list A :=
  match l with
  | [] => []
  | x :: l' => insort_by f x (sort_by f l')
  end.

(** [a] may stand before [b] in an ascending list: [b] is not smaller. *)
Definition not_after (f : A -> A -> bool) (a b : A) : Prop := f b a = false.
End Sorted.

(** ** [itertools.combinations] *)

(** The sub-sequences of [l] of length [r], in the order of their positions. *)
Fixpoint combinations {A : Type} (l : list A) (r : nat) {struct l} : list (list A) :=
  match r, l with
  | O, _ => [[]]
  | S _, [] => []
  | S r', x :: t => map (cons x) (combinations t r') ++ combinations t r
  end.

(** ** [dict]: keys in insertion order *)

Abbreviation dict := (list (string * Z)).

(** [list(d)] *)
Definition keys (d : dict) : list string := d.*1.

Fixpoint dict_get (d : dict) (k : string) : option Z :=
  match d with
  | [] => None
  | (k', v) :: d' => if String.eqb k' k then Some v else dict_get d' k
  end.

(** [k in d] *)
Definition contains (d : dict) (k : string) : bool :=
  match dict_get d k with
  | Some _ => true
  | None => false
  end.

(** [d[k]] *)
Definition getitem (d : dict) (k : string) : result Z :=
  match dict_get d k with
  | Some v => Ok v
  | None => Raise (KeyError k)
  end.

(** [d[k] = v]: an existing key keeps its place, a new key goes last. *)
Fixpoint setitem (d : dict) (k : string) (v : Z) : dict :=
  match d with
  | [] => [(k, v)]
  | (k', v') :: d' =>
      if String.eqb k' k then (k', v) :: d' else (k', v') :: setitem d' k v
  end.

(** [d[k] += 1] *)
Definition incr (d : dict) (k : string) : result dict :=
  v ← getitem d k; Ok (setitem d k (v + 1)).

(** ** The program *)

Definition FREQ_THRES : Z := 100.

(** *** class Rule *)

(** [all_freq / left_freq] is Python's true division of two [int]s.  It
    raises ZeroDivisionError when the divisor is 0, whatever the dividend;
    otherwise it gives the float nearest to the exact quotient (ties to
    even), and raises OverflowError when there is none: when the magnitude
    of the quotient is at least [FLOAT_OVERFLOW], half a unit in the last
    place above the greatest float [2 ^ 1024 - 2 ^ 971].  [fl] stands for
    the rounding of a rational below that bound to its float, so
    [confidence] is [fl] of the exact quotient; the sign of a difference of
    two floats is the sign of the exact difference, hence [conf_difference]
    is compared with 0 exactly.  Nothing below depends on which function
    [fl] is. *)
Definition FLOAT_OVERFLOW : Z := 2 ^ 1024 - 2 ^ 970.

Module Rule.
Record t : Type := __init__ {
  left : list string;
  right : list string;
  all_freq : Z;
  left_freq : Z
}.

(** The exact quotient [all_freq / left_freq]. *)
Definition ratio (self : t) : Qc :=
  (Q2Qc (inject_Z (all_freq self)) / Q2Qc (inject_Z (left_freq self)))%Qc.

Section Compare.
Variable fl : Qc -> Qc.

Definition confidence (self : t) : result Qc :=
  if left_freq self =? 0 then Raise ZeroDivisionError
  else if FLOAT_OVERFLOW * Z.abs (left_freq self) <=? Z.abs (all_freq self)
       then Raise OverflowError
       else Ok (fl (ratio self)).

Definition _cmp (self other : t) : result Z :=
  c_self ← confidence self;
  c_other ← confidence other;
  let conf_difference := (c_self - c_other)%Qc in
  if Qclt_le_dec conf_difference 0%Qc then Ok (-1)
  else if Qclt_le_dec 0%Qc conf_difference then Ok 1
  else
    let self_string := join (left self) in
    let other_string := join (left other) in
    if str_gtb self_string other_string then Ok (-1)
    else if String.ltb self_string other_string then Ok 1
    else Ok 0.

Definition __lt__ (self other : t) : result bool :=
  c ← _cmp self other; Ok (c <? 0).

Definition __le__ (self other : t) : result bool :=
  c ← _cmp self other; Ok (c <=? 0).

Definition __eq__ (self other : t) : result bool :=
  c ← _cmp self other; Ok (c =? 0).

(** The comparison of [_cmp] on the pair (confidence, joined left side),
    for rules whose confidence is defined. *)
Definition cmp_key (self other : t) : Z :=
  match (fl (ratio self) ?= fl (ratio other))%Qc with
  | Lt => -1
  | Gt => 1
  | Eq =>
      match String.compare (join (left self)) (join (left other)) with
      | Gt => -1
      | Lt => 1
      | Eq => 0
      end
  end.

Definition ltb (self other : t) : bool := cmp_key self other <? 0.

(** [self] is below [other]: smaller confidence, or the same confidence
    and the greater joined left side. *)
Definition below (self other : t) : Prop :=
  (fl (ratio self) < fl (ratio other))%Qc
  \/ (fl (ratio self) = fl (ratio other)
      /\ str_lt (join (left other)) (join (left self))).
End Compare.

(** The confidence of [self] is defined: the divisor is not 0 and the
    quotient is in the range of the floats. *)
Definition valid (self : t) : Prop :=
  left_freq self <> 0 /\
  Z.abs (all_freq self) < FLOAT_OVERFLOW * Z.abs (left_freq self).
End Rule.

(** *** prune *)

(** [{item: candidates[item] for item in candidates
      if candidates[item] >= FREQ_THRES}] *)
Definition prune (candidates : dict) : result dict :=
  for_each (fun acc item =>
              v ← getitem candidates item;
              if FREQ_THRES <=? v
              then v' ← getitem candidates item; Ok (setitem acc item v')
              else Ok acc)
           (keys candidates) [].

(** *** make_candidates *)

(** The [while] loop that measures the common prefix: [outer_items] and
    [inner_items] are the items from position [i] on, so that [i <
    len(..)] is "not empty" and [..[i]] is the head. *)
Fixpoint while_prefix (prefix i : Z) (outer_items inner_items : list string) : Z :=
  match outer_items, inner_items with
  | x :: outer_items', y :: inner_items' =>
      if (i <? prefix) && String.eqb x y
      then while_prefix prefix (i + 1) outer_items' inner_items'
      else i
  | _, _ => i
  end.

(** The body of the inner [for]. *)
Definition join_pair (outer_items inner_items : list string) (candidates : dict)
  : result dict :=
  let prefix := Z.of_nat (length outer_items) - 1 in
  let i := while_prefix prefix 0 outer_items inner_items in
  if i =? prefix
  then last ← py_index inner_items prefix;
       Ok (setitem candidates (join (outer_items ++ [last])) 0)
  else Ok candidates.

Definition make_candidates (prev_frequents : dict) : result dict :=
  freq_list ← sorted str__lt__ (keys prev_frequents) false;
  for_each (fun candidates outer =>
              outer_key ← py_index freq_list (Z.of_nat outer);
              let outer_items := split outer_key in
              for_each (fun candidates inner =>
                          inner_key ← py_index freq_list (Z.of_nat inner);
                          let inner_items := split inner_key in
                          join_pair outer_items inner_items candidates)
                       (range outer (length freq_list)) candidates)
           (range 0 (length freq_list)) [].

(** *** make_rules *)

(** The rule built for one combination of the items of [itemset]. *)
Definition make_rule (top_level : dict) (args : list dict) (itemset : string)
    (items combination : list string) : result Rule.t :=
  let other := filter (fun item => item ∉ combination) items in
  all_freq ← getitem top_level itemset;
  level ← py_index args (Z.of_nat (length combination) - 1);
  left_freq ← getitem level (join combination);
  Ok (Rule.__init__ combination other all_freq left_freq).

(** All combinations with at least one item in and one item out. *)
Definition proper_combinations (items : list string) : list (list string) :=
  flat_map (fun i => combinations items i) (range 1 (length items)).

Definition make_rules (top_level : dict) (args : list dict) : result (list Rule.t) :=
  for_each (fun level_rules itemset =>
              let items := split itemset in
              for_each (fun level_rules combination =>
                          rule ← make_rule top_level args itemset items combination;
                          Ok (level_rules ++ [rule]))
                       (proper_combinations items) level_rules)
           (keys top_level) [].

(** *** The module body *)

(** [lines = list(map(lambda line: sorted(line.strip().split()), ...))] over
    the lines of the browsing file. *)
Definition read_lines (raw : list string) : result (list (list string)) :=
  map_each (fun line => sorted str__lt__ (split (strip line)) false) raw.

(** The counting loop of the singles; its body is
    [if item not in singles: singles[item] = 0] and [singles[item] += 1]. *)
Definition count_item (singles : dict) (item : string) : result dict :=
  let singles :=
    if negb (contains singles item) then setitem singles item 0 else singles in
  incr singles item.

Definition count_singles (lines : list (list string)) : result dict :=
  for_each (fun singles line => for_each count_item line singles) lines [].

(** The counting loop of level [k] (2 for the pairs, 3 for the triples) over
    the candidates [table]; its body is
    [if key in table: table[key] += 1] with [key = " ".join(combination)]. *)
Definition count_key (table : dict) (key : string) : result dict :=
  if contains table key then incr table key else Ok table.

Definition count_level (k : nat) (lines : list (list string)) (table : dict)
  : result dict :=
  for_each (fun table line =>
              for_each (fun table combination => count_key table (join combination))
                       (combinations line k) table)
           lines table.

Record report : Type := Report {
  singles : dict;
  pairs : dict;
  pair_rules : list Rule.t;
  triples : dict;
  triple_rules : list Rule.t
}.

Definition mine (fl : Qc -> Qc) (lines : list (list string)) : result report :=
  singles ← count_singles lines;
  singles ← prune singles;
  pairs ← make_candidates singles;
  pairs ← count_level 2 lines pairs;
  pairs ← prune pairs;
  rules2 ← make_rules pairs [singles];
  pair_rules ← sorted (Rule.__lt__ fl) rules2 true;
  triples ← make_candidates pairs;
  triples ← count_level 3 lines triples;
  triples ← prune triples;
  rules3 ← make_rules triples [singles; pairs];
  triple_rules ← sorted (Rule.__lt__ fl) rules3 true;
  Ok (Report singles pairs pair_rules triples triple_rules).

Definition main (fl : Qc -> Qc) (raw : list string) : result report :=
  lines ← read_lines raw; mine fl lines.

(** ** Notions of the specification *)

(** A token is what [split] produces: non-empty and free of white space. *)
Fixpoint nospace (s : string) : bool :=
  match s with
  | EmptyString => true
  | String c s' => negb (isspace c) && nospace s'
  end.

Definition token (s : string) : Prop := s <> "" /\ nospace s = true.

(** An itemset in canonical form: tokens in strictly increasing order, hence
    without duplicates.  Its canonical key is [join] of it.  A transaction
    line that is sorted and duplicate-free is one, too. *)
Definition itemset (items : list string) : Prop :=
  Forall token items /\ StronglySorted str_lt items.

(** A frequency table of level [k]: every key is the canonical key of an
    itemset of size [k]. *)
Definition level_table (k : nat) (d : dict) : Prop :=
  forall key, key ∈ keys d ->
    exists items, key = join items /\ itemset items /\ length items = k.

(** The number of transactions that contain all of [items]. *)
Definition support (items : list string) (lines : list (list string)) : Z :=
  Z.of_nat (length (filter (fun line => items ⊆ line) lines)).

(** The number of times [k] occurs in [ks]. *)
Definition occurrences (k : string) (ks : list string) : Z :=
  Z.of_nat (length (filter (fun x => x = k) ks)).

(** The text that precedes the last item of a joined list. *)
Definition join_prefix (p : list string) : string :=
  match p with
  | [] => ""
  | _ => join p +:+ " "
  end.

(** The tie-break of the ranked list read as "the greater joined left side
    first": of two rules with the same confidence, the one whose joined
    left side is the greater string stands at the smaller position. *)
Definition greater_left_first (fl : Qc -> Qc) (ranked : list Rule.t) : Prop :=
  forall (i j : nat) (ri rj : Rule.t),
    ranked !! i = Some ri -> ranked !! j = Some rj ->
    Rule.confidence fl ri = Rule.confidence fl rj ->
    str_lt (join (Rule.left rj)) (join (Rule.left ri)) ->
    (i < j)%nat.

(** The same with "the smaller joined left side first". *)
Definition smaller_left_first (fl : Qc -> Qc) (ranked : list Rule.t) : Prop :=
  forall (i j : nat) (ri rj : Rule.t),
    ranked !! i = Some ri -> ranked !! j = Some rj ->
    Rule.confidence fl ri = Rule.confidence fl rj ->
    str_lt (join (Rule.left ri)) (join (Rule.left rj)) ->
    (i < j)%nat.

(** The two loops of [make_candidates] over the tails of the sorted key
    list instead of over indices: the outer key is the head of [rest], the
    inner keys are [rest] itself. *)
Fixpoint join_all (rest : list string) (candidates : dict) : result dict :=
  match rest with
  | [] => Ok candidates
  | outer_key :: rest' =>
      candidates' ←
        for_each (fun candidates inner_key =>
                    join_pair (split outer_key) (split inner_key) candidates)
                 rest candidates;
      join_all rest' candidates'
  end.

(** A table of fresh candidates: every count is 0. *)
Definition zeroed (d : dict) : Prop :=
  forall k v, dict_get d k = Some v -> v = 0.

(** The entries that [prune] keeps. *)
Definition frequent (entry : string * Z) : Prop := FREQ_THRES <= entry.2.

(** The pairs (itemset key, combination) that [make_rules] visits, in the
    order of its two loops. *)
Definition splits (top_level : dict) : list (string * list string) :=
  flat_map (fun itemset => map (pair itemset) (proper_combinations (split itemset)))
           (keys top_level).

(** The keys that the counting loop of level [k] forms, one for every
    combination of every line. *)
Definition combination_keys (k : nat) (lines : list (list string)) : list string :=
  map join (flat_map (fun line => combinations line k) lines).

(** [table] holds exactly the frequent itemsets of size [k] of [lines], each
    with its support. *)
Definition frequent_table (k : nat) (lines : list (list string)) (table : dict) : Prop :=
  NoDup (keys table) /\
  (forall key count,
      dict_get table key = Some count ->
      exists items,
        key = join items /\ itemset items /\ length items = k /\
        count = support items lines /\ FREQ_THRES <= count) /\
  (forall items,
      itemset items -> length items = k -> FREQ_THRES <= support items lines ->
      dict_get table (join items) = Some (support items lines)).

(** A rule as the pipeline derives it at level [n] from the tables [args] of
    the levels below: a split of a frequent itemset of size [n], with the
    supports of the itemset and of its left side as frequencies, the latter
    found in the table of the size of the left side. *)
Definition mined_rule (lines : list (list string)) (args : list dict) (n : nat)
    (rule : Rule.t) : Prop :=
  exists items level,
    itemset items /\ length items = n /\
    sublist (Rule.left rule) items /\
    (1 <= length (Rule.left rule) < n)%nat /\
    Rule.right rule = filter (fun item => item ∉ Rule.left rule) items /\
    Rule.all_freq rule = support items lines /\
    Rule.left_freq rule = support (Rule.left rule) lines /\
    FREQ_THRES <= Rule.all_freq rule /\
    Rule.all_freq rule <= Rule.left_freq rule /\
    py_index args (Z.of_nat (length (Rule.left rule)) - 1) = Ok level /\
    dict_get level (join (Rule.left rule)) = Some (Rule.left_freq rule).

(** ** Notions of the further properties *)

(** [key] is the join of two keys of [table]: the items of one key followed
    by the last item of a key that has the same items before its last one
    and is not smaller. *)
Definition joined_key (table : list string) (key : string) : Prop :=
  exists outer_key inner_key p a b,
    outer_key ∈ table /\ inner_key ∈ table /\ ~ str_lt inner_key outer_key /\
    split outer_key = p ++ [a] /\ split inner_key = p ++ [b] /\
    key = join (p ++ [a; b]).

(** A text of white space only. *)
Fixpoint allspace (s : string) : bool :=
  match s with
  | EmptyString => true
  | String c s' => isspace c && allspace s'
  end.

(** [rules] holds the rule of every split of every frequent itemset of
    size [n] of [lines]: for each left side that is neither empty nor the
    whole itemset, the rule with the remaining items as right side, the
    support of the itemset as all_freq and the support of the left side as
    left_freq. *)
Definition all_splits_mined (lines : list (list string)) (n : nat)
    (rules : list Rule.t) : Prop :=
  forall items left,
    itemset items -> length items = n -> FREQ_THRES <= support items lines ->
    sublist left items -> (1 <= length left < n)%nat ->
    Rule.__init__ left (filter (fun item => item ∉ left) items)
                  (support items lines) (support left lines) ∈ rules.

(** * Part II: properties *)

(** Closes a decidable goal on concrete data by evaluation. *)
Ltac by_compute := refine (bool_decide_unpack _ _); vm_compute; exact I.

(** Proves [Rule.valid] of a rule with literal frequencies. *)
Ltac rule_valid := unfold Rule.valid, FLOAT_OVERFLOW; simpl; lia.

(** Proves [Forall P] of a list of literals, each element by [tac]. *)
Ltac solve_Forall tac := repeat (apply Forall_cons_2; [tac|]); apply Forall_nil_2.

(** Proves [itemset] of a list of literals. *)
Ltac solve_itemset :=
  split;
  [ solve_Forall ltac:(done)
  | repeat (apply SSorted_cons; [|solve_Forall ltac:(done)]); apply SSorted_nil ].

(** ** Strings *)

(** *** Order facts *)

Lemma ascii_compare_refl c : Ascii.compare c c = Eq.
Proof. unfold Ascii.compare. apply N.compare_refl. Qed.

Lemma str_compare_refl s : String.compare s s = Eq.
Proof. induction s as [|c s IH]; simpl; [done|]. by rewrite ascii_compare_refl. Qed.

Lemma ascii_compare_lt_trans a b c :
  Ascii.compare a b = Lt -> Ascii.compare b c = Lt -> Ascii.compare a c = Lt.
Proof. unfold Ascii.compare. rewrite !N.compare_lt_iff. lia. Qed.

Lemma str_lt_trans a b c : str_lt a b -> str_lt b c -> str_lt a c.
Proof.
  unfold str_lt. revert b c.
  induction a as [|x a IH]; intros [|y b] [|z c]; simpl; try done.
  destruct (Ascii.compare x y) eqn:Hxy; try done.
  - apply Ascii.compare_eq_iff in Hxy as ->.
    destruct (Ascii.compare y z); try done. apply IH.
  - intros _. destruct (Ascii.compare y z) eqn:Hyz; try done.
    + apply Ascii.compare_eq_iff in Hyz as <-. by rewrite Hxy.
    + by rewrite (ascii_compare_lt_trans _ _ _ Hxy Hyz).
Qed.

Lemma str_lt_irrefl a : ~ str_lt a a.
Proof. unfold str_lt. by rewrite str_compare_refl. Qed.

Lemma str_lt_asym a b : str_lt a b -> ~ str_lt b a.
Proof. intros H1 H2. exact (str_lt_irrefl a (str_lt_trans _ _ _ H1 H2)). Qed.

Lemma str_compare_gt a b : String.compare a b = Gt <-> str_lt b a.
Proof.
  unfold str_lt. rewrite (String.compare_antisym b a).
  destruct (String.compare a b); simpl; split; congruence.
Qed.

Lemma str_trichotomy a b : str_lt a b \/ a = b \/ str_lt b a.
Proof.
  destruct (String.compare a b) eqn:H.
  - right; left. by apply String.compare_eq_iff.
  - by left.
  - right; right. by apply str_compare_gt.
Qed.

#[global] Instance str_lt_dec a b : Decision (str_lt a b).
Proof. unfold str_lt. solve_decision. Defined.

#[global] Instance str_lt_transitive : Transitive str_lt.
Proof. intros a b c. apply str_lt_trans. Qed.

(** Appending after a common prefix compares the remainders. *)
Lemma str_compare_app p a b :
  String.compare (p +:+ a) (p +:+ b) = String.compare a b.
Proof.
  induction p as [|c p IH]; [done|].
  change (String c p +:+ a) with (String c (p +:+ a)).
  change (String c p +:+ b) with (String c (p +:+ b)).
  simpl. by rewrite ascii_compare_refl.
Qed.

(** *** [split] and [join] *)

Lemma str_app_nil_l (a : string) : "" +:+ a = a.
Proof. reflexivity. Qed.

Lemma str_app_cons c (a b : string) : String c a +:+ b = String c (a +:+ b).
Proof. reflexivity. Qed.

Lemma str_app_assoc (a b c : string) : (a +:+ b) +:+ c = a +:+ (b +:+ c).
Proof. induction a as [|x a IH]; [done|]. rewrite !str_app_cons. by f_equal. Qed.

Lemma str_app_empty_r (a : string) : a +:+ "" = a.
Proof. induction a as [|x a IH]; [done|]. rewrite str_app_cons. by f_equal. Qed.

Lemma nospace_app a b : nospace (a +:+ b) = nospace a && nospace b.
Proof.
  induction a as [|x a IH]; [done|].
  rewrite str_app_cons. simpl. rewrite IH. by destruct (isspace x).
Qed.

Lemma split_go_nospace w cur s :
  nospace w = true -> split_go cur (w +:+ s) = split_go (cur +:+ w) s.
Proof.
  revert cur. induction w as [|c w IH]; intros cur H.
  - by rewrite str_app_nil_l, str_app_empty_r.
  - simpl in H. apply andb_prop in H as [Hc Hw]. apply negb_true_iff in Hc.
    rewrite str_app_cons. simpl. rewrite Hc, (IH _ Hw).
    by rewrite str_app_assoc.
Qed.

Lemma split_go_end cur : cur <> "" -> split_go cur "" = [cur].
Proof.
  intros H. simpl. destruct (String.eqb cur "") eqn:E; [|done].
  by apply String.eqb_eq in E.
Qed.

Lemma split_go_space cur s :
  cur <> "" -> split_go cur (" " +:+ s) = cur :: split_go "" s.
Proof.
  intros H. rewrite str_app_cons, str_app_nil_l. simpl.
  destruct (String.eqb cur "") eqn:E; [|done].
  by apply String.eqb_eq in E.
Qed.

Lemma join_cons x y l : join (x :: y :: l) = x +:+ " " +:+ join (y :: l).
Proof. reflexivity. Qed.

(** [" ".join(items).split() == items] when the items are tokens. *)
Lemma split_join items : Forall token items -> split (join items) = items.
Proof.
  unfold split. induction 1 as [|w ws [Hne Hns] Hws IH]; [done|].
  destruct ws as [|w' ws].
  - change (join [w]) with w. rewrite <- (str_app_empty_r w) at 1.
    rewrite (split_go_nospace _ _ _ Hns), str_app_nil_l. by apply split_go_end.
  - rewrite join_cons, (split_go_nospace _ _ _ Hns), str_app_nil_l.
    rewrite (split_go_space _ _ Hne). by rewrite IH.
Qed.

Lemma join_inj l1 l2 :
  Forall token l1 -> Forall token l2 -> join l1 = join l2 -> l1 = l2.
Proof. intros H1 H2 E. by rewrite <- (split_join l1), <- (split_join l2), E. Qed.

(** Everything [split] returns is a token. *)
Lemma split_go_tokens cur s : nospace cur = true -> Forall token (split_go cur s).
Proof.
  revert cur. induction s as [|c s IH]; intros cur Hcur; simpl.
  - destruct (String.eqb cur "") eqn:E; [constructor|].
    apply String.eqb_neq in E. by repeat constructor.
  - destruct (isspace c) eqn:Hc.
    + destruct (String.eqb cur "") eqn:E; [by apply IH|].
      apply String.eqb_neq in E. constructor; [done|by apply IH].
    + apply IH. rewrite nospace_app, Hcur. simpl. by rewrite Hc.
Qed.

Lemma split_tokens s : Forall token (split s).
Proof. by apply split_go_tokens. Qed.

Lemma join_snoc p a : join (p ++ [a]) = join_prefix p +:+ a.
Proof.
  induction p as [|x p IH]; [done|].
  destruct p as [|y p].
  - change (join ([x] ++ [a])) with (x +:+ " " +:+ a).
    unfold join_prefix. change (join [x]) with x. by rewrite str_app_assoc.
  - change (join ((x :: y :: p) ++ [a])) with (x +:+ " " +:+ join ((y :: p) ++ [a])).
    rewrite IH. unfold join_prefix. rewrite join_cons.
    by rewrite !str_app_assoc.
Qed.

(** Two keys with the same leading items compare as their last items do. *)
Lemma join_snoc_compare p a b :
  String.compare (join (p ++ [a])) (join (p ++ [b])) = String.compare a b.
Proof. rewrite !join_snoc. apply str_compare_app. Qed.

(** ** [sorted] *)

Section SortedFacts.
Context {A : Type}.
Variable f : A -> A -> bool.

Lemma insort_by_perm x l : insort_by f x l ≡ₚ x :: l.
Proof.
  induction l as [|y l IH]; simpl; [done|].
  destruct (f y x); [|done]. rewrite IH. apply Permutation_swap.
Qed.

Lemma sort_by_perm l : sort_by f l ≡ₚ l.
Proof.
  induction l as [|x l IH]; simpl; [done|].
  by rewrite insort_by_perm, IH.
Qed.

Lemma elem_of_sort_by x l : x ∈ sort_by f l <-> x ∈ l.
Proof. by rewrite sort_by_perm. Qed.

Hypothesis f_asym : forall a b, f a b = true -> f b a = false.

Lemma insort_by_sorted x l :
  Sorted (not_after f) l -> Sorted (not_after f) (insort_by f x l).
Proof.
  induction 1 as [|y l Hl IH Hhd]; simpl; [by repeat constructor|].
  destruct (f y x) eqn:Hyx.
  - constructor; [done|].
    destruct Hhd as [|z l Hyz]; simpl.
    + constructor. by apply f_asym.
    + destruct (f z x); constructor; [done|by apply f_asym].
  - by repeat constructor.
Qed.

Lemma sort_by_sorted l : Sorted (not_after f) (sort_by f l).
Proof. induction l; simpl; [constructor|by apply insort_by_sorted]. Qed.

(** Sorting a sorted list changes nothing. *)
Lemma sort_by_fixpoint l : Sorted (not_after f) l -> sort_by f l = l.
Proof.
  induction 1 as [|x l Hl IH Hhd]; simpl; [done|].
  rewrite IH. destruct Hhd as [|y l Hxy]; simpl; [done|].
  unfold not_after in Hxy. by rewrite Hxy.
Qed.

Lemma sort_by_idempotent l : sort_by f (sort_by f l) = sort_by f l.
Proof. apply sort_by_fixpoint, sort_by_sorted. Qed.

(** Where the comparison does not raise, [sorted] is [sort_by]. *)
Variable lt : A -> A -> result bool.

Lemma insort_pure x l :
  (forall y, y ∈ l -> lt y x = Ok (f y x)) ->
  insort lt x l = Ok (insort_by f x l).
Proof.
  induction l as [|y l IH]; intros H; simpl; [done|].
  rewrite (H y) by apply list_elem_of_here. simpl.
  destruct (f y x); [|done].
  rewrite IH; [done|]. intros z Hz. apply H. by apply list_elem_of_further.
Qed.

Lemma sorted_asc_pure l :
  (forall x y, x ∈ l -> y ∈ l -> lt x y = Ok (f x y)) ->
  sorted_asc lt l = Ok (sort_by f l).
Proof.
  induction l as [|x l IH]; intros H; simpl; [done|].
  rewrite IH.
  - simpl. apply insort_pure. intros y Hy. apply (proj1 (elem_of_sort_by _ _)) in Hy.
    apply H; [by apply list_elem_of_further|apply list_elem_of_here].
  - intros a b Ha Hb. apply H; by apply list_elem_of_further.
Qed.

Lemma sorted_pure l reverse :
  (forall x y, x ∈ l -> y ∈ l -> lt x y = Ok (f x y)) ->
  sorted lt l reverse
  = Ok (if reverse then list.reverse (sort_by f (list.reverse l)) else sort_by f l).
Proof.
  intros H. unfold sorted. destruct reverse; [|by apply sorted_asc_pure].
  rewrite sorted_asc_pure; [done|].
  intros x y Hx Hy. apply H; by apply elem_of_reverse.
Qed.
End SortedFacts.

(** ** [dict] *)

Lemma dict_get_setitem d k v k' :
  dict_get (setitem d k v) k' = if String.eqb k k' then Some v else dict_get d k'.
Proof.
  induction d as [|[k0 v0] d IH]; simpl.
  - done.
  - destruct (String.eqb_spec k0 k) as [->|Hne]; simpl.
    + by destruct (String.eqb k k').
    + rewrite IH. destruct (String.eqb_spec k0 k') as [->|]; [|done].
      destruct (String.eqb_spec k k'); [congruence|done].
Qed.

Lemma dict_get_is_Some d k : is_Some (dict_get d k) <-> k ∈ keys d.
Proof.
  unfold keys. induction d as [|[k0 v0] d IH]; simpl.
  - split; [by intros [? ?]|by intros ?%elem_of_nil].
  - rewrite elem_of_cons, <- IH.
    destruct (String.eqb_spec k0 k) as [->|Hne].
    + split; [by left|by eauto].
    + split; [by right|]. by intros [->|].
Qed.

Lemma dict_get_None d k : dict_get d k = None <-> k ∉ keys d.
Proof. rewrite <- dict_get_is_Some, eq_None_not_Some. done. Qed.

Lemma contains_true d k : contains d k = true <-> k ∈ keys d.
Proof.
  rewrite <- dict_get_is_Some. unfold contains.
  destruct (dict_get d k); split; intros H; first [done|by eauto|by destruct H].
Qed.

Lemma dict_get_elem_of d k v : dict_get d k = Some v -> (k, v) ∈ d.
Proof.
  induction d as [|[k0 v0] d IH]; simpl; [done|].
  destruct (String.eqb_spec k0 k) as [->|Hne].
  - intros [= ->]. apply list_elem_of_here.
  - intros H. by apply list_elem_of_further, IH.
Qed.

Lemma elem_of_dict_get d k v : NoDup (keys d) -> (k, v) ∈ d -> dict_get d k = Some v.
Proof.
  unfold keys. induction d as [|[k0 v0] d IH]; simpl; [by intros _ ?%elem_of_nil|].
  rewrite NoDup_cons. intros [Hk0 Hd] [[= -> ->]|Hin]%elem_of_cons.
  - by rewrite String.eqb_refl.
  - destruct (String.eqb_spec k0 k) as [->|Hne]; [|by apply IH].
    destruct Hk0. apply list_elem_of_fmap. by exists (k, v).
Qed.

Lemma keys_setitem d k v :
  keys (setitem d k v) = if contains d k then keys d else keys d ++ [k].
Proof.
  unfold keys, contains. induction d as [|[k0 v0] d IH]; [done|].
  simpl setitem. simpl dict_get.
  destruct (String.eqb_spec k0 k) as [->|Hne]; [done|].
  rewrite fmap_cons, IH. by destruct (dict_get d k).
Qed.

Lemma elem_of_keys_setitem d k v k' :
  k' ∈ keys (setitem d k v) <-> k' = k \/ k' ∈ keys d.
Proof.
  rewrite keys_setitem. destruct (contains d k) eqn:E.
  - apply contains_true in E. split; [by auto|]. by intros [->|].
  - rewrite elem_of_app, list_elem_of_singleton. tauto.
Qed.

Lemma NoDup_keys_setitem d k v : NoDup (keys d) -> NoDup (keys (setitem d k v)).
Proof.
  intros H. rewrite keys_setitem. destruct (contains d k) eqn:E; [done|].
  apply NoDup_app. split_and!; [done| |apply NoDup_singleton].
  intros x Hx ->%list_elem_of_singleton.
  apply contains_true in Hx. congruence.
Qed.

(** ** The order of the rules *)

Lemma Qc_minus_lt0 (x y : Qc) : (x - y < 0)%Qc <-> (x < y)%Qc.
Proof.
  rewrite (Qclt_minus_iff x y), (Qclt_minus_iff (x - y) 0).
  by replace (0 + - (x - y))%Qc with (y + - x)%Qc by ring.
Qed.

Lemma Qc_minus_gt0 (x y : Qc) : (0 < x - y)%Qc <-> (y < x)%Qc.
Proof. by rewrite (Qclt_minus_iff y x). Qed.

Lemma Qccompare_antisym (x y : Qc) : (y ?= x)%Qc = CompOpp (x ?= y)%Qc.
Proof. unfold Qccompare. by rewrite Qcompare_antisym. Qed.

Lemma str_ltb_lt a b : String.ltb a b = true <-> str_lt a b.
Proof. unfold String.ltb, str_lt. by destruct (String.compare a b). Qed.

Lemma StronglySorted_lookup_lt {A} (R : relation A) (l : list A) (i j : nat) x y :
  StronglySorted R l -> l !! i = Some x -> l !! j = Some y -> (i < j)%nat -> R x y.
Proof.
  intros Hl. revert i j. induction Hl as [|z l Hl IH Hz]; intros i j Hi Hj Hij.
  - by rewrite lookup_nil in Hi.
  - destruct j as [|j]; [lia|]. destruct i as [|i]; simpl in *.
    + injection Hi as ->. rewrite Forall_forall in Hz. apply Hz.
      by eapply list_elem_of_lookup_2.
    + apply (IH i j); [done|done|lia].
Qed.

Section RuleOrder.
Variable fl : Qc -> Qc.

#[local] Abbreviation conf r := (fl (Rule.ratio r)).
#[local] Abbreviation lstr r := (join (Rule.left r)).
#[local] Abbreviation below := (Rule.below fl).

Lemma confidence_valid r : Rule.valid r -> Rule.confidence fl r = Ok (conf r).
Proof.
  unfold Rule.valid, Rule.confidence. intros [H0 Hb].
  destruct (Z.eqb_spec (Rule.left_freq r) 0); [done|].
  by destruct (Z.leb_spec (FLOAT_OVERFLOW * Z.abs (Rule.left_freq r))
                          (Z.abs (Rule.all_freq r))); [lia|].
Qed.

Lemma confidence_Ok r c : Rule.confidence fl r = Ok c -> Rule.valid r /\ c = conf r.
Proof.
  unfold Rule.valid, Rule.confidence.
  destruct (Z.eqb_spec (Rule.left_freq r) 0); [done|].
  destruct (Z.leb_spec (FLOAT_OVERFLOW * Z.abs (Rule.left_freq r))
                       (Z.abs (Rule.all_freq r))); [done|].
  by intros [= <-].
Qed.

(** On rules whose confidence is defined, [_cmp] does not raise and is the
    comparison of the keys. *)
Lemma _cmp_valid a b :
  Rule.valid a -> Rule.valid b -> Rule._cmp fl a b = Ok (Rule.cmp_key fl a b).
Proof.
  intros Ha Hb. unfold Rule._cmp, Rule.cmp_key.
  rewrite (confidence_valid a Ha), (confidence_valid b Hb). simpl.
  destruct (Qclt_le_dec (conf a - conf b) 0) as [Hlt|Hge].
  { apply (proj1 (Qc_minus_lt0 _ _)) in Hlt. apply (proj1 (Qclt_alt _ _)) in Hlt. by rewrite Hlt. }
  destruct (Qclt_le_dec 0 (conf a - conf b)) as [Hgt|Hle].
  { apply (proj1 (Qc_minus_gt0 _ _)) in Hgt. apply (proj1 (Qcgt_alt (conf a) (conf b))) in Hgt.
    by rewrite Hgt. }
  assert (conf a = conf b) as Heq.
  { apply Qcle_antisym.
    - apply Qcnot_lt_le. intros H. apply (proj2 (Qc_minus_gt0 _ _)) in H.
      by apply Qcle_not_lt in Hle.
    - apply Qcnot_lt_le. intros H. apply (proj2 (Qc_minus_lt0 _ _)) in H.
      by apply Qcle_not_lt in Hge. }
  apply (proj1 (Qceq_alt _ _)) in Heq. rewrite Heq.
  unfold str_gtb, String.ltb. rewrite (String.compare_antisym (lstr a) (lstr b)).
  by destruct (String.compare (lstr b) (lstr a)).
Qed.

Lemma _cmp_Ok a b c : Rule._cmp fl a b = Ok c -> Rule.valid a /\ Rule.valid b.
Proof.
  unfold Rule._cmp.
  destruct (Rule.confidence fl a) as [ca|e] eqn:Ea; simpl; [|done].
  destruct (Rule.confidence fl b) as [cb|e] eqn:Eb; simpl; [|done].
  intros _. split; [by eapply confidence_Ok|by eapply confidence_Ok].
Qed.

Lemma cmp_key_range a b :
  Rule.cmp_key fl a b = -1 \/ Rule.cmp_key fl a b = 0 \/ Rule.cmp_key fl a b = 1.
Proof.
  unfold Rule.cmp_key.
  destruct (conf a ?= conf b)%Qc; destruct (String.compare (lstr a) (lstr b)); auto.
Qed.

Lemma cmp_key_antisym a b : Rule.cmp_key fl b a = - Rule.cmp_key fl a b.
Proof.
  unfold Rule.cmp_key.
  rewrite (Qccompare_antisym (conf a) (conf b)).
  rewrite (String.compare_antisym (lstr b) (lstr a)).
  destruct (conf a ?= conf b)%Qc; destruct (String.compare (lstr a) (lstr b)); done.
Qed.

Lemma cmp_key_below a b : Rule.cmp_key fl a b = -1 <-> below a b.
Proof.
  unfold Rule.cmp_key, Rule.below.
  destruct (conf a ?= conf b)%Qc eqn:Hc.
  - apply Qceq_alt in Hc. rewrite <- str_compare_gt.
    split.
    + destruct (String.compare (lstr a) (lstr b)); try done. by right.
    + intros [Hlt|[_ ->]]; [|done]. apply Qclt_not_eq in Hlt. done.
  - apply Qclt_alt in Hc. split; [by left|done].
  - split; [done|]. apply (Qcgt_alt (conf a) (conf b)) in Hc.
    intros [Hlt|[Heq _]].
    + destruct (Qclt_not_le _ _ Hlt). by apply Qclt_le_weak.
      
    + apply Qclt_not_eq in Hc. congruence.
Qed.

Lemma cmp_key_zero a b :
  Rule.cmp_key fl a b = 0 <-> conf a = conf b /\ lstr a = lstr b.
Proof.
  unfold Rule.cmp_key.
  destruct (conf a ?= conf b)%Qc eqn:Hc.
  - apply Qceq_alt in Hc.
    destruct (String.compare (lstr a) (lstr b)) eqn:Hs.
    + apply String.compare_eq_iff in Hs. done.
    + split; [done|]. intros [_ E]. rewrite E, str_compare_refl in Hs. done.
    + split; [done|]. intros [_ E]. rewrite E, str_compare_refl in Hs. done.
  - split; [done|]. intros [E _]. apply Qceq_alt in E. congruence.
  - split; [done|]. intros [E _]. apply Qceq_alt in E. congruence.
Qed.

Lemma ltb_below a b : Rule.ltb fl a b = true <-> below a b.
Proof.
  rewrite <- cmp_key_below. unfold Rule.ltb. rewrite Z.ltb_lt.
  destruct (cmp_key_range a b) as [->|[->| ->]]; lia.
Qed.

Lemma below_trans a b c : below a b -> below b c -> below a c.
Proof.
  intros [H1|[E1 S1]] [H2|[E2 S2]].
  - left. by eapply Qclt_trans.
  - left. by rewrite <- E2.
  - left. by rewrite E1.
  - right. split; [congruence|]. by eapply str_lt_trans.
Qed.

Lemma below_irrefl a : ~ below a a.
Proof.
  intros [H|[_ H]]; [by apply Qclt_not_eq in H|by apply str_lt_irrefl in H].
Qed.

Lemma below_asym a b : below a b -> ~ below b a.
Proof. intros H1 H2. exact (below_irrefl a (below_trans _ _ _ H1 H2)). Qed.

Lemma below_trichotomy a b :
  below a b \/ below b a \/ (conf a = conf b /\ lstr a = lstr b).
Proof.
  unfold Rule.below. destruct (Qc_dec (conf a) (conf b)) as [[H|H]|H]; [by auto..|].
  destruct (str_trichotomy (lstr a) (lstr b)) as [S|[S|S]]; by auto 6.
Qed.

Lemma below_same_l a a' b :
  conf a = conf a' -> lstr a = lstr a' -> below a b -> below a' b.
Proof. unfold Rule.below. by intros -> ->. Qed.

Lemma below_same_r a b b' :
  conf b = conf b' -> lstr b = lstr b' -> below a b -> below a b'.
Proof. unfold Rule.below. by intros -> ->. Qed.

(** Not being below is transitive: the order is a strict weak order. *)
Lemma not_below_trans a b c : ~ below b a -> ~ below c b -> ~ below c a.
Proof.
  intros H1 H2 H3.
  destruct (below_trichotomy a b) as [Hab|[Hba|[E S]]]; [|done|].
  - destruct (below_trichotomy b c) as [Hbc|[Hcb|[E S]]]; [|done|].
    + apply (below_asym a c); [by eapply below_trans|done].
    + apply (below_asym a c); [|done]. by apply (below_same_r a b c).
  - apply H2. by apply (below_same_r c a b).
Qed.

Lemma ltb_asym a b : Rule.ltb fl a b = true -> Rule.ltb fl b a = false.
Proof.
  intros H. apply (proj1 (ltb_below _ _)) in H.
  apply not_true_is_false. intros H'. apply (proj1 (ltb_below _ _)) in H'.
  by apply (below_asym a b).
Qed.

Lemma not_after_ltb_trans : Transitive (not_after (Rule.ltb fl)).
Proof.
  intros a b c. unfold not_after. intros H1 H2.
  apply not_true_is_false. intros H3. apply (proj1 (ltb_below _ _)) in H3.
  apply (not_below_trans a b c); [| |exact H3].
  - intros H. apply (proj2 (ltb_below _ _)) in H. congruence.
  - intros H. apply (proj2 (ltb_below _ _)) in H. congruence.
Qed.

Lemma __lt___valid a b :
  Rule.valid a -> Rule.valid b -> Rule.__lt__ fl a b = Ok (Rule.ltb fl a b).
Proof. intros Ha Hb. unfold Rule.__lt__. by rewrite _cmp_valid. Qed.

(** On rules whose confidence is defined [sorted] does not raise. *)
Lemma sorted_rules_valid rules reverse :
  Forall Rule.valid rules ->
  sorted (Rule.__lt__ fl) rules reverse
  = Ok (if reverse then list.reverse (sort_by (Rule.ltb fl) (list.reverse rules))
        else sort_by (Rule.ltb fl) rules).
Proof.
  intros H. apply sorted_pure. rewrite Forall_forall in H.
  intros x y Hx Hy. apply __lt___valid; by apply H.
Qed.

Lemma sorted_rules_perm rules reverse ranked :
  sorted (Rule.__lt__ fl) rules reverse = Ok ranked -> Forall Rule.valid rules ->
  ranked ≡ₚ rules.
Proof.
  intros H Hv. rewrite (sorted_rules_valid _ _ Hv) in H. injection H as <-.
  destruct reverse; by rewrite ?reverse_Permutation, sort_by_perm, ?reverse_Permutation.
Qed.
End RuleOrder.

Lemma __eq___valid fl a b :
  Rule.valid a -> Rule.valid b ->
  Rule.__eq__ fl a b = Ok (Rule.cmp_key fl a b =? 0).
Proof. intros Ha Hb. unfold Rule.__eq__. by rewrite _cmp_valid. Qed.

Lemma __eq___true fl a b :
  Rule.__eq__ fl a b = Ok true <->
  Rule.valid a /\ Rule.valid b /\
  fl (Rule.ratio a) = fl (Rule.ratio b) /\ join (Rule.left a) = join (Rule.left b).
Proof.
  split.
  - intros H. unfold Rule.__eq__ in H.
    destruct (Rule._cmp fl a b) as [c|e] eqn:Hc; [|done].
    destruct (_cmp_Ok fl a b c Hc) as [Ha Hb].
    rewrite (_cmp_valid fl a b Ha Hb) in Hc. injection Hc as <-.
    simpl in H. injection H as H. apply Z.eqb_eq, cmp_key_zero in H. tauto.
  - intros (Ha & Hb & H). rewrite (__eq___valid fl a b Ha Hb).
    apply cmp_key_zero in H. by rewrite H.
Qed.

Lemma __lt___true fl a b :
  Rule.__lt__ fl a b = Ok true <-> Rule.valid a /\ Rule.valid b /\ Rule.below fl a b.
Proof.
  split.
  - intros H. unfold Rule.__lt__ in H.
    destruct (Rule._cmp fl a b) as [c|e] eqn:Hc; [|done].
    destruct (_cmp_Ok fl a b c Hc) as [Ha Hb].
    rewrite (_cmp_valid fl a b Ha Hb) in Hc. injection Hc as <-.
    simpl in H. injection H as H. apply (proj1 (ltb_below fl a b)) in H. tauto.
  - intros (Ha & Hb & H). rewrite (__lt___valid fl a b Ha Hb).
    apply (proj2 (ltb_below fl a b)) in H. by rewrite H.
Qed.

(** Sorting what is sorted changes nothing, in either direction. *)
Lemma sorted_rules_idempotent fl rules reverse :
  Forall Rule.valid rules ->
  exists ranked,
    sorted (Rule.__lt__ fl) rules reverse = Ok ranked /\
    sorted (Rule.__lt__ fl) ranked reverse = Ok ranked.
Proof.
  intros Hv. eexists. split; [by apply sorted_rules_valid|].
  rewrite sorted_rules_valid.
  - f_equal. destruct reverse.
    + rewrite reverse_involutive. f_equal. apply sort_by_idempotent, ltb_asym.
    + apply sort_by_idempotent, ltb_asym.
  - destruct reverse.
    + by rewrite reverse_Permutation, sort_by_perm, reverse_Permutation.
    + by rewrite sort_by_perm.
Qed.

(** C9. The order of the rules is a strict weak order.  For rules [a], [b],
    [c] whose confidence is defined (left_freq is not 0 and the quotient is
    in the range of the floats, so that neither ZeroDivisionError nor
    OverflowError is raised): exactly one of
    [a < b], [b < a], [a == b] holds; [<] is transitive; [==] holds exactly
    when the confidences and the joined left sides are the same, it is
    transitive and two rules that are [==] compare alike with every third
    rule; and sorting a list of such rules a second time, ascending or
    with reverse=True, returns it as it is. *)
Theorem rule_order_strict_weak (fl : Qc -> Qc) (a b c : Rule.t) :
  Rule.valid a -> Rule.valid b -> Rule.valid c ->
  (exists lt_ab lt_ba eq_ab : bool,
      Rule.__lt__ fl a b = Ok lt_ab /\ Rule.__lt__ fl b a = Ok lt_ba /\
      Rule.__eq__ fl a b = Ok eq_ab /\
      ((lt_ab = true /\ lt_ba = false /\ eq_ab = false) \/
       (lt_ab = false /\ lt_ba = true /\ eq_ab = false) \/
       (lt_ab = false /\ lt_ba = false /\ eq_ab = true))) /\
  (Rule.__lt__ fl a b = Ok true -> Rule.__lt__ fl b c = Ok true ->
   Rule.__lt__ fl a c = Ok true) /\
  (Rule.__eq__ fl a b = Ok true <->
   Rule.confidence fl a = Rule.confidence fl b /\
   join (Rule.left a) = join (Rule.left b)) /\
  (Rule.__eq__ fl a b = Ok true -> Rule.__eq__ fl b c = Ok true ->
   Rule.__eq__ fl a c = Ok true) /\
  (Rule.__eq__ fl a b = Ok true ->
   Rule.__lt__ fl a c = Rule.__lt__ fl b c /\ Rule.__lt__ fl c a = Rule.__lt__ fl c b) /\
  (forall (rules : list Rule.t) (reverse : bool),
      Forall Rule.valid rules ->
      exists ranked,
        sorted (Rule.__lt__ fl) rules reverse = Ok ranked /\
        sorted (Rule.__lt__ fl) ranked reverse = Ok ranked).
Proof.
  intros Ha Hb Hc. split_and!.
  - exists (Rule.ltb fl a b), (Rule.ltb fl b a), (Rule.cmp_key fl a b =? 0).
    rewrite !__lt___valid, __eq___valid by done. split_and!; [done..|].
    unfold Rule.ltb. rewrite (cmp_key_antisym fl a b).
    destruct (cmp_key_range fl a b) as [->|[->| ->]]; simpl; auto 10.
  - rewrite !__lt___true. intros (_ & _ & H1) (_ & _ & H2).
    split_and!; [done..|]. by apply (below_trans fl a b c).
  - rewrite __eq___true, !confidence_valid by done. split.
    + intros (_ & _ & -> & ->). done.
    + intros [[= E] S]. done.
  - rewrite !__eq___true. intros (_ & _ & E1 & S1) (_ & _ & E2 & S2).
    split_and!; [done..|congruence|congruence].
  - rewrite __eq___true. intros (_ & _ & E & S).
    rewrite !__lt___valid by done. unfold Rule.ltb, Rule.cmp_key.
    by rewrite E, S.
  - intros rules reverse Hv. by apply sorted_rules_idempotent.
Qed.

Lemma rule_order_strict_weak_witness :
  let a := Rule.__init__ ["a"] ["b"] 1 3 in
  let b := Rule.__init__ ["b"] ["a"] 1 2 in
  let c := Rule.__init__ ["c"] ["a"; "b"] 2 3 in
  Rule.valid a /\ Rule.valid b /\ Rule.valid c /\
  Rule.__lt__ (fun q => q) a b = Ok true /\
  Rule.__lt__ (fun q => q) b c = Ok true /\
  Rule.__lt__ (fun q => q) a c = Ok true.
Proof.
  intros a b c.
  assert (Rule.valid a) as Ha by rule_valid.
  assert (Rule.valid b) as Hb by rule_valid.
  assert (Rule.valid c) as Hc by rule_valid.
  assert (Rule.__lt__ (fun q => q) a b = Ok true) as Hab by reflexivity.
  assert (Rule.__lt__ (fun q => q) b c = Ok true) as Hbc by reflexivity.
  split_and!; [done..|].
  exact (proj1 (proj2 (rule_order_strict_weak (fun q => q) a b c Ha Hb Hc)) Hab Hbc).
Defined.

(** C10. The comparison looks at the confidence and the joined left side
    only: two rules with the same quotient all_freq / left_freq (both
    defined: left_freq is not 0, and in the range of the floats, so that
    the division raises neither ZeroDivisionError nor OverflowError) and
    the same joined left side are [==], and neither is [<] the other,
    whatever their right sides and frequencies are. *)
Theorem rule_eq_ignores_rest (fl : Qc -> Qc) (a b : Rule.t) :
  Rule.valid a -> Rule.valid b ->
  Rule.ratio a = Rule.ratio b ->
  join (Rule.left a) = join (Rule.left b) ->
  Rule.__eq__ fl a b = Ok true /\
  Rule.__lt__ fl a b = Ok false /\
  Rule.__lt__ fl b a = Ok false.
Proof.
  intros Ha Hb E S.
  assert (Rule.cmp_key fl a b = 0) as H0 by (apply cmp_key_zero; by rewrite E).
  rewrite __eq___valid, !__lt___valid by done.
  unfold Rule.ltb. rewrite (cmp_key_antisym fl a b), H0. done.
Qed.

Lemma rule_eq_ignores_rest_witness :
  let a := Rule.__init__ ["x"] ["y"] 1 2 in
  let b := Rule.__init__ ["x"] ["z"; "w"] 2 4 in
  Rule.valid a /\ Rule.valid b /\ Rule.ratio a = Rule.ratio b /\
  join (Rule.left a) = join (Rule.left b) /\
  Rule.__eq__ (fun q => q) a b = Ok true /\
  Rule.__lt__ (fun q => q) a b = Ok false /\
  Rule.__lt__ (fun q => q) b a = Ok false.
Proof.
  intros a b.
  assert (Rule.valid a) as Ha by rule_valid.
  assert (Rule.valid b) as Hb by rule_valid.
  assert (Rule.ratio a = Rule.ratio b) as E by (apply Qc_is_canon; reflexivity).
  assert (join (Rule.left a) = join (Rule.left b)) as S by reflexivity.
  split_and!; [done..| | |]; apply (rule_eq_ignores_rest (fun q => q) a b Ha Hb E S).
Defined.

(** What [sorted(rules, reverse=True)] returns is in descending order: a
    rule is never below a later one. *)
Lemma sorted_reverse_descending fl rules ranked (i j : nat) ri rj :
  Forall Rule.valid rules ->
  sorted (Rule.__lt__ fl) rules true = Ok ranked ->
  ranked !! i = Some ri -> ranked !! j = Some rj -> (i < j)%nat ->
  ~ Rule.below fl ri rj.
Proof.
  intros Hv Hs Hi Hj Hij Hb.
  rewrite (sorted_rules_valid fl rules true Hv) in Hs. injection Hs as <-.
  pose proof (sort_by_sorted (Rule.ltb fl) (ltb_asym fl) (reverse rules)) as Hsorted.
  apply Sorted_reverse in Hsorted.
  assert (Transitive (flip (not_after (Rule.ltb fl)))) as Htrans.
  { intros x y z Hxy Hyz. unfold flip in *. by eapply not_after_ltb_trans. }
  apply (Sorted_StronglySorted (flip (not_after (Rule.ltb fl)))) in Hsorted.
  pose proof (StronglySorted_lookup_lt _ _ i j ri rj Hsorted Hi Hj Hij) as H.
  unfold flip, not_after in H. apply (proj2 (ltb_below fl ri rj)) in Hb. congruence.
Qed.

(** C2, as the specification states it, fails: two rules of confidence
    100/150 with left sides "a" and "b" are ranked with "a" first, although
    "b" is the greater string. *)
Lemma tie_break_counterexample :
  let ra := Rule.__init__ ["a"] ["b"] 100 150 in
  let rb := Rule.__init__ ["b"] ["a"] 100 150 in
  sorted (Rule.__lt__ (fun q => q)) [rb; ra] true = Ok [ra; rb] /\
  ~ greater_left_first (fun q => q) [ra; rb].
Proof.
  intros ra rb. split; [reflexivity|].
  intros H. specialize (H 1%nat 0%nat rb ra eq_refl eq_refl eq_refl eq_refl). lia.
Qed.

(** C2, amended.  In the list that [sorted(rules, reverse=True)] returns for
    rules whose confidence is defined (left_freq is not 0 and the quotient
    is in the range of the floats; otherwise the first comparison that
    reads such a rule raises), of two rules with the same confidence the
    one whose joined left side is the smaller string stands first. *)
Theorem tie_break_smaller_first (fl : Qc -> Qc) (rules : list Rule.t) :
  Forall Rule.valid rules ->
  exists ranked,
    sorted (Rule.__lt__ fl) rules true = Ok ranked /\
    smaller_left_first fl ranked.
Proof.
  intros Hv. eexists. split; [by apply sorted_rules_valid|].
  intros i j ri rj Hi Hj Hc Hs.
  assert (Forall Rule.valid (reverse (sort_by (Rule.ltb fl) (reverse rules)))) as Hv'.
  { by rewrite reverse_Permutation, sort_by_perm, reverse_Permutation. }
  rewrite Forall_forall in Hv'.
  assert (Rule.valid ri) as Hri by (eapply Hv', list_elem_of_lookup_2, Hi).
  assert (Rule.valid rj) as Hrj by (eapply Hv', list_elem_of_lookup_2, Hj).
  rewrite !confidence_valid in Hc by done. injection Hc as Hc.
  destruct (Nat.lt_trichotomy i j) as [Hlt|[->|Hgt]]; [done| |].
  - rewrite Hi in Hj. injection Hj as ->. by apply str_lt_irrefl in Hs.
  - exfalso.
    apply (sorted_reverse_descending fl rules _ j i rj ri Hv
             (sorted_rules_valid fl rules true Hv) Hj Hi Hgt).
    right. by split.
Qed.

Lemma tie_break_smaller_first_witness :
  let rules := [Rule.__init__ ["b"] ["a"] 100 150; Rule.__init__ ["a"] ["b"] 100 150] in
  Forall Rule.valid rules /\
  exists ranked,
    sorted (Rule.__lt__ (fun q => q)) rules true = Ok ranked /\
    smaller_left_first (fun q => q) ranked.
Proof.
  intros rules.
  assert (Forall Rule.valid rules) as Hv by (solve_Forall ltac:(rule_valid)).
  split; [exact Hv|]. exact (tie_break_smaller_first (fun q => q) rules Hv).
Defined.

(** ** Loops *)

Lemma ret_bind {A B} (a : A) (f : A -> result B) : Ok a ≫= f = f a.
Proof. reflexivity. Qed.

Lemma bind_Ok {A B} (m : result A) (f : A -> result B) b :
  m ≫= f = Ok b <-> exists a, m = Ok a /\ f a = Ok b.
Proof.
  destruct m as [a|e]; simpl; split.
  - intros H. by exists a.
  - by intros (a' & [= <-] & H).
  - done.
  - by intros (a' & ? & _).
Qed.

Lemma for_each_cons {A S} (body : S -> A -> result S) x xs acc :
  for_each body (x :: xs) acc = acc' ← body acc x; for_each body xs acc'.
Proof. reflexivity. Qed.

Lemma for_each_app {A S} (body : S -> A -> result S) xs ys acc :
  for_each body (xs ++ ys) acc = acc' ← for_each body xs acc; for_each body ys acc'.
Proof.
  revert acc. induction xs as [|x xs IH]; intros acc; simpl; [done|].
  destruct (body acc x); simpl; [apply IH|done].
Qed.

Lemma elem_of_flat_map {A B} (f : A -> list B) (l : list A) (y : B) :
  y ∈ flat_map f l <-> exists x, x ∈ l /\ y ∈ f x.
Proof.
  rewrite list_elem_of_In, in_flat_map. setoid_rewrite list_elem_of_In. done.
Qed.

(** A nested loop is one loop over the concatenation. *)
Lemma for_each_nested {A B S} (body : S -> B -> result S) (g : A -> list B) xs acc :
  for_each (fun acc x => for_each body (g x) acc) xs acc
  = for_each body (flat_map g xs) acc.
Proof.
  revert acc. induction xs as [|x xs IH]; intros acc; simpl; [done|].
  rewrite for_each_app. destruct (for_each body (g x) acc); simpl; [apply IH|done].
Qed.

(** An invariant that every step keeps holds at the end, and the loop does
    not raise when no step does. *)
Lemma for_each_invariant {A S} (I : S -> Prop) (body : S -> A -> result S) xs acc :
  (forall acc x, x ∈ xs -> I acc -> exists acc', body acc x = Ok acc' /\ I acc') ->
  I acc -> exists acc', for_each body xs acc = Ok acc' /\ I acc'.
Proof.
  revert acc. induction xs as [|x xs IH]; intros acc Hstep Hacc; simpl.
  - by exists acc.
  - destruct (Hstep acc x) as (acc1 & -> & H1); [apply list_elem_of_here|done|].
    simpl. apply IH; [|done].
    intros acc2 y Hy. apply Hstep. by apply list_elem_of_further.
Qed.

Lemma py_index_nat {A} (l : list A) (i : nat) :
  py_index l (Z.of_nat i)
  = match l !! i with Some x => Ok x | None => Raise IndexError end.
Proof.
  unfold py_index.
  destruct (Z.ltb_spec (Z.of_nat i) 0); [lia|].
  destruct (Z.ltb_spec (Z.of_nat i) 0); [lia|]. by rewrite Nat2Z.id.
Qed.

(** A loop over the indices [a .. len(l) - 1] that reads [l[i]] is the loop
    over the elements from [a] on. *)
Lemma for_each_range {A S} (body : S -> A -> result S) (l : list A) (a : nat) acc :
  for_each (fun acc i => x ← py_index l (Z.of_nat i); body acc x)
           (range a (length l)) acc
  = for_each body (drop a l) acc.
Proof.
  unfold range. remember (length l - a)%nat as m eqn:Hm.
  revert a acc Hm. induction m as [|m IH]; intros a acc Hm.
  - rewrite drop_ge by lia. done.
  - destruct (l !! a) as [x|] eqn:Hx.
    2:{ apply lookup_ge_None in Hx. lia. }
    rewrite (drop_S l x a Hx). simpl. rewrite py_index_nat, Hx. simpl.
    destruct (body acc x); simpl; [|done]. apply IH. lia.
Qed.

(** ** prune *)

Lemma setitem_fresh d k v : k ∉ keys d -> setitem d k v = d ++ [(k, v)].
Proof.
  unfold keys. induction d as [|[k0 v0] d IH]; simpl; [done|].
  rewrite not_elem_of_cons. intros [Hne Hd].
  destruct (String.eqb_spec k0 k); [congruence|]. by rewrite IH.
Qed.

Lemma getitem_Ok d k v : getitem d k = Ok v <-> dict_get d k = Some v.
Proof. unfold getitem. destruct (dict_get d k); split; congruence. Qed.

Lemma keys_filter_subseteq (P : string * Z -> Prop) `{!forall x, Decision (P x)} (d : dict) :
  keys (filter P d) ⊆ keys d.
Proof.
  unfold keys. intros k [[k' v] [-> [_ Hin]%list_elem_of_filter]]%list_elem_of_fmap.
  apply list_elem_of_fmap. by exists (k', v).
Qed.

Lemma NoDup_keys_filter (P : string * Z -> Prop) `{!forall x, Decision (P x)} (d : dict) :
  NoDup (keys d) -> NoDup (keys (filter P d)).
Proof.
  unfold keys. induction d as [|[k v] d IH]; [done|].
  rewrite fmap_cons, NoDup_cons. intros [Hk Hd].
  rewrite filter_cons. destruct (decide (P (k, v))); [|by apply IH].
  rewrite fmap_cons, NoDup_cons. split; [|by apply IH].
  intros Hin. apply Hk. by apply (keys_filter_subseteq P d).
Qed.

(** [prune] does not raise and keeps the frequent entries, in their order. *)
Lemma prune_filter (candidates : dict) :
  NoDup (keys candidates) -> prune candidates = Ok (filter frequent candidates).
Proof.
  intros Hnd. unfold prune.
  enough (forall d1 d2, candidates = d1 ++ d2 ->
            for_each (fun acc item =>
                        v ← getitem candidates item;
                        if FREQ_THRES <=? v
                        then v' ← getitem candidates item; Ok (setitem acc item v')
                        else Ok acc) (keys d2) (filter frequent d1)
            = Ok (filter frequent candidates)) as H by exact (H [] candidates eq_refl).
  intros d1 d2. revert d1. induction d2 as [|[k v] d2 IH]; intros d1 E.
  - rewrite app_nil_r in E. by subst.
  - simpl.
    assert (getitem candidates k = Ok v) as ->.
    { apply getitem_Ok, elem_of_dict_get; [done|]. subst.
      apply elem_of_app. right. apply list_elem_of_here. }
    simpl. specialize (IH (d1 ++ [(k, v)])).
    rewrite <- app_assoc in IH. specialize (IH E).
    rewrite filter_app, filter_cons, filter_nil in IH.
    destruct (Z.leb_spec FREQ_THRES v) as [Hv|Hv].
    + destruct (decide (frequent (k, v))) as [_|Hn]; [|by destruct Hn].
      rewrite setitem_fresh; [exact IH|].
      intros Hin. apply (keys_filter_subseteq frequent d1) in Hin.
      subst. unfold keys in Hnd. rewrite fmap_app, fmap_cons in Hnd.
      apply NoDup_app in Hnd as (_ & Hdis & _). apply (Hdis k Hin), list_elem_of_here.
    + destruct (decide (frequent (k, v))) as [Hf|_].
      { unfold frequent in Hf. simpl in Hf. lia. }
      by rewrite app_nil_r in IH.
Qed.

(** What is found in the pruned table. *)
Lemma prune_get (candidates : dict) :
  NoDup (keys candidates) ->
  exists pruned,
    prune candidates = Ok pruned /\
    NoDup (keys pruned) /\
    (forall key count,
        dict_get pruned key = Some count <->
        dict_get candidates key = Some count /\ FREQ_THRES <= count).
Proof.
  intros Hnd. exists (filter frequent candidates).
  pose proof (NoDup_keys_filter frequent candidates Hnd) as Hnd'.
  split_and!; [by apply prune_filter|done|].
  intros key count. split.
  - intros H%dict_get_elem_of. apply list_elem_of_filter in H as [Hf Hin].
    split; [by apply elem_of_dict_get|exact Hf].
  - intros [H%dict_get_elem_of Hf]. apply elem_of_dict_get; [done|].
    by apply list_elem_of_filter.
Qed.

(** C8. [prune] returns exactly the entries of the table whose count is at
    least FREQ_THRES, with their counts and in their order; its keys are
    keys of the input; no entry is below the threshold; an empty table gives
    an empty table.  (The function reads its argument only; a table is a
    [dict], so its keys are distinct.) *)
Theorem prune_exact (candidates : dict) :
  NoDup (keys candidates) ->
  exists pruned,
    prune candidates = Ok pruned /\
    pruned = filter frequent candidates /\
    (forall key count,
        dict_get pruned key = Some count <->
        dict_get candidates key = Some count /\ FREQ_THRES <= count) /\
    keys pruned ⊆ keys candidates /\
    (forall key count, (key, count) ∈ pruned -> FREQ_THRES <= count) /\
    NoDup (keys pruned) /\
    prune [] = Ok [].
Proof.
  intros Hnd. destruct (prune_get candidates Hnd) as (pruned & E & Hnd' & Hget).
  pose proof (prune_filter candidates Hnd) as Ef. rewrite E in Ef. injection Ef as Ef.
  exists pruned. split_and!; [done..| | |done|done].
  - rewrite Ef. apply keys_filter_subseteq.
  - intros key count Hin. rewrite Ef in Hin.
    apply list_elem_of_filter in Hin as [Hf _]. exact Hf.
Qed.

Lemma prune_exact_witness :
  let candidates := [("a", 100); ("b", 99); ("c", 101)] in
  NoDup (keys candidates) /\
  exists pruned,
    prune candidates = Ok pruned /\ pruned = filter frequent candidates.
Proof.
  intros candidates.
  assert (NoDup (keys candidates)) as Hnd by by_compute.
  split; [exact Hnd|].
  destruct (prune_exact candidates Hnd) as (pruned & H1 & H2 & _).
  by exists pruned.
Defined.

(** ** make_candidates *)

Lemma sorted_str l : sorted str__lt__ l false = Ok (sort_by String.ltb l).
Proof. by apply (sorted_pure String.ltb str__lt__ l false). Qed.

Lemma str_ltb_asym a b : String.ltb a b = true -> String.ltb b a = false.
Proof.
  rewrite str_ltb_lt. intros H. apply not_true_is_false.
  rewrite str_ltb_lt. by apply str_lt_asym.
Qed.

Lemma not_after_str a b : not_after String.ltb a b <-> ~ str_lt b a.
Proof.
  unfold not_after. rewrite <- str_ltb_lt. by destruct (String.ltb b a).
Qed.

Lemma not_after_str_trans : Transitive (not_after String.ltb).
Proof.
  intros a b c. rewrite !not_after_str. intros H1 H2 H3.
  destruct (str_trichotomy a b) as [Hab|[->|Hba]]; [|done|done].
  apply H2. by eapply str_lt_trans.
Qed.

(** In the sorted key list a smaller key stands before a greater one. *)
Lemma sort_by_str_split l a b :
  a ∈ l -> b ∈ l -> str_lt a b ->
  exists l1 l2, sort_by String.ltb l = l1 ++ a :: l2 /\ b ∈ l2.
Proof.
  intros Ha Hb Hab.
  pose proof (sort_by_sorted String.ltb str_ltb_asym l) as Hs.
  apply (@Sorted_StronglySorted _ _ not_after_str_trans) in Hs.
  apply (elem_of_sort_by String.ltb) in Ha, Hb.
  apply list_elem_of_split in Ha as (l1 & l2 & E). rewrite E in Hs, Hb.
  exists l1, l2. split; [done|].
  apply elem_of_app in Hb as [Hb|Hb].
  - apply StronglySorted_app_1_elem_of with (x1 := b) (x2 := a) in Hs;
      [|done|apply list_elem_of_here].
    apply not_after_str in Hs. done.
  - apply elem_of_cons in Hb as [->|Hb]; [|done]. by apply str_lt_irrefl in Hab.
Qed.

(** The loops over indices are the loops over the tails of the key list. *)
Lemma make_candidates_join_all prev_frequents :
  make_candidates prev_frequents
  = join_all (sort_by String.ltb (keys prev_frequents)) [].
Proof.
  unfold make_candidates. rewrite sorted_str. simpl.
  generalize (sort_by String.ltb (keys prev_frequents)). intros L.
  enough (forall m a acc, m = (length L - a)%nat ->
            for_each (fun candidates outer =>
                        outer_key ← py_index L (Z.of_nat outer);
                        for_each (fun candidates inner =>
                                    inner_key ← py_index L (Z.of_nat inner);
                                    join_pair (split outer_key) (split inner_key) candidates)
                                 (range outer (length L)) candidates)
                     (seq a m) acc
            = join_all (drop a L) acc) as H.
  { unfold range. rewrite (H _ 0%nat []); [done|lia]. }
  induction m as [|m IH]; intros a acc Hm.
  - rewrite drop_ge by lia. done.
  - destruct (L !! a) as [x|] eqn:Hx.
    2:{ apply lookup_ge_None in Hx. lia. }
    rewrite (drop_S L x a Hx). simpl. rewrite py_index_nat, Hx. simpl.
    rewrite (for_each_range
               (fun candidates inner_key => join_pair (split x) (split inner_key) candidates)
               L a acc).
    rewrite (drop_S L x a Hx). simpl.
    destruct (join_pair (split x) (split x) acc) as [c1|]; simpl; [|done].
    destruct (for_each _ (drop (S a) L) c1) as [c2|]; simpl; [|done].
    apply IH. lia.
Qed.

Lemma while_prefix_common prefix i p o n :
  i + Z.of_nat (length p) <= prefix ->
  while_prefix prefix i (p ++ o) (p ++ n)
  = while_prefix prefix (i + Z.of_nat (length p)) o n.
Proof.
  revert i. induction p as [|x p IH]; intros i H; simpl.
  - by rewrite Z.add_0_r.
  - simpl length in H. rewrite Nat2Z.inj_succ in H.
    destruct (Z.ltb_spec i prefix); [|lia]. rewrite String.eqb_refl. simpl.
    rewrite IH by lia. f_equal. lia.
Qed.

Lemma while_prefix_stop prefix o n : while_prefix prefix prefix o n = prefix.
Proof.
  destruct o as [|x o], n as [|y n]; simpl; try done.
  by rewrite Z.ltb_irrefl.
Qed.

(** Two item lists that differ in the last item only are joined. *)
Lemma join_pair_hit p a b candidates :
  join_pair (p ++ [a]) (p ++ [b]) candidates
  = Ok (setitem candidates (join (p ++ [a; b])) 0).
Proof.
  unfold join_pair. rewrite length_app. simpl length.
  replace (Z.of_nat (length p + 1) - 1) with (Z.of_nat (length p)) by lia.
  rewrite while_prefix_common by lia. rewrite Z.add_0_l, while_prefix_stop.
  rewrite Z.eqb_refl, py_index_nat.
  rewrite lookup_app_r by lia. rewrite Nat.sub_diag. simpl.
  by rewrite <- app_assoc.
Qed.

(** On item lists of one length, [join_pair] does not raise: it leaves the
    candidates or sets one key to 0. *)
Lemma join_pair_total outer_items inner_items candidates :
  (1 <= length outer_items)%nat -> length inner_items = length outer_items ->
  exists candidates',
    join_pair outer_items inner_items candidates = Ok candidates' /\
    (candidates' = candidates \/ exists key, candidates' = setitem candidates key 0).
Proof.
  intros Hk Hlen. unfold join_pair.
  destruct (_ =? _); [|by eauto].
  replace (Z.of_nat (length outer_items) - 1)
    with (Z.of_nat (length outer_items - 1)) by lia.
  rewrite py_index_nat.
  destruct (inner_items !! (length outer_items - 1)%nat) as [x|] eqn:Hx.
  - simpl. eauto.
  - apply lookup_ge_None in Hx. lia.
Qed.

Lemma zeroed_setitem d k : zeroed d -> zeroed (setitem d k 0).
Proof.
  intros Hz k' v. rewrite dict_get_setitem.
  destruct (String.eqb k k'); [by intros [= <-]|apply Hz].
Qed.

Lemma zeroed_nil : zeroed [].
Proof. by intros k v. Qed.

Lemma zeroed_get d k : zeroed d -> k ∈ keys d -> dict_get d k = Some 0.
Proof.
  intros Hz [v Hv]%dict_get_is_Some. by rewrite Hv, (Hz k v Hv).
Qed.

Lemma keys_setitem_subseteq d k v : keys d ⊆ keys (setitem d k v).
Proof. intros x Hx. apply elem_of_keys_setitem. by right. Qed.

(** The inner loop for one outer key. *)
Lemma inner_loop_spec outer_items inner_keys candidates :
  (1 <= length outer_items)%nat ->
  (forall key, key ∈ inner_keys -> length (split key) = length outer_items) ->
  zeroed candidates ->
  exists candidates',
    for_each (fun candidates inner_key =>
                join_pair outer_items (split inner_key) candidates)
             inner_keys candidates = Ok candidates' /\
    zeroed candidates' /\
    keys candidates ⊆ keys candidates' /\
    (forall p a b inner_key,
        outer_items = p ++ [a] -> inner_key ∈ inner_keys ->
        split inner_key = p ++ [b] -> join (p ++ [a; b]) ∈ keys candidates').
Proof.
  intros Hk. revert candidates.
  induction inner_keys as [|key inner_keys IH]; intros candidates Hlen Hz.
  - exists candidates. split_and!; [done..|]. by intros p a b ik _ ?%elem_of_nil.
  - simpl.
    destruct (join_pair_total outer_items (split key) candidates Hk) as (c1 & E1 & Hc1);
      [apply Hlen, list_elem_of_here|].
    assert (zeroed c1 /\ keys candidates ⊆ keys c1) as [Hz1 Hsub1].
    { destruct Hc1 as [->|[K ->]]; [done|].
      split; [by apply zeroed_setitem|apply keys_setitem_subseteq]. }
    destruct (IH c1) as (c2 & E2 & Hz2 & Hsub2 & Hhit); [|done|].
    { intros k' Hk'. by apply Hlen, list_elem_of_further. }
    exists c2. rewrite E1. simpl. split_and!; [done|done|by etrans|].
    intros p a b ik -> [->|Hin]%elem_of_cons Hik; [|by eapply Hhit].
    rewrite Hik, join_pair_hit in E1. injection E1 as <-.
    apply Hsub2, elem_of_keys_setitem. by left.
Qed.

Lemma join_all_spec (k : nat) rest candidates :
  (1 <= k)%nat ->
  (forall key, key ∈ rest -> length (split key) = k) ->
  zeroed candidates ->
  exists candidates',
    join_all rest candidates = Ok candidates' /\
    zeroed candidates' /\
    keys candidates ⊆ keys candidates' /\
    (forall l1 outer_key l2 inner_key p a b,
        rest = l1 ++ outer_key :: l2 -> inner_key ∈ outer_key :: l2 ->
        split outer_key = p ++ [a] -> split inner_key = p ++ [b] ->
        join (p ++ [a; b]) ∈ keys candidates').
Proof.
  intros Hk. revert candidates.
  induction rest as [|key rest IH]; intros candidates Hlen Hz.
  - exists candidates. split_and!; [done..|].
    intros l1 ok l2 ik p a b E. by destruct l1.
  - simpl.
    destruct (inner_loop_spec (split key) (key :: rest) candidates)
      as (c1 & E1 & Hz1 & Hsub1 & Hhit1).
    { rewrite (Hlen key); [done|apply list_elem_of_here]. }
    { intros k' Hk'. by rewrite !Hlen by (done || apply list_elem_of_here). }
    { done. }
    destruct (IH c1) as (c2 & E2 & Hz2 & Hsub2 & Hhit2); [|done|].
    { intros k' Hk'. by apply Hlen, list_elem_of_further. }
    exists c2. simpl in E1. rewrite E1. simpl. split_and!; [done|done|by etrans|].
    intros l1 ok l2 ik p a b E Hin Hok Hik.
    destruct l1 as [|x l1]; simpl in E; injection E as -> ->.
    + apply Hsub2. by eapply Hhit1.
    + by eapply Hhit2.
Qed.

(** ** combinations *)

(** The combinations of length [r] are the sub-sequences of that length. *)
Lemma elem_of_combinations {A} (l : list A) (r : nat) (c : list A) :
  c ∈ combinations l r <-> sublist c l /\ length c = r.
Proof.
  revert r c. induction l as [|x l IH]; intros r c.
  - destruct r as [|r]; simpl.
    + rewrite list_elem_of_singleton. split.
      * intros ->. done.
      * intros [H%sublist_nil_r _]. done.
    + split; [by intros ?%elem_of_nil|].
      intros [->%sublist_nil_r H]. done.
  - destruct r as [|r]; simpl.
    + rewrite list_elem_of_singleton. split.
      * intros ->. split; [apply sublist_nil_l|done].
      * intros [_ H]. by destruct c.
    + rewrite elem_of_app, list_elem_of_fmap. setoid_rewrite IH. split.
      * intros [(c' & -> & Hc' & Hlen)|[Hc Hlen]].
        -- split; [by apply sublist_skip|simpl; lia].
        -- split; [by apply sublist_cons|done].
      * intros [Hc Hlen]. apply sublist_cons_r in Hc as [Hc|(c' & -> & Hc')].
        -- by right.
        -- left. exists c'. simpl in Hlen. split_and!; [done|done|lia].
Qed.

Lemma level_table_split k d key :
  level_table k d -> key ∈ keys d ->
  itemset (split key) /\ length (split key) = k /\ join (split key) = key.
Proof.
  intros Hd Hkey. destruct (Hd key Hkey) as (items & -> & Hi & Hlen).
  rewrite (split_join items) by apply Hi. done.
Qed.

Lemma list_two_last {A} (l : list A) :
  (2 <= length l)%nat -> exists p a b, l = p ++ [a; b].
Proof.
  intros H. destruct l as [|b l _] using rev_ind; [simpl in H; lia|].
  destruct l as [|a l _] using rev_ind.
  - simpl in H. lia.
  - exists l, a, b. by rewrite <- app_assoc.
Qed.

(** An itemset of two or more items and the two sub-itemsets that drop its
    last and its second-to-last item. *)
Lemma itemset_last_two (items : list string) :
  itemset items -> (2 <= length items)%nat ->
  exists p a b,
    items = p ++ [a; b] /\ str_lt a b /\
    sublist (p ++ [a]) items /\ sublist (p ++ [b]) items /\
    length (p ++ [a]) = (length items - 1)%nat /\
    length (p ++ [b]) = (length items - 1)%nat.
Proof.
  intros [_ Hsorted] Hlen.
  destruct (list_two_last items Hlen) as (p & a & b & ->).
  exists p, a, b. rewrite !length_app. simpl. split_and!; [done| | | |lia..].
  - apply StronglySorted_app_1_r in Hsorted.
    apply StronglySorted_inv in Hsorted as [_ Hab].
    by apply Forall_inv in Hab.
  - apply sublist_app; [done|]. apply sublist_skip, sublist_nil_l.
  - apply sublist_app; [done|]. by apply sublist_cons.
Qed.

(** [make_candidates] on a table of level [k] does not raise, gives every
    candidate the count 0, and joins every two keys that differ in the last
    item only. *)
Lemma make_candidates_spec (prev_frequents : dict) (k : nat) :
  (1 <= k)%nat -> level_table k prev_frequents ->
  exists candidates,
    make_candidates prev_frequents = Ok candidates /\
    zeroed candidates /\
    (forall p a b,
        join (p ++ [a]) ∈ keys prev_frequents ->
        join (p ++ [b]) ∈ keys prev_frequents ->
        Forall token (p ++ [a; b]) -> str_lt a b ->
        dict_get candidates (join (p ++ [a; b])) = Some 0).
Proof.
  intros Hk Hd. rewrite make_candidates_join_all.
  destruct (join_all_spec k (sort_by String.ltb (keys prev_frequents)) [] Hk)
    as (c & E & Hz & _ & Hhit).
  { intros key Hkey%elem_of_sort_by. by apply (level_table_split k prev_frequents). }
  { apply zeroed_nil. }
  exists c. split_and!; [done..|].
  intros p a b Ha Hb Htok Hab. apply zeroed_get; [done|].
  assert (Forall token (p ++ [a]) /\ Forall token (p ++ [b])) as [Hta Htb].
  { rewrite !Forall_app, !Forall_cons in *. tauto. }
  destruct (sort_by_str_split (keys prev_frequents) (join (p ++ [a])) (join (p ++ [b])))
    as (l1 & l2 & Es & Hin); [done|done| |].
  { unfold str_lt. by rewrite join_snoc_compare. }
  apply (Hhit l1 (join (p ++ [a])) l2 (join (p ++ [b])) p a b Es).
  - by apply list_elem_of_further.
  - by apply split_join.
  - by apply split_join.
Qed.

(** C1. No frequent itemset is missed.  For a table whose keys are the
    canonical keys of itemsets of one size [k >= 1], and an itemset [S] of
    size [k + 1] (sorted, duplicate-free) all of whose sub-itemsets of size
    [k] are keys of the table, [make_candidates] returns a table that maps
    the canonical key of [S] to 0. *)
Theorem make_candidates_complete (frequent_k : dict) (k : nat) (S : list string) :
  (1 <= k)%nat ->
  level_table k frequent_k ->
  itemset S -> length S = (k + 1)%nat ->
  (forall T, sublist T S -> length T = k -> join T ∈ keys frequent_k) ->
  exists candidates,
    make_candidates frequent_k = Ok candidates /\
    dict_get candidates (join S) = Some 0.
Proof.
  intros Hk Hd Hi Hlen Hsub.
  destruct (make_candidates_spec frequent_k k Hk Hd) as (c & E & _ & Hhit).
  exists c. split; [done|].
  destruct (itemset_last_two S Hi) as (p & a & b & -> & Hab & Ha & Hb & Hla & Hlb); [lia|].
  apply Hhit; [| |apply Hi|done].
  - apply Hsub; [done|lia].
  - apply Hsub; [done|lia].
Qed.

Lemma make_candidates_complete_witness :
  let frequent_k := [("a b", 120); ("a c", 110); ("b c", 100)] in
  let S := ["a"; "b"; "c"] in
  exists candidates,
    make_candidates frequent_k = Ok candidates /\
    dict_get candidates (join S) = Some 0.
Proof.
  intros frequent_k S.
  assert (forall items, items ∈ [["a"; "b"]; ["a"; "c"]; ["b"; "c"]; S] -> itemset items) as Hi.
  { intros items Hin. repeat (apply elem_of_cons in Hin as [->|Hin]);
      [| | | |by apply elem_of_nil in Hin];
      solve_itemset. }
  apply (make_candidates_complete frequent_k 2 S).
  - lia.
  - intros key Hkey. unfold frequent_k, keys in Hkey. simpl in Hkey.
    repeat (apply elem_of_cons in Hkey as [->|Hkey]); [| | |by apply elem_of_nil in Hkey].
    + exists ["a"; "b"]. split_and!; [done| |done]. apply Hi. by_compute.
    + exists ["a"; "c"]. split_and!; [done| |done]. apply Hi. by_compute.
    + exists ["b"; "c"]. split_and!; [done| |done]. apply Hi. by_compute.
  - apply Hi. by_compute.
  - reflexivity.
  - intros T HT Hlen.
    assert (T ∈ combinations S 2) as Hc by by apply elem_of_combinations.
    unfold frequent_k, keys. simpl in *.
    repeat (apply elem_of_cons in Hc as [->|Hc]); [| | |by apply elem_of_nil in Hc];
      by_compute.
Defined.

(** The self-join: [make_candidates] also joins every key with itself, which
    repeats the last item of the key. *)
Lemma make_candidates_self_join (prev_frequents : dict) (k : nat) p a :
  (1 <= k)%nat -> level_table k prev_frequents ->
  Forall token (p ++ [a]) -> join (p ++ [a]) ∈ keys prev_frequents ->
  exists candidates,
    make_candidates prev_frequents = Ok candidates /\
    dict_get candidates (join (p ++ [a; a])) = Some 0.
Proof.
  intros Hk Hd Htok Hin. rewrite make_candidates_join_all.
  destruct (join_all_spec k (sort_by String.ltb (keys prev_frequents)) [] Hk)
    as (c & E & Hz & _ & Hhit).
  { intros key Hkey%elem_of_sort_by. by apply (level_table_split k prev_frequents). }
  { apply zeroed_nil. }
  exists c. split; [done|]. apply zeroed_get; [done|].
  apply (elem_of_sort_by String.ltb) in Hin.
  apply list_elem_of_split in Hin as (l1 & l2 & Es).
  apply (Hhit l1 (join (p ++ [a])) l2 (join (p ++ [a])) p a a Es).
  - apply list_elem_of_here.
  - by apply split_join.
  - by apply split_join.
Qed.

(** C3 fails on the code.  For every key of a table of level [k >= 1],
    [make_candidates] returns the candidate made of the items of the key
    followed by its last item once more: its items are not distinct.  So
    from the singles a and b come the candidates "a a", "a b" and "b b". *)
Theorem make_candidates_repeats_item (frequent_k : dict) (k : nat) (p : list string) (a : string) :
  (1 <= k)%nat -> level_table k frequent_k ->
  itemset (p ++ [a]) -> join (p ++ [a]) ∈ keys frequent_k ->
  exists candidates,
    make_candidates frequent_k = Ok candidates /\
    dict_get candidates (join (p ++ [a; a])) = Some 0 /\
    split (join (p ++ [a; a])) = p ++ [a; a] /\
    ~ NoDup (split (join (p ++ [a; a]))).
Proof.
  intros Hk Hd [Htok _] Hin.
  destruct (make_candidates_self_join frequent_k k p a Hk Hd Htok Hin) as (c & E & Hc).
  exists c. split_and!; [done|done| |].
  - apply split_join. rewrite !Forall_app, !Forall_cons in *. tauto.
  - rewrite split_join by (rewrite !Forall_app, !Forall_cons in *; tauto).
    intros [_ Hnd]%NoDup_app. destruct Hnd as [_ Hnd].
    apply NoDup_cons in Hnd as [Hnd _]. apply Hnd, list_elem_of_here.
Qed.

Lemma make_candidates_repeats_item_witness :
  make_candidates [("a", 100); ("b", 100)]
  = Ok [("a a", 0); ("a b", 0); ("b b", 0)] /\
  exists candidates,
    make_candidates [("a", 100); ("b", 100)] = Ok candidates /\
    dict_get candidates "a a" = Some 0 /\
    split "a a" = ["a"; "a"] /\
    ~ NoDup (split "a a").
Proof.
  split; [reflexivity|].
  apply (make_candidates_repeats_item [("a", 100); ("b", 100)] 1 [] "a").
  - lia.
  - intros key Hkey.
    repeat (apply elem_of_cons in Hkey as [->|Hkey]); [| |by apply elem_of_nil in Hkey].
    + exists ["a"]. split_and!; [done|solve_itemset|done].
    + exists ["b"]. split_and!; [done|solve_itemset|done].
  - solve_itemset.
  - by_compute.
Defined.

(** ** make_rules *)

Lemma for_each_pairs {A B S} (body : A -> S -> B -> result S) (g : A -> list B) xs acc :
  for_each (fun acc x => for_each (body x) (g x) acc) xs acc
  = for_each (fun acc p => body p.1 acc p.2) (flat_map (fun x => map (pair x) (g x)) xs) acc.
Proof.
  revert acc. induction xs as [|x xs IH]; intros acc; simpl; [done|].
  rewrite for_each_app.
  assert (forall l a, for_each (body x) l a
                      = for_each (fun acc p => body p.1 acc p.2) (map (pair x) l) a) as ->.
  { induction l as [|y l IHl]; intros a0; simpl; [done|].
    destruct (body x a0 y); simpl; [apply IHl|done]. }
  destruct (for_each _ (map (pair x) (g x)) acc); simpl; [apply IH|done].
Qed.

(** A loop that appends one result per element collects the results. *)
Lemma for_each_collect {A B} (g : A -> result B) xs acc out :
  for_each (fun acc x => y ← g x; Ok (acc ++ [y])) xs acc = Ok out <->
  exists ys, Forall2 (fun x y => g x = Ok y) xs ys /\ out = acc ++ ys.
Proof.
  revert acc. induction xs as [|x xs IH]; intros acc; simpl.
  - split.
    + intros [= <-]. exists []. by rewrite app_nil_r.
    + intros (ys & ->%Forall2_nil_inv_l & ->). by rewrite app_nil_r.
  - split.
    + destruct (g x) as [y|] eqn:Hy; simpl; [|done].
      intros (ys & Hys & ->)%IH. exists (y :: ys).
      split; [by constructor|by rewrite <- app_assoc].
    + intros (ys & Hys & ->). apply Forall2_cons_inv_l in Hys as (y & ys' & Hy & Hys' & ->).
      rewrite Hy. simpl. apply IH. exists ys'. by rewrite <- app_assoc.
Qed.

Lemma make_rules_Forall2 top_level args rules :
  make_rules top_level args = Ok rules <->
  Forall2 (fun p rule => make_rule top_level args p.1 (split p.1) p.2 = Ok rule)
          (splits top_level) rules.
Proof.
  unfold make_rules.
  rewrite (for_each_pairs
             (fun itemset level_rules combination =>
                rule ← make_rule top_level args itemset (split itemset) combination;
                Ok (level_rules ++ [rule]))
             (fun itemset => proper_combinations (split itemset))).
  rewrite (for_each_collect
             (fun p => make_rule top_level args p.1 (split p.1) p.2) (splits top_level) []).
  split; [by intros (ys & H & ->)|]. intros H. by exists rules.
Qed.

Lemma elem_of_splits top_level itemset combination :
  (itemset, combination) ∈ splits top_level <->
  itemset ∈ keys top_level /\
  sublist combination (split itemset) /\
  (1 <= length combination < length (split itemset))%nat.
Proof.
  unfold splits, proper_combinations, range.
  rewrite elem_of_flat_map. split.
  - intros (x & Hx & [c [[= <- <-] Hc]]%list_elem_of_fmap).
    apply elem_of_flat_map in Hc as (i & Hi & Hc).
    apply elem_of_combinations in Hc as [Hsub Hlen].
    apply list_elem_of_In, in_seq in Hi. split_and!; [done|done|lia|lia].
  - intros (Hin & Hsub & Hlen). exists itemset. split; [done|].
    apply list_elem_of_fmap. exists combination. split; [done|].
    apply elem_of_flat_map. exists (length combination). split.
    + apply list_elem_of_In, in_seq. lia.
    + by apply elem_of_combinations.
Qed.

Lemma make_rule_Ok top_level args itemset items combination rule :
  make_rule top_level args itemset items combination = Ok rule <->
  exists all_freq level left_freq,
    dict_get top_level itemset = Some all_freq /\
    py_index args (Z.of_nat (length combination) - 1) = Ok level /\
    dict_get level (join combination) = Some left_freq /\
    rule = Rule.__init__ combination (filter (fun item => item ∉ combination) items)
                         all_freq left_freq.
Proof.
  unfold make_rule. split.
  - intros (af & Haf%getitem_Ok & (lv & Hlv & (lf & Hlf%getitem_Ok & [= <-])%bind_Ok)%bind_Ok)%bind_Ok.
    by exists af, lv, lf.
  - intros (af & lv & lf & Haf%getitem_Ok & Hlv & Hlf%getitem_Ok & ->).
    rewrite Haf. simpl. rewrite Hlv. simpl. rewrite Hlf. done.
Qed.

Lemma filter_ext_in {A} (P Q : A -> Prop) `{!forall x, Decision (P x), !forall x, Decision (Q x)}
    (l : list A) :
  (forall x, x ∈ l -> P x <-> Q x) -> filter P l = filter Q l.
Proof.
  induction l as [|x l IH]; intros Hpq; [done|].
  rewrite !filter_cons.
  assert (filter P l = filter Q l) as ->.
  { apply IH. intros y Hy. by apply Hpq, list_elem_of_further. }
  pose proof (Hpq x (list_elem_of_here x l)) as Hx.
  destruct (decide (P x)), (decide (Q x)); tauto.
Qed.

(** The items of a combination, picked out of a duplicate-free item list,
    are the combination. *)
Lemma filter_sublist (c l : list string) :
  sublist c l -> NoDup l -> filter (fun item => item ∈ c) l = c.
Proof.
  induction 1 as [|x c l Hsub IH|x c l Hsub IH]; intros Hnd.
  - done.
  - apply NoDup_cons in Hnd as [Hx Hnd].
    rewrite filter_cons_True by apply list_elem_of_here. f_equal.
    etrans; [|apply (IH Hnd)]. apply filter_ext_in.
    intros y Hy. rewrite elem_of_cons. split; [|by auto].
    intros [->|]; done.
  - apply NoDup_cons in Hnd as [Hx Hnd].
    rewrite filter_cons_False; [by apply IH|].
    intros Hc. apply Hx. by eapply sublist_subseteq.
Qed.

(** A combination and the items it leaves out make up the item list. *)
Lemma sublist_complement (c l : list string) :
  sublist c l -> NoDup l -> c ++ filter (fun item => item ∉ c) l ≡ₚ l.
Proof.
  intros Hsub Hnd. rewrite <- (filter_sublist c l Hsub Hnd) at 1.
  apply (filter_app_complement (fun item => item ∈ c)).
Qed.

Lemma Forall2_elem_of_r {A B} (R : A -> B -> Prop) l k y :
  Forall2 R l k -> y ∈ k -> exists x, x ∈ l /\ R x y.
Proof.
  induction 1 as [|x y' l k Hxy _ IH]; [by intros ?%elem_of_nil|].
  intros [->|Hy]%elem_of_cons.
  - exists x. split; [apply list_elem_of_here|done].
  - destruct (IH Hy) as (x' & Hx' & Hr). exists x'.
    split; [by apply list_elem_of_further|done].
Qed.

Lemma Forall2_elem_of_l {A B} (R : A -> B -> Prop) l k x :
  Forall2 R l k -> x ∈ l -> exists y, y ∈ k /\ R x y.
Proof.
  induction 1 as [|x' y l k Hxy _ IH]; [by intros ?%elem_of_nil|].
  intros [->|Hx]%elem_of_cons.
  - exists y. split; [apply list_elem_of_here|done].
  - destruct (IH Hx) as (y' & Hy' & Hr). exists y'.
    split; [by apply list_elem_of_further|done].
Qed.

Lemma not_after_str_antisym : AntiSymm (=) (not_after String.ltb).
Proof.
  intros a b. rewrite !not_after_str. intros H1 H2.
  by destruct (str_trichotomy a b) as [H|[H|H]].
Qed.

(** Sorting two lists with the same items gives the same list. *)
Lemma sorted_str_perm l1 l2 :
  l1 ≡ₚ l2 -> sorted str__lt__ l1 false = sorted str__lt__ l2 false.
Proof.
  intros Hp. rewrite !sorted_str. f_equal.
  apply (@Sorted_unique _ _ not_after_str_trans not_after_str_antisym).
  - apply sort_by_sorted, str_ltb_asym.
  - apply sort_by_sorted, str_ltb_asym.
  - by rewrite !sort_by_perm.
Qed.

(** What [make_rules] returns: one rule for every key and every
    combination of its items with at least one item in and one out. *)
Lemma make_rules_elem_of top_level args rules rule :
  make_rules top_level args = Ok rules -> rule ∈ rules ->
  exists itemset all_freq level left_freq,
    itemset ∈ keys top_level /\
    sublist (Rule.left rule) (split itemset) /\
    (1 <= length (Rule.left rule) < length (split itemset))%nat /\
    Rule.right rule = filter (fun item => item ∉ Rule.left rule) (split itemset) /\
    dict_get top_level itemset = Some all_freq /\
    py_index args (Z.of_nat (length (Rule.left rule)) - 1) = Ok level /\
    dict_get level (join (Rule.left rule)) = Some left_freq /\
    Rule.all_freq rule = all_freq /\ Rule.left_freq rule = left_freq.
Proof.
  intros Hr%make_rules_Forall2 Hin.
  destruct (Forall2_elem_of_r _ _ _ _ Hr Hin) as ([itemset c] & Hp & Hrule).
  apply elem_of_splits in Hp as (Hk & Hsub & Hlen).
  apply make_rule_Ok in Hrule as (af & lv & lf & Haf & Hlv & Hlf & ->).
  simpl in *. by exists itemset, af, lv, lf.
Qed.

(** C7. Every rule that [make_rules] returns for a table whose keys have
    distinct items splits the items of one key: left and right side together
    are the items of the key (as sorted lists and as a permutation), they
    share no item, and the left side is a sub-sequence of the items that is
    neither empty nor all of them.  Every such sub-sequence of every key,
    of each size from 1 to n-1, is the left side of a returned rule. *)
Theorem make_rules_reconstruct (top_level : dict) (args : list dict) (rules : list Rule.t) :
  (forall key, key ∈ keys top_level -> NoDup (split key)) ->
  make_rules top_level args = Ok rules ->
  (forall rule, rule ∈ rules ->
     exists itemset,
       itemset ∈ keys top_level /\
       sorted str__lt__ (Rule.left rule ++ Rule.right rule) false
       = sorted str__lt__ (split itemset) false /\
       Rule.left rule ++ Rule.right rule ≡ₚ split itemset /\
       (forall item, item ∈ Rule.left rule -> item ∉ Rule.right rule) /\
       sublist (Rule.left rule) (split itemset) /\
       Rule.left rule <> [] /\ Rule.right rule <> [] /\
       (1 <= length (Rule.left rule) < length (split itemset))%nat) /\
  (forall itemset combination,
     itemset ∈ keys top_level ->
     sublist combination (split itemset) ->
     (1 <= length combination < length (split itemset))%nat ->
     exists rule,
       rule ∈ rules /\ Rule.left rule = combination /\
       Rule.right rule = filter (fun item => item ∉ combination) (split itemset)).
Proof.
  intros Hnd Hr. split.
  - intros rule Hin.
    destruct (make_rules_elem_of _ _ _ _ Hr Hin)
      as (itemset & af & lv & lf & Hk & Hsub & Hlen & Hright & _).
    pose proof (sublist_complement _ _ Hsub (Hnd itemset Hk)) as Hperm.
    rewrite <- Hright in Hperm.
    exists itemset.
    split_and!; [done|by apply sorted_str_perm|done| |done| | |lia..].
    + intros item Hl. rewrite Hright. intros [Hn _]%list_elem_of_filter. done.
    + intros E. rewrite E in Hlen. simpl in Hlen. lia.
    + intros E. apply Permutation_length in Hperm.
      rewrite length_app, E in Hperm. simpl in Hperm. lia.
  - intros itemset c Hk Hsub Hlen.
    apply make_rules_Forall2 in Hr.
    destruct (Forall2_elem_of_l _ _ _ (itemset, c) Hr) as (rule & Hin & Hrule).
    { by apply elem_of_splits. }
    apply make_rule_Ok in Hrule as (af & lv & lf & _ & _ & _ & ->).
    eexists. split; [exact Hin|done].
Qed.

Lemma make_rules_reconstruct_witness :
  let top_level := [("a b", 100)] in
  let args := [[("a", 150); ("b", 120)]] in
  let rules := [Rule.__init__ ["a"] ["b"] 100 150; Rule.__init__ ["b"] ["a"] 100 120] in
  make_rules top_level args = Ok rules /\
  forall rule, rule ∈ rules ->
    exists itemset,
      itemset ∈ keys top_level /\
      Rule.left rule ++ Rule.right rule ≡ₚ split itemset /\
      (forall item, item ∈ Rule.left rule -> item ∉ Rule.right rule).
Proof.
  intros top_level args rules.
  assert (forall key, key ∈ keys top_level -> NoDup (split key)) as Hnd.
  { intros key ->%list_elem_of_singleton. by_compute. }
  assert (make_rules top_level args = Ok rules) as Hr by reflexivity.
  split; [exact Hr|]. intros rule Hin.
  destruct (proj1 (make_rules_reconstruct top_level args rules Hnd Hr) rule Hin)
    as (itemset & H1 & _ & H2 & H3 & _).
  by exists itemset.
Defined.

(** ** Itemsets, combinations and support *)

Lemma StronglySorted_str_NoDup l : StronglySorted str_lt l -> NoDup l.
Proof.
  induction 1 as [|x l _ IH Hx]; constructor; [|done].
  intros Hin. rewrite Forall_forall in Hx. by apply (str_lt_irrefl x), Hx.
Qed.

Lemma Forall_of_sublist {A} (P : A -> Prop) (c l : list A) :
  sublist c l -> Forall P l -> Forall P c.
Proof.
  intros Hsub. rewrite !Forall_forall. intros H x Hx.
  apply H. by eapply sublist_subseteq.
Qed.

Lemma StronglySorted_sublist {A} (R : relation A) (c l : list A) :
  sublist c l -> StronglySorted R l -> StronglySorted R c.
Proof.
  induction 1 as [|x c l Hsub IH|x c l Hsub IH]; intros Hl; [done| |].
  - apply StronglySorted_inv in Hl as [Hl Hx]. constructor; [by apply IH|].
    by apply (Forall_of_sublist _ c l).
  - apply StronglySorted_inv in Hl as [Hl _]. by apply IH.
Qed.

Lemma itemset_sublist c l : sublist c l -> itemset l -> itemset c.
Proof.
  intros Hsub [Htok Hs]. split.
  - by apply (Forall_of_sublist _ c l).
  - by apply (StronglySorted_sublist _ c l).
Qed.

Lemma itemset_NoDup l : itemset l -> NoDup l.
Proof. intros [_ H]. by apply StronglySorted_str_NoDup. Qed.

Lemma itemset_singleton x : token x -> itemset [x].
Proof.
  intros H. split; [by apply Forall_singleton|].
  apply SSorted_cons; [apply SSorted_nil|apply Forall_nil_2].
Qed.

(** Among sorted duplicate-free lists, a subset is a sub-sequence. *)
Lemma sorted_subseteq_sublist (c l : list string) :
  StronglySorted str_lt c -> StronglySorted str_lt l -> c ⊆ l -> sublist c l.
Proof.
  intros Hc Hl. revert c Hc. induction Hl as [|x l Hl IH Hx]; intros c Hc Hsub.
  - destruct c as [|y c]; [done|].
    by destruct (not_elem_of_nil y); apply Hsub, list_elem_of_here.
  - destruct c as [|y c]; [apply sublist_nil_l|].
    apply StronglySorted_inv in Hc as [Hc Hy]. rewrite Forall_forall in Hx, Hy.
    destruct (decide (y = x)) as [->|Hne].
    + apply sublist_skip, IH; [done|].
      intros z Hz. pose proof (Hsub z (list_elem_of_further _ _ _ Hz)) as Hz'.
      apply elem_of_cons in Hz' as [->|Hz']; [|done].
      by destruct (str_lt_irrefl x); apply Hy.
    + apply sublist_cons, IH; [by constructor; [|apply Forall_forall]|].
      assert (str_lt x y) as Hxy.
      { pose proof (Hsub y (list_elem_of_here _ _)) as [->|Hin]%elem_of_cons; [done|].
        by apply Hx. }
      intros z Hz. pose proof (Hsub z Hz) as Hz'.
      apply elem_of_cons in Hz' as [->|Hz']; [|done].
      apply elem_of_cons in Hz as [->|Hz]; [done|].
      destruct (str_lt_irrefl x). eapply str_lt_trans; [exact Hxy|by apply Hy].
Qed.

Lemma itemset_subseteq_sublist c l : itemset c -> itemset l -> c ⊆ l <-> sublist c l.
Proof.
  intros [_ Hc] [_ Hl]. split; [by apply sorted_subseteq_sublist|apply sublist_subseteq].
Qed.

Lemma NoDup_combinations {A} (l : list A) (r : nat) :
  NoDup l -> NoDup (combinations l r).
Proof.
  revert r. induction l as [|x l IH]; intros r Hnd.
  - destruct r; simpl; [apply NoDup_singleton|apply NoDup_nil_2].
  - apply NoDup_cons in Hnd as [Hx Hnd].
    destruct r as [|r]; simpl; [apply NoDup_singleton|].
    apply NoDup_app. split_and!.
    + apply (NoDup_fmap_2 _). by apply IH.
    + intros c [c' [-> _]]%list_elem_of_fmap [Hsub _]%elem_of_combinations.
      apply Hx. eapply sublist_subseteq; [exact Hsub|apply list_elem_of_here].
    + by apply IH.
Qed.

Lemma occurrences_nil k : occurrences k [] = 0.
Proof. done. Qed.

Lemma occurrences_cons k x ks :
  occurrences k (x :: ks) = (if decide (x = k) then 1 else 0) + occurrences k ks.
Proof.
  unfold occurrences. rewrite filter_cons.
  destruct (decide (x = k)); simpl length; lia.
Qed.

Lemma occurrences_app k l1 l2 :
  occurrences k (l1 ++ l2) = occurrences k l1 + occurrences k l2.
Proof. unfold occurrences. rewrite filter_app, length_app. lia. Qed.

Lemma occurrences_nonneg k ks : 0 <= occurrences k ks.
Proof. unfold occurrences. lia. Qed.

Lemma occurrences_not_in k ks : k ∉ ks -> occurrences k ks = 0.
Proof.
  induction ks as [|x ks IH]; [done|]. rewrite not_elem_of_cons, occurrences_cons.
  intros [Hne Hin]. rewrite IH by done. destruct (decide (x = k)); [congruence|done].
Qed.

Lemma occurrences_pos k ks : 0 < occurrences k ks -> k ∈ ks.
Proof.
  intros H. destruct (decide (k ∈ ks)) as [|Hn]; [done|].
  rewrite occurrences_not_in in H by done. lia.
Qed.

Lemma occurrences_NoDup k ks :
  NoDup ks -> occurrences k ks = if decide (k ∈ ks) then 1 else 0.
Proof.
  induction 1 as [|x ks Hx _ IH]; [done|].
  rewrite occurrences_cons, IH.
  destruct (decide (x = k)) as [->|Hne].
  - destruct (decide (k ∈ ks)); [done|].
    destruct (decide (k ∈ k :: ks)) as [|Hn]; [done|].
    destruct Hn. apply list_elem_of_here.
  - destruct (decide (k ∈ ks)) as [Hin|Hn].
    + destruct (decide (k ∈ x :: ks)) as [|Hn]; [done|].
      destruct Hn. by apply list_elem_of_further.
    + destruct (decide (k ∈ x :: ks)) as [[->|]%elem_of_cons|]; done.
Qed.

Lemma support_cons items line lines :
  support items (line :: lines)
  = (if decide (items ⊆ line) then 1 else 0) + support items lines.
Proof.
  unfold support. rewrite filter_cons.
  destruct (decide (items ⊆ line)); simpl length; lia.
Qed.

Lemma support_nonneg items lines : 0 <= support items lines.
Proof. unfold support. lia. Qed.

(** Support does not grow with the itemset. *)
Lemma support_anti items items' lines :
  items' ⊆ items -> support items lines <= support items' lines.
Proof.
  intros Hsub. induction lines as [|line lines IH]; [done|].
  rewrite !support_cons.
  destruct (decide (items ⊆ line)) as [H|H]; destruct (decide (items' ⊆ line)) as [H'|H'];
    try lia.
  destruct H'. by etrans.
Qed.

Lemma support_pos items lines :
  0 < support items lines -> exists line, line ∈ lines /\ items ⊆ line.
Proof.
  induction lines as [|line lines IH]; [unfold support; simpl; lia|].
  rewrite support_cons. destruct (decide (items ⊆ line)) as [H|H].
  - intros _. exists line. split; [apply list_elem_of_here|done].
  - intros Hp. destruct IH as (l & Hl & Hsub); [lia|].
    exists l. split; [by apply list_elem_of_further|done].
Qed.

Lemma length_filter_fmap {A B} `{!EqDecision A, !EqDecision B}
    (f : A -> B) (x : A) (y : B) (l : list A) :
  (forall c, c ∈ l -> f c = y <-> c = x) ->
  length (filter (fun b => b = y) (map f l)) = length (filter (fun c => c = x) l).
Proof.
  induction l as [|c l IH]; intros Hf; [done|].
  simpl map. rewrite !filter_cons.
  pose proof (Hf c (list_elem_of_here c l)) as Hc.
  assert (length (filter (fun b => b = y) (map f l))
          = length (filter (fun c => c = x) l)) as IH'.
  { apply IH. intros c' Hc'. by apply Hf, list_elem_of_further. }
  destruct (decide (f c = y)), (decide (c = x)); simpl; rewrite ?IH'; tauto || lia.
Qed.

(** The keys of the combinations of one line: the key of an itemset of size
    [k] occurs once if the line contains the itemset, and not otherwise. *)
Lemma occurrences_line (k : nat) (items line : list string) :
  itemset items -> length items = k -> itemset line ->
  occurrences (join items) (map join (combinations line k))
  = if decide (items ⊆ line) then 1 else 0.
Proof.
  intros Hi Hlen Hl.
  assert (forall c, c ∈ combinations line k -> join c = join items <-> c = items) as Hinj.
  { intros c [Hc _]%elem_of_combinations. split; [|by intros ->].
    apply join_inj; [|apply Hi]. apply (itemset_sublist c line Hc Hl). }
  assert (occurrences (join items) (map join (combinations line k))
          = Z.of_nat (length (filter (fun c => c = items) (combinations line k)))) as ->.
  { unfold occurrences. f_equal. by apply length_filter_fmap. }
  pose proof (NoDup_combinations line k (itemset_NoDup line Hl)) as Hnd.
  assert (forall (l : list (list string)),
            NoDup l ->
            Z.of_nat (length (filter (fun c => c = items) l))
            = if decide (items ∈ l) then 1 else 0) as Hcount.
  { induction 1 as [|c l Hc _ IH]; [done|].
    rewrite filter_cons.
    destruct (decide (c = items)) as [->|Hne].
    - simpl length. rewrite Nat2Z.inj_succ, IH.
      destruct (decide (items ∈ l)); [done|].
      destruct (decide (items ∈ items :: l)) as [|Hn]; [done|].
      destruct Hn. apply list_elem_of_here.
    - rewrite IH. destruct (decide (items ∈ l)) as [Hin|Hn].
      + destruct (decide (items ∈ c :: l)) as [|Hn]; [done|].
        destruct Hn. by apply list_elem_of_further.
      + destruct (decide (items ∈ c :: l)) as [[->|]%elem_of_cons|]; done. }
  rewrite (Hcount _ Hnd).
  destruct (decide (items ∈ combinations line k)) as [Hin|Hn];
    destruct (decide (items ⊆ line)) as [Hsub|Hns]; try done.
  - destruct Hns. apply elem_of_combinations in Hin as [Hin _].
    by apply sublist_subseteq.
  - destruct Hn. apply elem_of_combinations. split; [|done].
    by apply itemset_subseteq_sublist.
Qed.

(** Over all lines, the key of an itemset of size [k] occurs as often as
    lines contain the itemset. *)
Lemma occurrences_support (k : nat) (items : list string) (lines : list (list string)) :
  itemset items -> length items = k -> Forall itemset lines ->
  occurrences (join items) (combination_keys k lines) = support items lines.
Proof.
  intros Hi Hlen. unfold combination_keys.
  induction 1 as [|line lines Hl _ IH]; [done|].
  simpl flat_map. rewrite map_app, occurrences_app, support_cons.
  by rewrite IH, (occurrences_line k items line).
Qed.

(** A key that occurs is the key of an itemset of size [k] in some line. *)
Lemma combination_keys_itemset (k : nat) (lines : list (list string)) (key : string) :
  Forall itemset lines -> key ∈ combination_keys k lines ->
  exists items, key = join items /\ itemset items /\ length items = k.
Proof.
  intros Hl. unfold combination_keys.
  intros [c [-> Hc]]%list_elem_of_fmap.
  apply elem_of_flat_map in Hc as (line & Hline & Hc).
  apply elem_of_combinations in Hc as [Hsub Hlen].
  exists c. split_and!; [done| |done].
  rewrite Forall_forall in Hl. by apply (itemset_sublist c line Hsub), Hl.
Qed.

(** ** The counting loops *)

Lemma for_each_map {A B S} (body : S -> B -> result S) (f : A -> B) xs acc :
  for_each (fun acc x => body acc (f x)) xs acc = for_each body (map f xs) acc.
Proof.
  revert acc. induction xs as [|x xs IH]; intros acc; simpl; [done|].
  destruct (body acc (f x)); simpl; [apply IH|done].
Qed.

Lemma count_level_keys k lines table :
  count_level k lines table = for_each count_key (combination_keys k lines) table.
Proof.
  unfold count_level, combination_keys.
  rewrite (for_each_nested (fun table combination => count_key table (join combination))
             (fun line => combinations line k)).
  apply for_each_map.
Qed.

Lemma contains_false d k : contains d k = false <-> dict_get d k = None.
Proof. unfold contains. destruct (dict_get d k); split; congruence. Qed.

Lemma contains_Some d k v : dict_get d k = Some v -> contains d k = true.
Proof. unfold contains. by intros ->. Qed.

Lemma str_eqb_decide (a b : string) : String.eqb a b = bool_decide (a = b).
Proof.
  destruct (String.eqb_spec a b).
  - by rewrite bool_decide_eq_true_2.
  - by rewrite bool_decide_eq_false_2.
Qed.

Lemma count_key_Some table key v :
  dict_get table key = Some v -> count_key table key = Ok (setitem table key (v + 1)).
Proof.
  intros H. unfold count_key, incr, getitem. by rewrite (contains_Some table key v H), H.
Qed.

Lemma count_key_None table key :
  dict_get table key = None -> count_key table key = Ok table.
Proof. intros H. unfold count_key. by rewrite (proj2 (contains_false table key) H). Qed.

(** The loop [if key in table: table[key] += 1] over a list of keys does
    not raise, keeps the keys of the table, and adds to every count the
    number of times its key occurs. *)
Lemma count_key_loop (ks : list string) (table : dict) :
  exists counted,
    for_each count_key ks table = Ok counted /\
    keys counted = keys table /\
    (forall key,
        dict_get counted key = (fun v => v + occurrences key ks) <$> dict_get table key).
Proof.
  revert table. induction ks as [|k0 ks IH]; intros table.
  - exists table. split_and!; [done..|].
    intros key. destruct (dict_get table key); simpl; [|done].
    by rewrite occurrences_nil, Z.add_0_r.
  - rewrite for_each_cons.
    destruct (dict_get table k0) as [v|] eqn:Hk0.
    + rewrite (count_key_Some table k0 v Hk0). simpl.
      destruct (IH (setitem table k0 (v + 1))) as (c & E & Hkeys & Hget).
      exists c. split_and!; [done| |].
      * by rewrite Hkeys, keys_setitem, (contains_Some table k0 v Hk0).
      * intros key. rewrite Hget, dict_get_setitem, occurrences_cons, str_eqb_decide.
        destruct (decide (k0 = key)) as [->|Hne].
        -- rewrite bool_decide_eq_true_2, Hk0 by done. simpl. f_equal. lia.
        -- rewrite bool_decide_eq_false_2 by done. by destruct (dict_get table key).
    + rewrite (count_key_None table k0 Hk0). simpl.
      destruct (IH table) as (c & E & Hkeys & Hget).
      exists c. split_and!; [done..|].
      intros key. rewrite Hget, occurrences_cons.
      destruct (decide (k0 = key)) as [->|Hne]; [by rewrite Hk0|].
      by destruct (dict_get table key).
Qed.

(** The loop of the singles does not raise and counts the occurrences of
    every item, creating its entry at the first one. *)
Lemma count_item_loop (ks : list string) (table : dict) :
  exists counted,
    for_each count_item ks table = Ok counted /\
    (NoDup (keys table) -> NoDup (keys counted)) /\
    (forall key,
        dict_get counted key
        = match dict_get table key with
          | Some v => Some (v + occurrences key ks)
          | None => if decide (key ∈ ks) then Some (occurrences key ks) else None
          end).
Proof.
  revert table. induction ks as [|k0 ks IH]; intros table.
  - exists table. split_and!; [done..|].
    intros key. destruct (dict_get table key); simpl.
    + by rewrite occurrences_nil, Z.add_0_r.
    + destruct (decide (key ∈ [])) as [H|]; [by apply elem_of_nil in H|done].
  - rewrite for_each_cons.
    assert (count_item table k0
            = incr (if negb (contains table k0) then setitem table k0 0 else table) k0)
      as -> by done.
    set (table0 := if negb (contains table k0) then setitem table k0 0 else table).
    set (v0 := default 0 (dict_get table k0)).
    assert (dict_get table0 k0 = Some v0) as Hv0.
    { unfold table0, v0. destruct (dict_get table k0) as [v|] eqn:Hk0.
      - by rewrite (contains_Some table k0 v Hk0).
      - rewrite (proj2 (contains_false table k0) Hk0). simpl.
        by rewrite dict_get_setitem, String.eqb_refl. }
    assert (forall key, key <> k0 -> dict_get table0 key = dict_get table key) as Hother.
    { intros key Hne. unfold table0. destruct (contains table k0); simpl; [done|].
      rewrite dict_get_setitem. destruct (String.eqb_spec k0 key); congruence. }
    assert (NoDup (keys table) -> NoDup (keys table0)) as Hnd0.
    { unfold table0. destruct (contains table k0); simpl; [done|].
      apply NoDup_keys_setitem. }
    unfold incr, getitem. rewrite Hv0. simpl.
    destruct (IH (setitem table0 k0 (v0 + 1))) as (c & E & Hnd & Hget).
    exists c. split_and!; [done| |].
    + intros H. by apply Hnd, NoDup_keys_setitem, Hnd0.
    + intros key. rewrite Hget, dict_get_setitem, occurrences_cons.
      destruct (String.eqb_spec k0 key) as [->|Hne].
      * rewrite (decide_True (P := key = key)) by done. unfold v0.
        destruct (dict_get table key); simpl.
        -- f_equal; lia.
        -- rewrite decide_True by apply list_elem_of_here. f_equal; lia.
      * rewrite (decide_False (P := k0 = key)) by done. rewrite Hother by done.
        destruct (dict_get table key); [done|].
        destruct (decide (key ∈ ks)) as [Hin|Hn].
        -- rewrite decide_True; [done|]. by apply list_elem_of_further.
        -- rewrite decide_False; [done|]. rewrite not_elem_of_cons. by split.
Qed.

Lemma count_singles_items lines :
  count_singles lines = for_each count_item (flat_map (fun line => line) lines) [].
Proof.
  unfold count_singles.
  apply (for_each_nested count_item (fun line : list string => line)).
Qed.

(** An item occurs in the lines as often as lines contain it. *)
Lemma occurrences_item (lines : list (list string)) (x : string) :
  Forall itemset lines ->
  occurrences x (flat_map (fun line => line) lines) = support [x] lines.
Proof.
  induction 1 as [|line lines Hl _ IH]; [done|].
  simpl flat_map. rewrite occurrences_app, support_cons, IH.
  rewrite (occurrences_NoDup x line (itemset_NoDup line Hl)).
  destruct (decide (x ∈ line)) as [Hin|Hn].
  - rewrite decide_True; [done|]. by intros y ->%list_elem_of_singleton.
  - rewrite decide_False; [done|]. intros H. apply Hn, H, list_elem_of_here.
Qed.

(** ** The levels of the mining pipeline *)

Lemma for_each_preserves {A S} (I : S -> Prop) (body : S -> A -> result S) xs acc acc' :
  (forall acc x acc', body acc x = Ok acc' -> I acc -> I acc') ->
  for_each body xs acc = Ok acc' -> I acc -> I acc'.
Proof.
  intros Hstep. revert acc. induction xs as [|x xs IH]; intros acc; simpl.
  - by intros [= <-].
  - intros (acc1 & H1 & H2)%bind_Ok Hacc. apply (IH acc1 H2). by eapply Hstep.
Qed.

Lemma join_pair_Ok outer_items inner_items candidates candidates' :
  join_pair outer_items inner_items candidates = Ok candidates' ->
  candidates' = candidates \/ exists key, candidates' = setitem candidates key 0.
Proof.
  unfold join_pair. destruct (_ =? _); [|intros [= <-]; by left].
  intros (last & _ & [= <-])%bind_Ok. right. by eexists.
Qed.

Lemma join_all_cons key rest candidates :
  join_all (key :: rest) candidates
  = candidates' ← for_each (fun candidates inner_key =>
                              join_pair (split key) (split inner_key) candidates)
                           (key :: rest) candidates;
    join_all rest candidates'.
Proof. reflexivity. Qed.

(** The table that [make_candidates] returns has no key twice. *)
Lemma make_candidates_NoDup prev_frequents candidates :
  make_candidates prev_frequents = Ok candidates -> NoDup (keys candidates).
Proof.
  rewrite make_candidates_join_all.
  generalize (sort_by String.ltb (keys prev_frequents)). intros rest.
  assert (NoDup (keys ([] : dict))) as Hnil by apply NoDup_nil_2.
  revert Hnil. generalize ([] : dict). induction rest as [|key rest IH]; intros c Hc.
  - by intros [= <-].
  - rewrite join_all_cons. intros (c1 & H1 & H2)%bind_Ok. apply (IH c1); [|done].
    apply (for_each_preserves
             (fun d : dict => NoDup (keys d))
             (fun candidates inner_key =>
                join_pair (split key) (split inner_key) candidates)
             (key :: rest) c c1); [|exact H1|exact Hc].
    intros acc x acc' [->|[K ->]]%join_pair_Ok Hacc; [done|].
    by apply NoDup_keys_setitem.
Qed.

Lemma py_index_elem_of {A} (l : list A) (i : Z) (x : A) :
  py_index l i = Ok x -> x ∈ l.
Proof.
  unfold py_index. destruct (_ <? 0); [done|].
  destruct (l !! _) as [y|] eqn:Hy; [|done].
  intros [= <-]. by eapply list_elem_of_lookup_2.
Qed.

Lemma join_pair_key outer_items inner_items candidates candidates' :
  join_pair outer_items inner_items candidates = Ok candidates' ->
  candidates' = candidates \/
  exists last, last ∈ inner_items /\
    candidates' = setitem candidates (join (outer_items ++ [last])) 0.
Proof.
  unfold join_pair. destruct (_ =? _); [|intros [= <-]; by left].
  intros (last & Hlast%py_index_elem_of & [= <-])%bind_Ok. right. by exists last.
Qed.

(** What holds of the candidates: every key is made of [k + 1] items, the
    [k] items of a key of the table and one more, and no key stands twice
    in the table. *)
Lemma make_candidates_shape (prev_frequents : dict) (k : nat) candidates :
  level_table k prev_frequents ->
  make_candidates prev_frequents = Ok candidates ->
  NoDup (keys candidates) /\
  (forall key, key ∈ keys candidates ->
     Forall token (split key) /\ length (split key) = (k + 1)%nat /\
     join (split key) = key).
Proof.
  intros Hd Hc. split; [by apply (make_candidates_NoDup prev_frequents)|].
  rewrite make_candidates_join_all in Hc.
  assert (forall key, key ∈ sort_by String.ltb (keys prev_frequents) ->
            length (split key) = k) as Hlen.
  { intros key Hkey. apply (proj1 (elem_of_sort_by _ _ _)) in Hkey.
    by apply (level_table_split k prev_frequents). }
  set (I := fun c : dict =>
              forall key, key ∈ keys c ->
                Forall token (split key) /\ length (split key) = (k + 1)%nat /\
                join (split key) = key).
  assert (I []) as Hnil by (by intros key ?%elem_of_nil).
  revert Hc Hnil Hlen. generalize (sort_by String.ltb (keys prev_frequents)).
  generalize ([] : dict). intros c rest. revert c.
  induction rest as [|okey rest IH]; intros c Hc Hi Hlen.
  - by injection Hc as <-.
  - rewrite join_all_cons in Hc. apply bind_Ok in Hc as (c1 & H1 & H2).
    apply (IH c1 H2).
    + apply (for_each_preserves I
               (fun candidates inner_key =>
                  join_pair (split okey) (split inner_key) candidates)
               (okey :: rest) c c1); [|exact H1|exact Hi].
      intros acc ik acc' [->|(last & Hlast & ->)]%join_pair_key Hacc; [done|].
      intros key [->|Hkey]%elem_of_keys_setitem; [|by apply Hacc].
      assert (Forall token (split okey ++ [last])) as Htok.
      { apply Forall_app. split; [apply split_tokens|].
        apply Forall_singleton. pose proof (split_tokens ik) as Ht.
        rewrite Forall_forall in Ht. by apply Ht. }
      rewrite (split_join _ Htok). split_and!; [done| |done].
      rewrite length_app, (Hlen okey) by apply list_elem_of_here. done.
    + intros key Hkey. by apply Hlen, list_elem_of_further.
Qed.

Lemma frequent_table_level k lines table :
  frequent_table k lines table -> level_table k table.
Proof.
  intros (_ & Hsound & _) key [c Hc]%dict_get_is_Some.
  destruct (Hsound key c Hc) as (items & -> & Hi & Hlen & _). by exists items.
Qed.

Lemma elem_of_lines_token lines line x :
  Forall itemset lines -> line ∈ lines -> x ∈ line -> token x.
Proof.
  rewrite Forall_forall. intros Hl Hline Hx.
  destruct (Hl line Hline) as [Htok _]. rewrite Forall_forall in Htok. by apply Htok.
Qed.

(** Level 1: counting the items and pruning gives the frequent singles. *)
Lemma singles_level lines :
  Forall itemset lines ->
  exists counted singles,
    count_singles lines = Ok counted /\
    prune counted = Ok singles /\
    frequent_table 1 lines singles.
Proof.
  intros Hl. rewrite count_singles_items.
  destruct (count_item_loop (flat_map (fun line => line) lines) [])
    as (counted & E & Hnd & Hget).
  specialize (Hnd (NoDup_nil_2)).
  destruct (prune_get counted Hnd) as (singles & Ep & Hnd' & Hp).
  exists counted, singles. unfold frequent_table. split_and!; [done..| |].
  - intros key c Hc. apply Hp in Hc as [Hc Hfreq]. rewrite Hget in Hc. simpl in Hc.
    destruct (decide (key ∈ flat_map (fun line => line) lines)) as [Hin|]; [|done].
    injection Hc as <-.
    apply elem_of_flat_map in Hin as (line & Hline & Hx).
    exists [key]. split_and!; [done| |done| |done].
    + by apply itemset_singleton, (elem_of_lines_token lines line).
    + by apply occurrences_item.
  - intros items Hi Hlen Hfreq.
    destruct items as [|x [|y items]]; simpl in Hlen; try lia.
    change (join [x]) with x. apply Hp. split; [|done].
    rewrite Hget. simpl.
    destruct (support_pos [x] lines) as (line & Hline & Hsub).
    { unfold FREQ_THRES in Hfreq. lia. }
    rewrite decide_True.
    + by rewrite occurrences_item.
    + apply elem_of_flat_map. exists line. split; [done|]. apply Hsub, list_elem_of_here.
Qed.

(** From level [k] to level [k + 1]: the candidates made of the frequent
    itemsets of size [k], counted over the lines and pruned, are the
    frequent itemsets of size [k + 1]. *)
Lemma next_level (k : nat) lines table :
  (1 <= k)%nat -> Forall itemset lines -> frequent_table k lines table ->
  exists candidates counted table',
    make_candidates table = Ok candidates /\
    zeroed candidates /\
    count_level (S k) lines candidates = Ok counted /\
    prune counted = Ok table' /\
    frequent_table (S k) lines table'.
Proof.
  intros Hk Hl Ht. pose proof (frequent_table_level k lines table Ht) as Hlevel.
  destruct (make_candidates_spec table k Hk Hlevel) as (cands & Ec & Hz & Hhit).
  pose proof (make_candidates_NoDup table cands Ec) as Hndc.
  destruct (count_key_loop (combination_keys (S k) lines) cands)
    as (counted & En & Hkeys & Hget).
  assert (NoDup (keys counted)) as Hndn by by rewrite Hkeys.
  destruct (prune_get counted Hndn) as (table' & Ep & Hnd' & Hp).
  exists cands, counted, table'. rewrite count_level_keys.
  unfold frequent_table. split_and!; [done..| |].
  - intros key c Hc. apply Hp in Hc as [Hc Hfreq]. rewrite Hget in Hc.
    destruct (dict_get cands key) as [v|] eqn:Hv; [|done].
    rewrite (Hz key v Hv) in Hc. simpl in Hc. injection Hc as <-.
    destruct (combination_keys_itemset (S k) lines key Hl) as (items & -> & Hi & Hlen).
    { apply occurrences_pos. unfold FREQ_THRES in Hfreq. lia. }
    exists items. split_and!; [done..| |done].
    by apply occurrences_support.
  - intros items Hi Hlen Hfreq.
    assert (forall T, sublist T items -> length T = k -> join T ∈ keys table) as Hsub.
    { intros T HT HlenT. apply dict_get_is_Some.
      destruct Ht as (_ & _ & Hcomplete). eexists. apply Hcomplete; [|done|].
      - by apply (itemset_sublist T items).
      - etrans; [exact Hfreq|]. by apply support_anti, sublist_subseteq. }
    destruct (itemset_last_two items Hi) as (p & a & b & E & Hab & Ha & Hb & Hla & Hlb);
      [lia|].
    assert (dict_get cands (join items) = Some 0) as Hc'.
    { rewrite E. apply Hhit; [| |rewrite <- E; apply Hi|done]; apply Hsub; (done || lia). }
    apply Hp. rewrite Hget, Hc'. simpl.
    rewrite (occurrences_support (S k) items lines) by done. done.
Qed.

(** The rules of level [n]: with the frequent tables of the levels below as
    [args], [make_rules] does not raise and returns mined rules. *)
Lemma make_rules_levels (n : nat) lines top_level args :
  Forall itemset lines ->
  frequent_table n lines top_level ->
  (forall i, (1 <= i < n)%nat ->
     exists level, args !! (i - 1)%nat = Some level /\ frequent_table i lines level) ->
  exists rules,
    make_rules top_level args = Ok rules /\
    (forall rule, rule ∈ rules -> mined_rule lines args n rule).
Proof.
  intros Hl (Hnd & Hsound & _) Hargs.
  assert (forall itemset combination,
            (itemset, combination) ∈ splits top_level ->
            exists rule,
              make_rule top_level args itemset (split itemset) combination = Ok rule /\
              mined_rule lines args n rule) as Hsplit.
  { intros key c (Hkey & Hsub & Hlen)%elem_of_splits.
    apply dict_get_is_Some in Hkey as [count Hcount].
    destruct (Hsound key count Hcount) as (items & -> & Hi & Hn & -> & Hfreq).
    rewrite (split_join items) in * by apply Hi.
    destruct (Hargs (length c)) as (level & Hlevel & (_ & _ & Hcomplete)); [lia|].
    pose proof (itemset_sublist c items Hsub Hi) as Hc.
    pose proof (support_anti items c lines (sublist_subseteq _ _ Hsub)) as Hanti.
    assert (dict_get level (join c) = Some (support c lines)) as Hleft.
    { apply Hcomplete; [done|done|lia]. }
    assert (py_index args (Z.of_nat (length c) - 1) = Ok level) as Hindex.
    { replace (Z.of_nat (length c) - 1) with (Z.of_nat (length c - 1)) by lia.
      by rewrite py_index_nat, Hlevel. }
    eexists. split.
    - apply make_rule_Ok. by exists (support items lines), level, (support c lines).
    - exists items, level. simpl. split_and!; try done; lia. }
  assert (exists rules,
             Forall2 (fun p rule =>
                        make_rule top_level args p.1 (split p.1) p.2 = Ok rule)
                     (splits top_level) rules) as [rules Hrules].
  { apply Forall_exists_Forall2_l, Forall_forall. intros [key c] Hin.
    destruct (Hsplit key c Hin) as (rule & Hrule & _). by exists rule. }
  exists rules. split; [by apply make_rules_Forall2|].
  intros rule Hin.
  destruct (Forall2_elem_of_r _ _ _ _ Hrules Hin) as ([key c] & Hp & Hrule).
  destruct (Hsplit key c Hp) as (rule' & Hrule' & Hmined).
  simpl in Hrule. rewrite Hrule in Hrule'. by injection Hrule' as <-.
Qed.

Lemma mined_rule_valid lines args n rule : mined_rule lines args n rule -> Rule.valid rule.
Proof.
  intros (items & level & _ & _ & _ & _ & _ & _ & _ & Hfreq & Hle & _).
  unfold Rule.valid, FREQ_THRES, FLOAT_OVERFLOW in *. lia.
Qed.

(** The whole pipeline, on lines that are sorted and duplicate-free: it does
    not raise, its tables are the frequent itemsets of sizes 1, 2 and 3 and
    its rules are mined rules. *)
Lemma mine_spec fl lines :
  Forall itemset lines ->
  exists rep,
    mine fl lines = Ok rep /\
    frequent_table 1 lines (singles rep) /\
    frequent_table 2 lines (pairs rep) /\
    frequent_table 3 lines (triples rep) /\
    (forall rule, rule ∈ pair_rules rep -> mined_rule lines [singles rep] 2 rule) /\
    (forall rule, rule ∈ triple_rules rep ->
       mined_rule lines [singles rep; pairs rep] 3 rule).
Proof.
  intros Hl. unfold mine.
  destruct (singles_level lines Hl) as (s0 & s1 & E0 & Hs1 & Ht1).
  rewrite E0, ret_bind, Hs1, ret_bind.
  destruct (next_level 1 lines s1) as (c2 & n2 & p2 & Ec2 & _ & En2 & Hp2 & Ht2);
    [lia|done..|].
  rewrite Ec2, ret_bind, En2, ret_bind, Hp2, ret_bind.
  destruct (make_rules_levels 2 lines p2 [s1] Hl Ht2) as (r2 & Er2 & Hr2).
  { intros i Hi. exists s1. by replace i with 1%nat by lia. }
  assert (Forall Rule.valid r2) as Hv2.
  { apply Forall_forall. intros rule Hin. eapply mined_rule_valid, Hr2, Hin. }
  rewrite Er2, ret_bind, (sorted_rules_valid fl r2 true Hv2), ret_bind.
  destruct (next_level 2 lines p2) as (c3 & n3 & p3 & Ec3 & _ & En3 & Hp3 & Ht3);
    [lia|done..|].
  rewrite Ec3, ret_bind, En3, ret_bind, Hp3, ret_bind.
  destruct (make_rules_levels 3 lines p3 [s1; p2] Hl Ht3) as (r3 & Er3 & Hr3).
  { intros i Hi. assert (i = 1 \/ i = 2)%nat as [-> | ->] by lia; [by exists s1|by exists p2]. }
  assert (Forall Rule.valid r3) as Hv3.
  { apply Forall_forall. intros rule Hin. eapply mined_rule_valid, Hr3, Hin. }
  rewrite Er3, ret_bind, (sorted_rules_valid fl r3 true Hv3), ret_bind.
  eexists. split; [reflexivity|]. simpl. split_and!; [done..| |].
  - intros rule Hin. apply Hr2.
    by rewrite reverse_Permutation, sort_by_perm, reverse_Permutation in Hin.
  - intros rule Hin. apply Hr3.
    by rewrite reverse_Permutation, sort_by_perm, reverse_Permutation in Hin.
Qed.

(** ** The counting loops and the pipeline *)

(** C4, as the specification states it, fails: of the candidates that
    [make_candidates] returns for the frequent singles "a" and "b", the key
    "a a" keeps the count 0 in the counting loop of the pairs, although
    each of the 100 lines contains its items. *)
Lemma count_level_counterexample :
  let lines := replicate 100 ["a"; "b"] in
  let candidates := [("a a", 0); ("a b", 0); ("b b", 0)] in
  Forall itemset lines /\
  make_candidates [("a", 100); ("b", 100)] = Ok candidates /\
  count_level 2 lines candidates = Ok [("a a", 0); ("a b", 100); ("b b", 0)] /\
  split "a a" = ["a"; "a"] /\
  support ["a"; "a"] lines = 100 /\
  ~ (forall counted key count,
        count_level 2 lines candidates = Ok counted ->
        dict_get counted key = Some count ->
        count = support (split key) lines).
Proof.
  intros lines candidates.
  assert (Forall itemset lines) as Hl by (apply Forall_replicate; solve_itemset).
  assert (count_level 2 lines candidates = Ok [("a a", 0); ("a b", 100); ("b b", 0)])
    as E by (vm_compute; reflexivity).
  assert (support ["a"; "a"] lines = 100) as Hs by (vm_compute; reflexivity).
  refine (conj Hl (conj _ (conj E (conj _ (conj Hs _))))).
  { vm_compute. reflexivity. }
  { vm_compute. reflexivity. }
  intros H. specialize (H _ "a a" 0 E eq_refl).
  change (split "a a") with ["a"; "a"] in H. rewrite Hs in H. lia.
Qed.

(** C4, amended.  The counting loop of level [k] (the source has it for
    k = 2 and k = 3), run over sorted duplicate-free lines, does not raise
    and keeps the keys of the candidate table; the count of a candidate
    that is the key of [k] distinct items in ascending order grows by the
    number of lines that contain the items, so from 0 it becomes that
    number; every count grows by the number of combinations that have its
    key, so combinations that are not keys of the table change nothing, and
    no key is added.  (The loop reads the lines only.) *)
Theorem count_level_support (k : nat) (lines : list (list string)) (table : dict) :
  Forall itemset lines ->
  exists counted,
    count_level k lines table = Ok counted /\
    keys counted = keys table /\
    (forall items,
        itemset items -> length items = k ->
        dict_get table (join items) = Some 0 ->
        dict_get counted (join items) = Some (support items lines)) /\
    (forall items count,
        itemset items -> length items = k ->
        dict_get table (join items) = Some count ->
        dict_get counted (join items) = Some (count + support items lines)) /\
    (forall key,
        dict_get counted key
        = (fun count => count + occurrences key (combination_keys k lines))
            <$> dict_get table key).
Proof.
  intros Hl. rewrite count_level_keys.
  destruct (count_key_loop (combination_keys k lines) table) as (counted & E & Hkeys & Hget).
  exists counted. split_and!; [done..| | |done].
  - intros items Hi Hlen H0. rewrite Hget, H0. simpl.
    by rewrite (occurrences_support k items lines).
  - intros items count Hi Hlen Hc. rewrite Hget, Hc. simpl.
    by rewrite (occurrences_support k items lines).
Qed.

Lemma count_level_support_witness :
  let lines := [["a"; "b"]; ["a"; "b"; "c"]; ["a"; "c"]; ["b"; "c"]] in
  let table := [("a b", 0); ("a c", 0); ("b c", 0)] in
  Forall itemset lines /\
  exists counted,
    count_level 2 lines table = Ok counted /\
    keys counted = keys table /\
    dict_get counted (join ["a"; "b"]) = Some (support ["a"; "b"] lines).
Proof.
  intros lines table.
  assert (Forall itemset lines) as Hl by solve_Forall ltac:(solve_itemset).
  split; [exact Hl|].
  destruct (count_level_support 2 lines table Hl) as (counted & E & Hkeys & H0 & _).
  exists counted. split_and!; [done..|].
  apply H0; [solve_itemset|done|done].
Defined.

(** C5. In the pipeline over sorted duplicate-free lines nothing raises,
    and every look-up of the frequency of a left side finds its key: for a
    pair rule in the frequent singles, for a triple rule in the table of
    the size of its left side (singles, pairs); the value found is the
    left_freq of the rule and is at least FREQ_THRES, which is positive, so
    the confidence of the rule is defined. *)
Theorem antecedent_lookup_succeeds (fl : Qc -> Qc) (lines : list (list string)) :
  Forall itemset lines ->
  exists rep,
    mine fl lines = Ok rep /\
    0 < FREQ_THRES /\
    (forall rule, rule ∈ pair_rules rep ->
       getitem (singles rep) (join (Rule.left rule)) = Ok (Rule.left_freq rule) /\
       FREQ_THRES <= Rule.left_freq rule /\
       Rule.confidence fl rule = Ok (fl (Rule.ratio rule))) /\
    (forall rule, rule ∈ triple_rules rep ->
       exists level,
         py_index [singles rep; pairs rep] (Z.of_nat (length (Rule.left rule)) - 1)
         = Ok level /\
         getitem level (join (Rule.left rule)) = Ok (Rule.left_freq rule) /\
         FREQ_THRES <= Rule.left_freq rule /\
         Rule.confidence fl rule = Ok (fl (Rule.ratio rule))).
Proof.
  intros Hl. destruct (mine_spec fl lines Hl) as (rep & E & _ & _ & _ & H2 & H3).
  exists rep. split_and!; [done|done| |].
  - intros rule Hin. pose proof (mined_rule_valid _ _ _ _ (H2 rule Hin)) as Hv.
    destruct (H2 rule Hin)
      as (items & level & _ & _ & _ & Hlen & _ & _ & _ & Hfreq & Hle & Hindex & Hget).
    replace (length (Rule.left rule)) with 1%nat in Hindex by lia.
    injection Hindex as <-.
    split_and!; [by apply getitem_Ok|lia|by apply confidence_valid].
  - intros rule Hin. pose proof (mined_rule_valid _ _ _ _ (H3 rule Hin)) as Hv.
    destruct (H3 rule Hin)
      as (items & level & _ & _ & _ & Hlen & _ & _ & _ & Hfreq & Hle & Hindex & Hget).
    exists level.
    split_and!; [done|by apply getitem_Ok|lia|by apply confidence_valid].
Qed.

Lemma antecedent_lookup_succeeds_witness :
  let lines := replicate 100 ["a"; "b"; "c"] in
  Forall itemset lines /\
  exists rep, mine (fun q => q) lines = Ok rep /\ 0 < FREQ_THRES.
Proof.
  intros lines.
  assert (Forall itemset lines) as Hl by (apply Forall_replicate; solve_itemset).
  split; [exact Hl|].
  destruct (antecedent_lookup_succeeds (fun q => q) lines Hl) as (rep & E & Hpos & _).
  exists rep. split; [exact E|exact Hpos].
Defined.

Lemma ratio_Qeq (r : Rule.t) :
  (Rule.ratio r == inject_Z (Rule.all_freq r) / inject_Z (Rule.left_freq r))%Q.
Proof.
  unfold Rule.ratio, Qcdiv, Qcmult, Qcinv, Q2Qc. simpl.
  rewrite !Qred_correct. reflexivity.
Qed.

Lemma ratio_bounds (r : Rule.t) :
  0 < Rule.all_freq r <= Rule.left_freq r ->
  (0 < Rule.ratio r)%Qc /\ (Rule.ratio r <= 1)%Qc.
Proof.
  intros [Ha Hb]. unfold Qclt, Qcle. rewrite ratio_Qeq.
  assert (0 < inject_Z (Rule.left_freq r))%Q as Hpos.
  { unfold Qlt. simpl. lia. }
  split.
  - apply Qlt_shift_div_l; [done|]. unfold Qlt. simpl. lia.
  - apply Qle_shift_div_r; [done|]. unfold Qle. simpl. lia.
Qed.

(** C6. Every rule of the pipeline over sorted duplicate-free lines, pair
    rule or triple rule, has 0 < all_freq <= left_freq, so the quotient
    all_freq / left_freq is greater than 0 and at most 1. *)
Theorem confidence_bounds (fl : Qc -> Qc) (lines : list (list string)) :
  Forall itemset lines ->
  exists rep,
    mine fl lines = Ok rep /\
    forall rule, rule ∈ pair_rules rep ++ triple_rules rep ->
      0 < Rule.all_freq rule /\ Rule.all_freq rule <= Rule.left_freq rule /\
      (0 < Rule.ratio rule)%Qc /\ (Rule.ratio rule <= 1)%Qc.
Proof.
  intros Hl. destruct (mine_spec fl lines Hl) as (rep & E & _ & _ & _ & H2 & H3).
  exists rep. split; [done|]. intros rule Hin.
  assert (exists args n, mined_rule lines args n rule) as (args & n & Hm).
  { apply elem_of_app in Hin as [Hin|Hin]; [by eauto using H2|by eauto using H3]. }
  destruct Hm as (items & level & _ & _ & _ & _ & _ & _ & _ & Hfreq & Hle & _).
  assert (0 < Rule.all_freq rule <= Rule.left_freq rule) as Hb
    by (unfold FREQ_THRES in Hfreq; lia).
  destruct (ratio_bounds rule Hb). split_and!; [lia|lia|done|done].
Qed.

Lemma confidence_bounds_witness :
  let lines := replicate 100 ["a"; "b"; "c"] in
  Forall itemset lines /\
  exists rep,
    mine (fun q => q) lines = Ok rep /\
    forall rule, rule ∈ pair_rules rep ++ triple_rules rep ->
      0 < Rule.all_freq rule /\ Rule.all_freq rule <= Rule.left_freq rule /\
      (0 < Rule.ratio rule)%Qc /\ (Rule.ratio rule <= 1)%Qc.
Proof.
  intros lines.
  assert (Forall itemset lines) as Hl by (apply Forall_replicate; solve_itemset).
  split; [exact Hl|]. exact (confidence_bounds (fun q => q) lines Hl).
Defined.

(** ** Reading the lines *)

Lemma map_each_pure {A B} (f : A -> result B) (g : A -> B) xs :
  (forall x, f x = Ok (g x)) -> map_each f xs = Ok (map g xs).
Proof.
  intros Hf. induction xs as [|x xs IH]; simpl; [done|].
  by rewrite Hf, ret_bind, IH.
Qed.

Lemma read_lines_sorted raw :
  read_lines raw = Ok (map (fun line => sort_by String.ltb (split (strip line))) raw).
Proof. apply map_each_pure. intros line. apply sorted_str. Qed.

(** A sorted list without duplicates is strictly increasing. *)
Lemma sort_by_str_strict l :
  NoDup (sort_by String.ltb l) -> StronglySorted str_lt (sort_by String.ltb l).
Proof.
  pose proof (sort_by_sorted String.ltb str_ltb_asym l) as Hs.
  apply (@Sorted_StronglySorted _ _ not_after_str_trans) in Hs.
  induction Hs as [|x s Hs IH Hx]; intros Hnd; [constructor|].
  apply NoDup_cons in Hnd as [Hnx Hnd]. constructor; [by apply IH|].
  rewrite Forall_forall in *. intros y Hy.
  destruct (str_trichotomy x y) as [H|[->|H]]; [done|done|].
  by apply not_after_str in H; [|apply Hx].
Qed.

(** The lines that the program reads are lists of tokens in ascending
    order; those without a repeated item are itemsets. *)
Lemma read_lines_itemsets raw lines :
  read_lines raw = Ok lines -> Forall NoDup lines -> Forall itemset lines.
Proof.
  rewrite read_lines_sorted. intros [= <-].
  rewrite !Forall_forall. intros Hnd line Hline.
  pose proof (Hnd line Hline) as Hl.
  apply list_elem_of_fmap in Hline as (r & -> & _).
  split; [|by apply sort_by_str_strict].
  rewrite sort_by_perm. apply split_tokens.
Qed.

(** From the text of the file to the report, when no line repeats an item. *)
Lemma main_total fl raw :
  Forall (fun line => NoDup (split (strip line))) raw ->
  exists lines rep,
    read_lines raw = Ok lines /\ Forall itemset lines /\ main fl raw = Ok rep.
Proof.
  intros Hnd. unfold main. rewrite read_lines_sorted, ret_bind.
  assert (Forall itemset (map (fun line => sort_by String.ltb (split (strip line))) raw))
    as Hl.
  { apply (read_lines_itemsets raw); [apply read_lines_sorted|].
    rewrite Forall_forall in Hnd. apply Forall_forall.
    intros line (r & -> & Hr)%list_elem_of_fmap.
    rewrite sort_by_perm. by apply Hnd. }
  destruct (mine_spec fl _ Hl) as (rep & E & _). by eauto.
Qed.

(** * Part III: further properties of the code *)

(** ** class Rule: errors, [<=], and the ranked list *)

#[global] Instance exn_eq_dec : EqDecision exn.
Proof. solve_decision. Defined.

#[global] Instance result_eq_dec {A} `{!EqDecision A} : EqDecision (result A).
Proof. solve_decision. Defined.

(** What the division of [confidence] raises. *)
Lemma confidence_raises fl r e :
  Rule.confidence fl r = Raise e <->
  (e = ZeroDivisionError /\ Rule.left_freq r = 0) \/
  (e = OverflowError /\ Rule.left_freq r <> 0 /\
   FLOAT_OVERFLOW * Z.abs (Rule.left_freq r) <= Z.abs (Rule.all_freq r)).
Proof.
  unfold Rule.confidence.
  destruct (Z.eqb_spec (Rule.left_freq r) 0) as [H0|H0].
  - split; [intros [= <-]; by left|]. intros [[-> _]|(_ & H & _)]; done.
  - destruct (Z.leb_spec (FLOAT_OVERFLOW * Z.abs (Rule.left_freq r))
                         (Z.abs (Rule.all_freq r))) as [Hle|Hlt].
    + split; [intros [= <-]; by right|]. intros [[_ H]|(-> & _)]; done.
    + split; [done|]. intros [[_ H]|(_ & _ & H)]; [done|lia].
Qed.

(** [_cmp] divides for [self] first, then for [other]. *)
Lemma _cmp_raises fl a b e :
  Rule.confidence fl a = Raise e \/ (Rule.valid a /\ Rule.confidence fl b = Raise e) ->
  Rule._cmp fl a b = Raise e.
Proof.
  unfold Rule._cmp. intros [Ha|[Ha Hb]].
  - by rewrite Ha.
  - by rewrite (confidence_valid fl a Ha), Hb.
Qed.

(** X1. A comparison of two rules divides first for its left operand, then
    for its right operand.  The division raises ZeroDivisionError when
    left_freq is 0 and OverflowError when left_freq is not 0 and the
    magnitude of the quotient is at least [2 ^ 1024 - 2 ^ 970]; it raises
    nothing else.  What the first failing division raises is raised by
    [_cmp] and by each of [<], [<=] and [==]; when neither division fails,
    the four return a value, and [_cmp] returns -1, 0 or 1. *)
Theorem rule_compare_raises (fl : Qc -> Qc) (a b : Rule.t) (e : exn) :
  (Rule.confidence fl a = Raise e <->
   (e = ZeroDivisionError /\ Rule.left_freq a = 0) \/
   (e = OverflowError /\ Rule.left_freq a <> 0 /\
    FLOAT_OVERFLOW * Z.abs (Rule.left_freq a) <= Z.abs (Rule.all_freq a))) /\
  (Rule.confidence fl a = Raise e \/ (Rule.valid a /\ Rule.confidence fl b = Raise e) ->
   Rule._cmp fl a b = Raise e /\
   Rule.__lt__ fl a b = Raise e /\
   Rule.__le__ fl a b = Raise e /\
   Rule.__eq__ fl a b = Raise e) /\
  (Rule.valid a /\ Rule.valid b ->
   exists c : Z,
     (c = -1 \/ c = 0 \/ c = 1) /\
     Rule._cmp fl a b = Ok c /\
     Rule.__lt__ fl a b = Ok (c <? 0) /\
     Rule.__le__ fl a b = Ok (c <=? 0) /\
     Rule.__eq__ fl a b = Ok (c =? 0)).
Proof.
  split_and!.
  - apply confidence_raises.
  - intros H. apply _cmp_raises in H.
    unfold Rule.__lt__, Rule.__le__, Rule.__eq__. by rewrite H.
  - intros [Ha Hb]. exists (Rule.cmp_key fl a b).
    unfold Rule.__lt__, Rule.__le__, Rule.__eq__.
    rewrite (_cmp_valid fl a b Ha Hb). split_and!; [|done..].
    apply cmp_key_range.
Qed.

Lemma rule_compare_raises_witness :
  let a := Rule.__init__ ["a"] ["b"] 3 0 in
  let b := Rule.__init__ ["b"] ["a"] (10 ^ 400) 1 in
  let c := Rule.__init__ ["c"] ["a"] 3 4 in
  Rule.__lt__ (fun q => q) a b = Raise ZeroDivisionError /\
  Rule.__lt__ (fun q => q) b a = Raise OverflowError /\
  Rule.__eq__ (fun q => q) c b = Raise OverflowError /\
  exists r : Z, Rule._cmp (fun q => q) c c = Ok r.
Proof.
  intros a b c.
  assert (Rule.valid c) as Hc by rule_valid.
  split_and!.
  - apply (proj1 (proj2 (rule_compare_raises (fun q => q) a b ZeroDivisionError))).
    by left.
  - apply (proj1 (proj2 (rule_compare_raises (fun q => q) b a OverflowError))).
    by left.
  - apply (proj1 (proj2 (rule_compare_raises (fun q => q) c b OverflowError))).
    right. by split.
  - destruct (proj2 (proj2 (rule_compare_raises (fun q => q) c c ZeroDivisionError)))
      as (r & _ & E & _); [by split|by exists r].
Defined.

Lemma __le___valid fl a b :
  Rule.valid a -> Rule.valid b ->
  Rule.__le__ fl a b = Ok (Rule.cmp_key fl a b <=? 0).
Proof. intros Ha Hb. unfold Rule.__le__. by rewrite _cmp_valid. Qed.

(** X2. On rules whose confidence is defined, [a <= b] is "not [b < a]" and
    is "[a < b] or [a == b]"; it holds of every rule with itself, of any two
    rules in one direction at least, and it is transitive. *)
Theorem rule_le_spec (fl : Qc -> Qc) (a b c : Rule.t) :
  Rule.valid a -> Rule.valid b -> Rule.valid c ->
  (exists le_ab lt_ab lt_ba eq_ab : bool,
      Rule.__le__ fl a b = Ok le_ab /\ Rule.__lt__ fl a b = Ok lt_ab /\
      Rule.__lt__ fl b a = Ok lt_ba /\ Rule.__eq__ fl a b = Ok eq_ab /\
      le_ab = negb lt_ba /\ le_ab = lt_ab || eq_ab) /\
  Rule.__le__ fl a a = Ok true /\
  (Rule.__le__ fl a b = Ok true \/ Rule.__le__ fl b a = Ok true) /\
  (Rule.__le__ fl a b = Ok true -> Rule.__le__ fl b c = Ok true ->
   Rule.__le__ fl a c = Ok true).
Proof.
  intros Ha Hb Hc.
  rewrite !__le___valid, !__lt___valid, !__eq___valid by done.
  unfold Rule.ltb. rewrite (cmp_key_antisym fl a b).
  assert (Rule.cmp_key fl a a = 0) as Haa by by apply cmp_key_zero.
  split_and!.
  - eexists _, _, _, _. split_and!; [done..| |].
    + destruct (cmp_key_range fl a b) as [->|[->| ->]]; done.
    + destruct (cmp_key_range fl a b) as [->|[->| ->]]; done.
  - by rewrite Haa.
  - destruct (cmp_key_range fl a b) as [->|[->| ->]]; simpl; auto.
  - intros [= Hab] [= Hbc]. f_equal.
    apply Z.leb_le in Hab, Hbc. apply Z.leb_le.
    destruct (Z.le_gt_cases (Rule.cmp_key fl a c) 0) as [|Hgt]; [done|].
    exfalso.
    assert (Rule.below fl c a) as Hca.
    { apply cmp_key_below. rewrite (cmp_key_antisym fl a c).
      destruct (cmp_key_range fl a c) as [E|[E|E]]; rewrite E in *; lia. }
    apply (not_below_trans fl a b c); [| |done].
    + intros H%cmp_key_below. rewrite (cmp_key_antisym fl a b) in H. lia.
    + intros H%cmp_key_below. rewrite (cmp_key_antisym fl b c) in H. lia.
Qed.

Lemma rule_le_spec_witness :
  let a := Rule.__init__ ["a"] ["b"] 1 2 in
  let b := Rule.__init__ ["b"] ["a"] 1 3 in
  Rule.valid a /\ Rule.valid b /\ Rule.__le__ (fun q => q) a a = Ok true.
Proof.
  intros a b.
  assert (Rule.valid a) as Ha by rule_valid.
  assert (Rule.valid b) as Hb by rule_valid.
  split_and!; [done..|].
  exact (proj1 (proj2 (rule_le_spec (fun q => q) a b a Ha Hb Ha))).
Defined.

(** Where [insort_by] puts the new element: behind elements that are
    smaller only. *)
Lemma insort_by_split {A} (f : A -> A -> bool) (x : A) (l : list A) :
  exists l1 l2,
    l = l1 ++ l2 /\ insort_by f x l = l1 ++ x :: l2 /\
    (forall y, y ∈ l1 -> f y x = true).
Proof.
  induction l as [|y l (l1 & l2 & -> & E & H)]; simpl.
  - exists [], []. split_and!; [done..|]. by intros y ?%elem_of_nil.
  - destruct (f y x) eqn:Hyx.
    + exists (y :: l1), l2. rewrite E. split_and!; [done..|].
      intros z [->|Hz]%elem_of_cons; [done|by apply H].
    + exists [], (y :: l1 ++ l2). split_and!; [done..|]. by intros z ?%elem_of_nil.
Qed.

Lemma filter_none {A} (P : A -> Prop) `{!forall x, Decision (P x)} (l : list A) :
  (forall y, y ∈ l -> ~ P y) -> filter P l = [].
Proof.
  induction l as [|y l IH]; intros Hl; [done|].
  rewrite filter_cons_False by apply Hl, list_elem_of_here.
  apply IH. intros z Hz. by apply Hl, list_elem_of_further.
Qed.

(** The sort is stable: elements of a class no two of which are smaller
    than one another keep their order. *)
Lemma sort_by_stable {A} (f : A -> A -> bool) (P : A -> Prop)
    `{!forall x, Decision (P x)} (l : list A) :
  (forall y z, P y -> P z -> f y z = false) ->
  filter P (sort_by f l) = filter P l.
Proof.
  intros HP. induction l as [|x l IH]; simpl; [done|].
  destruct (insort_by_split f x (sort_by f l)) as (l1 & l2 & E & -> & Hl1).
  rewrite filter_app, !filter_cons, <- IH, E, filter_app.
  destruct (decide (P x)) as [Hx|Hx]; [|done].
  rewrite (filter_none P l1); [done|].
  intros y Hy HPy. specialize (HP y x HPy Hx). rewrite (Hl1 y Hy) in HP. done.
Qed.

Lemma sort_by_reverse_stable {A} (f : A -> A -> bool) (P : A -> Prop)
    `{!forall x, Decision (P x)} (l : list A) :
  (forall y z, P y -> P z -> f y z = false) ->
  filter P (reverse (sort_by f (reverse l))) = filter P l.
Proof.
  intros HP. rewrite filter_reverse, (sort_by_stable f P _ HP), filter_reverse.
  apply reverse_involutive.
Qed.

(** X3. [sorted(rules, reverse=True)] of rules whose confidence is defined
    does not raise and returns the same rules (a permutation) in
    non-increasing order of confidence: no rule stands before a rule of
    greater confidence, and none is [<] a later one. *)
Theorem ranked_descending (fl : Qc -> Qc) (rules : list Rule.t) :
  Forall Rule.valid rules ->
  exists ranked,
    sorted (Rule.__lt__ fl) rules true = Ok ranked /\
    ranked ≡ₚ rules /\
    (forall (i j : nat) (ri rj : Rule.t),
        ranked !! i = Some ri -> ranked !! j = Some rj -> (i < j)%nat ->
        (fl (Rule.ratio rj) <= fl (Rule.ratio ri))%Qc /\
        Rule.__lt__ fl ri rj = Ok false).
Proof.
  intros Hv. pose proof (sorted_rules_valid fl rules true Hv) as E.
  eexists. split; [exact E|].
  pose proof (sorted_rules_perm fl rules true _ E Hv) as Hperm.
  split; [done|]. intros i j ri rj Hi Hj Hij.
  pose proof (sorted_reverse_descending fl rules _ i j ri rj Hv E Hi Hj Hij) as Hnb.
  assert (Forall Rule.valid (reverse (sort_by (Rule.ltb fl) (reverse rules)))) as Hv'.
  { by rewrite Hperm. }
  rewrite Forall_forall in Hv'.
  split.
  - apply Qcnot_lt_le. intros Hlt. apply Hnb. by left.
  - rewrite __lt___valid by (eapply Hv', list_elem_of_lookup_2; eauto).
    f_equal. apply not_true_is_false. intros H. by apply Hnb, ltb_below.
Qed.

Lemma ranked_descending_witness :
  let rules := [Rule.__init__ ["b"] ["a"] 100 150; Rule.__init__ ["a"] ["b"] 100 120] in
  Forall Rule.valid rules /\
  exists ranked,
    sorted (Rule.__lt__ (fun q => q)) rules true = Ok ranked /\ ranked ≡ₚ rules.
Proof.
  intros rules.
  assert (Forall Rule.valid rules) as Hv
    by (solve_Forall ltac:(rule_valid)).
  split; [exact Hv|].
  destruct (ranked_descending (fun q => q) rules Hv) as (ranked & E & Hp & _).
  by exists ranked.
Defined.

(** X4. The ranking is stable: the rules that are [==] to a given rule,
    which the order cannot tell apart, stand in the ranked list in the
    order in which they stood in the list that was sorted. *)
Theorem ranked_stable (fl : Qc -> Qc) (rules : list Rule.t) (x : Rule.t) :
  Forall Rule.valid rules ->
  exists ranked,
    sorted (Rule.__lt__ fl) rules true = Ok ranked /\
    filter (fun r => Rule.__eq__ fl x r = Ok true) ranked
    = filter (fun r => Rule.__eq__ fl x r = Ok true) rules.
Proof.
  intros Hv. eexists. split; [by apply sorted_rules_valid|].
  apply sort_by_reverse_stable.
  intros y z Hy Hz.
  apply (proj1 (__eq___true fl x y)) in Hy as (_ & _ & E1 & S1).
  apply (proj1 (__eq___true fl x z)) in Hz as (_ & _ & E2 & S2).
  apply not_true_is_false. intros H. apply (proj1 (ltb_below fl y z)) in H as [H|[_ H]].
  - rewrite <- E1, <- E2 in H. by apply Qclt_not_eq in H.
  - rewrite <- S1, <- S2 in H. by apply str_lt_irrefl in H.
Qed.

Lemma ranked_stable_witness :
  let r1 := Rule.__init__ ["a"] ["b"] 100 150 in
  let r2 := Rule.__init__ ["a"] ["c"] 100 150 in
  let r3 := Rule.__init__ ["b"] ["a"] 100 120 in
  Forall Rule.valid [r1; r2; r3] /\
  exists ranked,
    sorted (Rule.__lt__ (fun q => q)) [r1; r2; r3] true = Ok ranked /\
    filter (fun r => Rule.__eq__ (fun q => q) r1 r = Ok true) ranked = [r1; r2].
Proof.
  intros r1 r2 r3.
  assert (Forall Rule.valid [r1; r2; r3]) as Hv
    by (solve_Forall ltac:(rule_valid)).
  split; [exact Hv|].
  destruct (ranked_stable (fun q => q) [r1; r2; r3] r1 Hv) as (ranked & E & Hf).
  exists ranked. split; [exact E|]. rewrite Hf. reflexivity.
Defined.

(** ** prune *)

Lemma filter_idempotent {A} (P : A -> Prop) `{!forall x, Decision (P x)} (l : list A) :
  filter P (filter P l) = filter P l.
Proof.
  induction l as [|x l IH]; [done|].
  rewrite filter_cons. destruct (decide (P x)) as [Hx|Hx]; [|done].
  by rewrite filter_cons_True, IH.
Qed.

(** X5. Pruning twice is pruning once: [prune] returns a table that
    [prune] returns unchanged; and when no count reaches FREQ_THRES the
    result is the empty table. *)
Theorem prune_idempotent (candidates : dict) :
  NoDup (keys candidates) ->
  exists pruned,
    prune candidates = Ok pruned /\
    prune pruned = Ok pruned /\
    ((forall key count, (key, count) ∈ candidates -> count < FREQ_THRES) ->
     pruned = []).
Proof.
  intros Hnd. exists (filter frequent candidates).
  split_and!; [by apply prune_filter| |].
  - rewrite prune_filter by by apply NoDup_keys_filter.
    by rewrite filter_idempotent.
  - intros Hlow. apply filter_none. intros [key count] Hin Hf.
    specialize (Hlow key count Hin). unfold frequent in Hf. simpl in Hf. lia.
Qed.

Lemma prune_idempotent_witness :
  let candidates := [("a", 100); ("b", 99); ("c", 101)] in
  NoDup (keys candidates) /\
  exists pruned, prune candidates = Ok pruned /\ prune pruned = Ok pruned.
Proof.
  intros candidates.
  assert (NoDup (keys candidates)) as Hnd by by_compute.
  split; [exact Hnd|].
  destruct (prune_idempotent candidates Hnd) as (pruned & E1 & E2 & _).
  by exists pruned.
Defined.

(** ** make_candidates *)

Lemma for_each_preserves_in {A S} (I : S -> Prop) (body : S -> A -> result S) xs acc acc' :
  (forall acc x acc', x ∈ xs -> body acc x = Ok acc' -> I acc -> I acc') ->
  for_each body xs acc = Ok acc' -> I acc -> I acc'.
Proof.
  revert acc. induction xs as [|x xs IH]; intros acc Hstep; simpl.
  - by intros [= <-].
  - intros (acc1 & H1 & H2)%bind_Ok Hacc. apply (IH acc1); [|done|].
    + intros a y a' Hy. apply Hstep. by apply list_elem_of_further.
    + eapply Hstep; [apply list_elem_of_here|done|done].
Qed.

(** What a loop raises, its body raised. *)
Lemma for_each_Raise {A S} (body : S -> A -> result S) xs acc e :
  for_each body xs acc = Raise e ->
  exists acc' x, x ∈ xs /\ body acc' x = Raise e.
Proof.
  revert acc. induction xs as [|x xs IH]; intros acc; simpl; [done|].
  destruct (body acc x) as [acc1|e1] eqn:Hb; simpl.
  - intros (acc' & y & Hy & Hr)%IH. exists acc', y.
    split; [by apply list_elem_of_further|done].
  - intros [= <-]. exists acc, x. split; [apply list_elem_of_here|done].
Qed.

(** A loop whose body raises at some element, whatever the accumulator,
    raises. *)
Lemma for_each_raises {A S} (body : S -> A -> result S) xs x acc :
  x ∈ xs -> (forall acc, exists e, body acc x = Raise e) ->
  exists e, for_each body xs acc = Raise e.
Proof.
  intros Hx Hb. revert acc. induction xs as [|y xs IH]; intros acc.
  - by apply elem_of_nil in Hx.
  - simpl. destruct (body acc y) as [acc1|e1] eqn:Hy; simpl; [|by eauto].
    apply elem_of_cons in Hx as [->|Hx]; [|by apply IH].
    destruct (Hb acc) as [e He]. congruence.
Qed.

Lemma while_prefix_same (prefix i : Z) (p q o n : list string) :
  length p = length q -> i + Z.of_nat (length p) = prefix ->
  while_prefix prefix i (p ++ o) (q ++ n) = prefix <-> p = q.
Proof.
  revert q i. induction p as [|x p IH]; intros [|y q] i Hlen Hi; simpl in *; try done.
  - replace i with prefix by lia. by rewrite while_prefix_stop.
  - destruct (Z.ltb_spec i prefix); [|lia]. simpl.
    destruct (String.eqb_spec x y) as [->|Hne].
    + rewrite IH by lia. split; [by intros ->|by intros [= ->]].
    + split; [lia|congruence].
Qed.

Lemma list_last_one {A} (l : list A) :
  (1 <= length l)%nat -> exists p a, l = p ++ [a].
Proof.
  intros H. destruct l as [|a l _] using rev_ind; [simpl in H; lia|]. by eauto.
Qed.

(** What [join_pair] does with two item lists of one length. *)
Lemma join_pair_eq p a q b candidates :
  length p = length q ->
  join_pair (p ++ [a]) (q ++ [b]) candidates
  = Ok (if decide (p = q) then setitem candidates (join (p ++ [a; b])) 0
        else candidates).
Proof.
  intros Hlen. destruct (decide (p = q)) as [<-|Hne]; [apply join_pair_hit|].
  unfold join_pair. rewrite length_app. simpl length.
  replace (Z.of_nat (length p + 1) - 1) with (Z.of_nat (length p)) by lia.
  destruct (Z.eqb_spec (while_prefix (Z.of_nat (length p)) 0 (p ++ [a]) (q ++ [b]))
              (Z.of_nat (length p))) as [E|]; [|done].
  apply while_prefix_same in E; [done|done|lia].
Qed.

Lemma join_all_sound (k : nat) (table rest : list string) candidates candidates' :
  (1 <= k)%nat ->
  StronglySorted (not_after String.ltb) rest ->
  (forall key, key ∈ rest -> key ∈ table /\ length (split key) = k) ->
  join_all rest candidates = Ok candidates' ->
  (forall key, key ∈ keys candidates -> joined_key table key) ->
  (forall key, key ∈ keys candidates' -> joined_key table key).
Proof.
  intros Hk. revert candidates.
  induction rest as [|okey rest IH]; intros c Hs Hrest Hc Hj.
  - by injection Hc as <-.
  - rewrite join_all_cons in Hc. apply bind_Ok in Hc as (c1 & H1 & H2).
    apply StronglySorted_inv in Hs as [Hs Hfirst]. rewrite Forall_forall in Hfirst.
    apply (IH c1 Hs); [|done|].
    { intros key Hkey. by apply Hrest, list_elem_of_further. }
    destruct (Hrest okey (list_elem_of_here _ _)) as [Hot Hol].
    destruct (list_last_one (split okey)) as (p & a & Ep); [lia|].
    apply (for_each_preserves_in
             (fun c : dict => forall key, key ∈ keys c -> joined_key table key)
             (fun candidates inner_key =>
                join_pair (split okey) (split inner_key) candidates)
             (okey :: rest) c c1); [|exact H1|exact Hj].
    intros acc ik acc' Hik Hpair Hacc.
    destruct (Hrest ik Hik) as [Hit Hil].
    destruct (list_last_one (split ik)) as (q & b & Eq); [lia|].
    rewrite Ep, Eq in Hpair.
    assert (length p = length q) as Hpq.
    { rewrite Ep in Hol. rewrite Eq in Hil. rewrite length_app in Hol, Hil.
      simpl in *. lia. }
    rewrite (join_pair_eq p a q b acc Hpq) in Hpair. injection Hpair as <-.
    destruct (decide (p = q)) as [<-|_]; [|done].
    intros key [->|Hkey]%elem_of_keys_setitem; [|by apply Hacc].
    exists okey, ik, p, a, b. split_and!; try done.
    apply elem_of_cons in Hik as [->|Hik]; [apply str_lt_irrefl|].
    by apply not_after_str, Hfirst.
Qed.

(** X6. The candidates of a table of level [k >= 1] are exactly the joins
    of two of its keys: the key of [p ++ [a; b]] is a candidate if and only
    if [p ++ [a]] and [p ++ [b]] are itemsets whose keys are in the table
    and [a] is [b] or smaller than [b].  Every candidate has the count 0 and
    no candidate stands twice. *)
Theorem make_candidates_keys (prev_frequents : dict) (k : nat) :
  (1 <= k)%nat -> level_table k prev_frequents ->
  exists candidates,
    make_candidates prev_frequents = Ok candidates /\
    zeroed candidates /\
    NoDup (keys candidates) /\
    (forall key,
        key ∈ keys candidates <->
        exists p a b,
          itemset (p ++ [a]) /\ itemset (p ++ [b]) /\
          join (p ++ [a]) ∈ keys prev_frequents /\
          join (p ++ [b]) ∈ keys prev_frequents /\
          (a = b \/ str_lt a b) /\
          key = join (p ++ [a; b])).
Proof.
  intros Hk Hd.
  destruct (make_candidates_spec prev_frequents k Hk Hd) as (c & E & Hz & Hhit).
  exists c. split_and!; [done|done|by apply (make_candidates_NoDup prev_frequents)|].
  intros key. split.
  - intros Hkey.
    pose proof E as E'. rewrite make_candidates_join_all in E'.
    destruct (join_all_sound k (keys prev_frequents)
                (sort_by String.ltb (keys prev_frequents)) [] c Hk) with (key := key)
      as (ok & ik & p & a & b & Hok & Hik & Hord & Eo & Ei & ->); [| |done| |done|].
    { apply (@Sorted_StronglySorted _ _ not_after_str_trans).
      apply sort_by_sorted, str_ltb_asym. }
    { intros x Hx. apply (proj1 (elem_of_sort_by _ _ _)) in Hx.
      split; [done|]. by apply (level_table_split k prev_frequents). }
    { by intros x ?%elem_of_nil. }
    destruct (level_table_split k prev_frequents ok Hd Hok) as (Hio & _ & Ejo).
    destruct (level_table_split k prev_frequents ik Hd Hik) as (Hii & _ & Eji).
    rewrite Eo in Hio, Ejo. rewrite Ei in Hii, Eji.
    exists p, a, b. rewrite Ejo, Eji. split_and!; try done.
    destruct (str_trichotomy a b) as [H|[H|H]]; [by right|by left|].
    destruct Hord. rewrite <- Ejo, <- Eji. unfold str_lt.
    by rewrite join_snoc_compare.
  - intros (p & a & b & Hia & Hib & Ha & Hb & Hab & ->).
    apply dict_get_is_Some.
    assert (Forall token (p ++ [a; b])) as Htok.
    { destruct Hia as [Hta _], Hib as [Htb _].
      rewrite !Forall_app, !Forall_cons in *. tauto. }
    destruct Hab as [<-|Hab].
    + destruct (make_candidates_self_join prev_frequents k p a Hk Hd) as (c' & E' & Hc');
        [apply Hia|done|].
      rewrite E in E'. injection E' as <-. by eexists.
    + eexists. by apply Hhit.
Qed.

Lemma make_candidates_keys_witness :
  let prev_frequents := [("a b", 120); ("a c", 110); ("b c", 100)] in
  exists candidates,
    make_candidates prev_frequents = Ok candidates /\ zeroed candidates.
Proof.
  intros prev_frequents.
  destruct (make_candidates_keys prev_frequents 2) as (c & E & Hz & _).
  - lia.
  - intros key Hkey. unfold prev_frequents, keys in Hkey. simpl in Hkey.
    repeat (apply elem_of_cons in Hkey as [->|Hkey]); [| | |by apply elem_of_nil in Hkey].
    + exists ["a"; "b"]. split_and!; [done|solve_itemset|done].
    + exists ["a"; "c"]. split_and!; [done|solve_itemset|done].
    + exists ["b"; "c"]. split_and!; [done|solve_itemset|done].
  - by exists c.
Defined.

(** X7. The candidates depend on the set of keys of the table only: not on
    the counts, and not on the order in which the keys were put in. *)
Theorem make_candidates_keys_only (table table' : dict) :
  keys table ≡ₚ keys table' ->
  make_candidates table = make_candidates table'.
Proof.
  intros Hp. rewrite !make_candidates_join_all.
  pose proof (sorted_str_perm _ _ Hp) as E. rewrite !sorted_str in E.
  by injection E as ->.
Qed.

Lemma make_candidates_keys_only_witness :
  make_candidates [("a", 100); ("b", 250)] = make_candidates [("b", 101); ("a", 300)].
Proof.
  apply make_candidates_keys_only. apply Permutation_swap.
Defined.

Lemma py_index_Raise {A} (l : list A) (i : Z) e : py_index l i = Raise e -> e = IndexError.
Proof.
  unfold py_index. destruct (_ <? 0); [by intros [= <-]|].
  destruct (l !! _); [done|by intros [= <-]].
Qed.

Lemma join_pair_Raise outer_items inner_items candidates e :
  join_pair outer_items inner_items candidates = Raise e -> e = IndexError.
Proof.
  unfold join_pair. destruct (_ =? _); [|done].
  destruct (py_index inner_items _) as [x|e'] eqn:Hx; simpl; [done|].
  intros [= <-]. by eapply py_index_Raise.
Qed.

Lemma join_all_Raise rest candidates e :
  join_all rest candidates = Raise e -> e = IndexError.
Proof.
  revert candidates. induction rest as [|okey rest IH]; intros c; [done|].
  rewrite join_all_cons.
  destruct (for_each _ (okey :: rest) c) as [c1|e1] eqn:H1; simpl; [by apply IH|].
  intros [= <-]. apply for_each_Raise in H1 as (acc & ik & _ & Hr).
  by eapply join_pair_Raise.
Qed.

(** X8. [make_candidates] raises nothing but IndexError, and it raises
    IndexError when the table has a key whose items are all but the last
    item of another key and which is the greater string of the two (such as
    a key of white space only beside a key of one item that sorts before
    it). *)
Theorem make_candidates_index_error (prev_frequents : dict) :
  (forall e, make_candidates prev_frequents = Raise e -> e = IndexError) /\
  (forall outer_key inner_key a,
      outer_key ∈ keys prev_frequents -> inner_key ∈ keys prev_frequents ->
      split outer_key = split inner_key ++ [a] ->
      str_lt outer_key inner_key ->
      make_candidates prev_frequents = Raise IndexError).
Proof.
  rewrite make_candidates_join_all. split; [intros e; apply join_all_Raise|].
  intros ok ik a Hok Hik Eo Hlt.
  destruct (sort_by_str_split (keys prev_frequents) ok ik Hok Hik Hlt)
    as (l1 & l2 & -> & Hin).
  enough (exists e, join_all (l1 ++ ok :: l2) [] = Raise e) as [e He].
  { by rewrite He, (join_all_Raise _ _ _ He). }
  generalize ([] : dict). induction l1 as [|x l1 IH]; intros c.
  - simpl app. rewrite join_all_cons.
    destruct (for_each_raises
                (fun candidates inner_key =>
                   join_pair (split ok) (split inner_key) candidates)
                (ok :: l2) ik c) as [e He].
    + by apply list_elem_of_further.
    + intros acc. exists IndexError. unfold join_pair. rewrite Eo, length_app.
      simpl length.
      replace (Z.of_nat (length (split ik) + 1) - 1)
        with (Z.of_nat (length (split ik))) by lia.
      rewrite <- (app_nil_r (split ik)) at 3.
      rewrite while_prefix_common by lia. simpl.
      rewrite Z.eqb_refl, py_index_nat.
      by rewrite (proj2 (lookup_ge_None (split ik) _)) by lia.
    + exists e. by rewrite He.
  - simpl app. rewrite join_all_cons.
    destruct (for_each _ (x :: l1 ++ ok :: l2) c) as [c1|e1]; simpl; [apply IH|by eauto].
Qed.

Lemma make_candidates_index_error_witness :
  let nbsp := String (ascii_of_nat 160) "" in
  make_candidates [("a", 1); (nbsp, 1)] = Raise IndexError.
Proof.
  intros nbsp.
  apply (proj2 (make_candidates_index_error [("a", 1); (nbsp, 1)]) "a" nbsp "a").
  - by_compute.
  - by_compute.
  - reflexivity.
  - reflexivity.
Defined.


(** ** make_rules *)

Lemma length_combinations_0 {A} (l : list A) : length (combinations l 0) = 1%nat.
Proof. by destruct l. Qed.

Lemma length_combinations_cons {A} (x : A) (t : list A) (r : nat) :
  length (combinations (x :: t) (S r))
  = (length (combinations t r) + length (combinations t (S r)))%nat.
Proof.
  change (combinations (x :: t) (S r))
    with (map (cons x) (combinations t r) ++ combinations t (S r)).
  by rewrite length_app, length_map.
Qed.

Lemma length_combinations_gt {A} (l : list A) (r : nat) :
  (length l < r)%nat -> length (combinations l r) = 0%nat.
Proof.
  revert r. induction l as [|x l IH]; intros [|r] H; simpl in H; try lia; [done|].
  rewrite length_combinations_cons, !IH by lia. done.
Qed.

Lemma length_combinations_all {A} (l : list A) :
  length (combinations l (length l)) = 1%nat.
Proof.
  induction l as [|x l IH]; [done|].
  change (length (x :: l)) with (S (length l)).
  rewrite length_combinations_cons, IH, length_combinations_gt by lia. done.
Qed.

Lemma list_sum_map_add {A} (f g : A -> nat) (l : list A) :
  list_sum (map (fun x => (f x + g x)%nat) l)
  = (list_sum (map f l) + list_sum (map g l))%nat.
Proof. induction l as [|x l IH]; simpl; [done|]. rewrite IH. lia. Qed.

Lemma list_sum_seq_S (f : nat -> nat) (n : nat) :
  list_sum (map f (seq 0 (S n))) = (f 0%nat + list_sum (map (fun r => f (S r)) (seq 0 n)))%nat.
Proof. rewrite <- cons_seq, <- seq_shift, map_cons, map_map. done. Qed.

Lemma list_sum_seq_last (f : nat -> nat) (n : nat) :
  list_sum (map f (seq 0 (S n))) = (list_sum (map f (seq 0 n)) + f n)%nat.
Proof. rewrite seq_S, map_app, list_sum_app. simpl. lia. Qed.

(** A list of [n] items has [2 ^ n] combinations in all. *)
Lemma count_combinations {A} (l : list A) (n : nat) :
  (length l <= n)%nat ->
  list_sum (map (fun r => length (combinations l r)) (seq 0 (S n)))
  = (2 ^ length l)%nat.
Proof.
  revert n. induction l as [|x l IH]; intros n Hn.
  - induction n as [|n IHn]; [done|].
    rewrite list_sum_seq_last, IHn by (simpl; lia). done.
  - change (length (x :: l)) with (S (length l)) in *.
    destruct n as [|n]; [lia|].
    rewrite list_sum_seq_S, length_combinations_0.
    rewrite (map_ext _ (fun r => (length (combinations l r)
                                  + length (combinations l (S r)))%nat))
      by (intros r; apply length_combinations_cons).
    rewrite list_sum_map_add, (IH n) by lia.
    pose proof (IH (S n) ltac:(lia)) as Hs.
    rewrite (list_sum_seq_S (fun r => length (combinations l r))) in Hs.
    rewrite length_combinations_0 in Hs.
    rewrite Nat.pow_succ_r'. lia.
Qed.

(** An itemset of [n] items has [2 ^ n - 2] splits into a left and a right
    side that are not empty. *)
Lemma length_proper_combinations (items : list string) :
  length (proper_combinations items) = (2 ^ length items - 2)%nat.
Proof.
  unfold proper_combinations, range. rewrite length_flat_map.
  pose proof (count_combinations items (length items) ltac:(lia)) as Hall.
  destruct (length items) as [|m] eqn:Hm; [done|].
  replace (S m - 1)%nat with m by lia.
  rewrite list_sum_seq_last, <- Hm, length_combinations_all, Hm in Hall.
  rewrite <- cons_seq, map_cons in Hall.
  change (list_sum (?a :: ?t)) with (a + list_sum t)%nat in Hall.
  rewrite length_combinations_0 in Hall. lia.
Qed.

Lemma Forall2_length_eq {A B} (R : A -> B -> Prop) l k :
  Forall2 R l k -> length l = length k.
Proof. induction 1; simpl; congruence. Qed.

(** The number of rules of [make_rules]. *)
Lemma length_make_rules (top_level : dict) (args : list dict) (rules : list Rule.t) :
  make_rules top_level args = Ok rules ->
  length rules
  = list_sum (map (fun key => (2 ^ length (split key) - 2)%nat) (keys top_level)).
Proof.
  intros Hr. apply make_rules_Forall2 in Hr.
  rewrite <- (Forall2_length_eq _ _ _ Hr).
  unfold splits. rewrite length_flat_map. f_equal.
  apply map_ext. intros key. by rewrite length_map, length_proper_combinations.
Qed.

(** X9. [make_rules] returns [2 ^ n - 2] rules for every key of [n] items:
    as many as the items have combinations that are neither empty nor all
    of them (none for a key of one item or of no item). *)
Theorem make_rules_count (top_level : dict) (args : list dict) (rules : list Rule.t) :
  make_rules top_level args = Ok rules ->
  length rules
  = list_sum (map (fun key => (2 ^ length (split key) - 2)%nat) (keys top_level)).
Proof. apply length_make_rules. Qed.

Lemma make_rules_count_witness :
  let top_level := [("a b c", 100); ("a b", 120)] in
  let args := [[("a", 150); ("b", 140); ("c", 130)];
               [("a b", 120); ("a c", 110); ("b c", 105)]] in
  exists rules, make_rules top_level args = Ok rules /\ length rules = 8%nat.
Proof.
  intros top_level args.
  destruct (make_rules top_level args) as [rules|e] eqn:E; [|by vm_compute in E].
  exists rules. split; [done|].
  by rewrite (make_rules_count top_level args rules E).
Defined.

Lemma Forall2_exists {A B} (R : A -> B -> Prop) (l : list A) :
  (forall x, x ∈ l -> exists y, R x y) -> exists k, Forall2 R l k.
Proof.
  induction l as [|x l IH]; intros H; [by exists []|].
  destruct (H x) as [y Hy]; [apply list_elem_of_here|].
  destruct IH as [k Hk]; [intros x' Hx'; apply H; by apply list_elem_of_further|].
  exists (y :: k). by constructor.
Qed.

(** What [make_rule] raises: IndexError when [args] has no table for the
    size of the combination, KeyError with the joined combination when the
    table lacks it. *)
Lemma make_rule_Raise top_level args itemset items combination e :
  itemset ∈ keys top_level -> (1 <= length combination)%nat ->
  make_rule top_level args itemset items combination = Raise e ->
  (args !! (length combination - 1)%nat = None /\ e = IndexError) \/
  (exists level,
      args !! (length combination - 1)%nat = Some level /\
      (join combination ∉ keys level) /\ e = KeyError (join combination)).
Proof.
  intros Hkey Hlen. unfold make_rule.
  apply dict_get_is_Some in Hkey as [all_freq Hall].
  apply getitem_Ok in Hall. rewrite Hall, ret_bind.
  replace (Z.of_nat (length combination) - 1) with (Z.of_nat (length combination - 1))
    by lia.
  rewrite py_index_nat.
  destruct (args !! (length combination - 1)%nat) as [level|]; simpl.
  - unfold getitem. destruct (dict_get level (join combination)) eqn:Hget; simpl; [done|].
    intros [= <-]. right. exists level. by apply dict_get_None in Hget.
  - intros [= <-]. by left.
Qed.

(** X10. [make_rules] returns rules exactly when every left side that it
    forms, a combination of [i] items of a key of [top_level] with
    [1 <= i < n], is a key of the [i]-th table of [args]. *)
Theorem make_rules_succeeds (top_level : dict) (args : list dict) :
  (exists rules, make_rules top_level args = Ok rules) <->
  (forall itemset combination,
      itemset ∈ keys top_level ->
      sublist combination (split itemset) ->
      (1 <= length combination < length (split itemset))%nat ->
      exists level,
        args !! (length combination - 1)%nat = Some level /\
        join combination ∈ keys level).
Proof.
  split.
  - intros [rules Hr] itemset combination Hkey Hsub Hlen.
    apply make_rules_Forall2 in Hr.
    destruct (Forall2_elem_of_l _ _ _ (itemset, combination) Hr) as (rule & _ & Hrule).
    { by apply elem_of_splits. }
    apply make_rule_Ok in Hrule as (af & level & lf & _ & Hlevel & Hlf & _).
    simpl in Hlevel, Hlf.
    replace (Z.of_nat (length combination) - 1)
      with (Z.of_nat (length combination - 1)) in Hlevel by lia.
    rewrite py_index_nat in Hlevel.
    destruct (args !! (length combination - 1)%nat) as [level'|]; [|done].
    injection Hlevel as ->. exists level. split; [done|].
    apply dict_get_is_Some. by eexists.
  - intros Hall.
    destruct (Forall2_exists
                (fun p rule => make_rule top_level args p.1 (split p.1) p.2 = Ok rule)
                (splits top_level)) as [rules Hr].
    + intros [itemset combination] (Hkey & Hsub & Hlen)%elem_of_splits. simpl.
      destruct (Hall itemset combination Hkey Hsub Hlen) as (level & Hlevel & Hin).
      apply dict_get_is_Some in Hkey as [af Haf].
      apply dict_get_is_Some in Hin as [lf Hlf].
      eexists. apply make_rule_Ok. exists af, level, lf. split_and!; [done| |done|done].
      replace (Z.of_nat (length combination) - 1)
        with (Z.of_nat (length combination - 1)) by lia.
      by rewrite py_index_nat, Hlevel.
    + exists rules. by apply make_rules_Forall2.
Qed.

Lemma make_rules_succeeds_witness :
  exists rules,
    make_rules [("a b c", 100)]
               [[("a", 150); ("b", 140); ("c", 130)];
                [("a b", 120); ("a c", 110); ("b c", 105)]] = Ok rules.
Proof.
  apply (proj2 (make_rules_succeeds _ _)).
  intros itemset combination Hkey Hsub Hlen.
  apply list_elem_of_singleton in Hkey as ->.
  change (split "a b c") with ["a"; "b"; "c"] in *.
  assert (combination ∈ combinations ["a"; "b"; "c"] 1
                         ++ combinations ["a"; "b"; "c"] 2) as Hc.
  { apply elem_of_app. rewrite !elem_of_combinations.
    assert (length combination = 1 \/ length combination = 2)%nat as [H|H]
      by (simpl in Hlen; lia); [by left|by right]. }
  vm_compute in Hc.
  repeat (apply elem_of_cons in Hc as [->|Hc]; [eexists; split; [reflexivity|by_compute]|]).
  by apply elem_of_nil in Hc.
Defined.

(** X11. When [make_rules] raises, some left side that it forms was not
    found: IndexError when [args] has no table for the size of the left
    side, KeyError with the joined left side when that table lacks it.  It
    raises nothing else; no confidence is computed. *)
Theorem make_rules_raises (top_level : dict) (args : list dict) (e : exn) :
  make_rules top_level args = Raise e ->
  exists itemset combination,
    itemset ∈ keys top_level /\
    sublist combination (split itemset) /\
    (1 <= length combination < length (split itemset))%nat /\
    ((args !! (length combination - 1)%nat = None /\ e = IndexError) \/
     (exists level,
         args !! (length combination - 1)%nat = Some level /\
         (join combination ∉ keys level) /\ e = KeyError (join combination))).
Proof.
  unfold make_rules.
  rewrite (for_each_pairs
             (fun itemset level_rules combination =>
                rule ← make_rule top_level args itemset (split itemset) combination;
                Ok (level_rules ++ [rule]))
             (fun itemset => proper_combinations (split itemset))).
  intros (acc & [itemset combination] & Hin & Hr)%for_each_Raise.
  fold (splits top_level) in Hin.
  apply elem_of_splits in Hin as (Hkey & Hsub & Hlen). simpl in Hr.
  exists itemset, combination. split_and!; [done|done|lia|lia|].
  destruct (make_rule top_level args itemset (split itemset) combination) as [rule|e']
    eqn:Hrule; simpl in Hr; [done|].
  injection Hr as <-. eapply make_rule_Raise; [done|lia|done].
Qed.

(** A line that repeats an item can lead here: 50 lines [a a b b] make
    ["a b b"] a frequent triple, whose left side ["b b"] is no pair. *)
Lemma make_rules_raises_witness :
  let triples := [("a b b", 100)] in
  let args := [[("a", 100); ("b", 100)]; [("a b", 200)]] in
  make_rules triples args = Raise (KeyError "b b") /\
  exists itemset combination,
    itemset ∈ keys triples /\
    sublist combination (split itemset) /\
    (1 <= length combination < length (split itemset))%nat /\
    ((args !! (length combination - 1)%nat = None /\ KeyError "b b" = IndexError) \/
     (exists level,
         args !! (length combination - 1)%nat = Some level /\
         (join combination ∉ keys level) /\ KeyError "b b" = KeyError (join combination))).
Proof.
  intros triples args.
  assert (make_rules triples args = Raise (KeyError "b b")) as E by reflexivity.
  split; [exact E|]. exact (make_rules_raises triples args _ E).
Defined.

(** ** The counting loop of the singles *)

Lemma flat_map_id_concat {A} (ls : list (list A)) :
  flat_map (fun l => l) ls = concat ls.
Proof. induction ls as [|l ls IH]; simpl; [done|]. by rewrite IH. Qed.

Lemma occurrences_elem_of k ks : k ∈ ks -> 1 <= occurrences k ks.
Proof.
  induction ks as [|x ks IH]; [by intros ?%elem_of_nil|].
  rewrite occurrences_cons. pose proof (occurrences_nonneg k ks).
  intros [->|Hin]%elem_of_cons.
  - rewrite decide_True by done. lia.
  - specialize (IH Hin). destruct (decide (x = k)); lia.
Qed.

(** In lines that repeat no item, an item occurs as often as lines
    contain it. *)
Lemma occurrences_concat_NoDup (lines : list (list string)) (x : string) :
  Forall NoDup lines -> occurrences x (concat lines) = support [x] lines.
Proof.
  induction 1 as [|line lines Hnd _ IH]; [done|].
  simpl. rewrite occurrences_app, support_cons, IH, (occurrences_NoDup x line Hnd).
  destruct (decide (x ∈ line)) as [Hin|Hin].
  - rewrite decide_True; [done|]. by intros y ->%list_elem_of_singleton.
  - rewrite decide_False; [done|]. intros Hsub. apply Hin, Hsub, list_elem_of_here.
Qed.

(** X12. The counting loop of the singles never raises.  Its table has one
    entry for every item that occurs in the lines and no other, with the
    number of occurrences of the item in all the lines: an item that a line
    repeats counts each time.  When no line repeats an item, the count is
    the number of lines that contain the item. *)
Theorem count_singles_counts (lines : list (list string)) :
  exists singles,
    count_singles lines = Ok singles /\
    NoDup (keys singles) /\
    (forall item, item ∈ keys singles <-> item ∈ concat lines) /\
    (forall item count,
        dict_get singles item = Some count ->
        count = occurrences item (concat lines) /\ 1 <= count) /\
    (Forall NoDup lines ->
     forall item count,
       dict_get singles item = Some count -> count = support [item] lines).
Proof.
  rewrite count_singles_items, flat_map_id_concat.
  destruct (count_item_loop (concat lines) []) as (singles & E & Hnd & Hget).
  exists singles.
  assert (forall item count,
             dict_get singles item = Some count ->
             item ∈ concat lines /\ count = occurrences item (concat lines)) as Hc.
  { intros item count. rewrite Hget. simpl.
    destruct (decide (item ∈ concat lines)); [|done]. by intros [= <-]. }
  split_and!; [done|apply Hnd; constructor| | |].
  - intros item. rewrite <- dict_get_is_Some, Hget. simpl.
    destruct (decide (item ∈ concat lines)); split; try done; first [by eauto|by intros [? ?]].
  - intros item count [Hin ->]%Hc. split; [done|by apply occurrences_elem_of].
  - intros Hl item count [_ ->]%Hc. by apply occurrences_concat_NoDup.
Qed.

(** ** Reading the lines *)

Lemma rev_app_append (s t u : string) :
  String.rev_app s (t +:+ u) = String.rev_app s t +:+ u.
Proof.
  revert t. induction s as [|c s IH]; intros t; simpl; [done|].
  by rewrite <- IH, str_app_cons.
Qed.

Lemma rev_cons (c : ascii) (s : string) :
  String.rev (String c s) = String.rev s +:+ String c "".
Proof.
  unfold String.rev. simpl. by rewrite <- rev_app_append, str_app_nil_l.
Qed.

Lemma rev_append (a b : string) :
  String.rev (a +:+ b) = String.rev b +:+ String.rev a.
Proof.
  induction a as [|c a IH].
  - by rewrite str_app_nil_l, str_app_empty_r.
  - by rewrite str_app_cons, !rev_cons, IH, str_app_assoc.
Qed.

Lemma rev_involutive (s : string) : String.rev (String.rev s) = s.
Proof.
  induction s as [|c s IH]; [done|].
  by rewrite rev_cons, rev_append, IH.
Qed.

Lemma allspace_app (a b : string) : allspace (a +:+ b) = allspace a && allspace b.
Proof.
  induction a as [|c a IH]; [by rewrite str_app_nil_l|].
  rewrite str_app_cons. simpl. by rewrite IH, andb_assoc.
Qed.

Lemma allspace_rev (s : string) : allspace (String.rev s) = allspace s.
Proof.
  induction s as [|c s IH]; [done|].
  rewrite rev_cons, allspace_app, IH. simpl. by rewrite andb_true_r, andb_comm.
Qed.

(** [lstrip] removes white space from the left end, [rstrip] from the
    right end, and nothing else. *)
Lemma lstrip_spec (s : string) :
  exists w, allspace w = true /\ s = w +:+ lstrip s.
Proof.
  induction s as [|c s (w & Hw & IH)]; [by exists ""|].
  simpl. destruct (isspace c) eqn:Hc.
  - exists (String c w). simpl. rewrite Hc, Hw, str_app_cons. by rewrite <- IH.
  - by exists "".
Qed.

Lemma rstrip_spec (s : string) :
  exists w, allspace w = true /\ s = rstrip s +:+ w.
Proof.
  destruct (lstrip_spec (String.rev s)) as (w & Hw & E).
  exists (String.rev w). split; [by rewrite allspace_rev|].
  unfold rstrip. by rewrite <- rev_append, <- E, rev_involutive.
Qed.

Lemma split_go_allspace (cur w : string) :
  allspace w = true -> split_go cur w = split_go cur "".
Proof.
  revert cur. induction w as [|c w IH]; intros cur; [done|]. simpl.
  intros [Hc Hw]%andb_true_iff. rewrite Hc, (IH "" Hw).
  by destruct (String.eqb cur "").
Qed.

Lemma split_go_trailing (cur s w : string) :
  allspace w = true -> split_go cur (s +:+ w) = split_go cur s.
Proof.
  intros Hw. revert cur. induction s as [|c s IH]; intros cur.
  - rewrite str_app_nil_l. by apply split_go_allspace.
  - rewrite str_app_cons. simpl. by rewrite !IH.
Qed.

Lemma split_leading (s w : string) :
  allspace w = true -> split (w +:+ s) = split s.
Proof.
  induction w as [|c w IH]; [by rewrite str_app_nil_l|].
  simpl. intros [Hc Hw]%andb_true_iff.
  rewrite str_app_cons. unfold split. simpl. rewrite Hc. by apply IH.
Qed.

(** [strip] before [split] changes nothing. *)
Lemma split_strip (s : string) : split (strip s) = split s.
Proof.
  unfold strip.
  destruct (lstrip_spec s) as (w1 & Hw1 & E1).
  destruct (rstrip_spec (lstrip s)) as (w2 & Hw2 & E2).
  rewrite E1 at 2. rewrite (split_leading _ _ Hw1).
  rewrite E2 at 2. unfold split. by rewrite (split_go_trailing _ _ _ Hw2).
Qed.

Lemma StronglySorted_mono {A} (R R' : relation A) (l : list A) :
  (forall a b, R a b -> R' a b) -> StronglySorted R l -> StronglySorted R' l.
Proof.
  intros HR. induction 1 as [|x l _ IH Hx]; constructor; [done|].
  eapply Forall_impl; [exact Hx|]. intros y. apply HR.
Qed.

(** X13. Reading the lines never raises.  Every line of the file becomes
    the list of its white-space separated words in ascending order: the
    same words as often as the line has them (a repeated word stays
    repeated), none of them empty or with white space in it, none greater
    than a later one; [strip] before [split] changes nothing.  A line of
    distinct words becomes a canonical itemset. *)
Theorem read_lines_spec (raw : list string) :
  exists lines,
    read_lines raw = Ok lines /\
    Forall2 (fun text line =>
               line ≡ₚ split text /\
               Forall token line /\
               StronglySorted (fun a b => ~ str_lt b a) line /\
               sorted str__lt__ (split text) false = Ok line /\
               (NoDup (split text) -> itemset line))
            raw lines.
Proof.
  exists (map (fun text => sort_by String.ltb (split (strip text))) raw).
  split; [apply read_lines_sorted|].
  apply Forall2_fmap_r, Forall_Forall2_diag, Forall_forall. intros text _.
  unfold compose. cbv beta. rewrite split_strip.
  assert (Forall token (sort_by String.ltb (split text))) as Htok.
  { rewrite sort_by_perm. apply split_tokens. }
  split_and!; [apply sort_by_perm|done| |apply sorted_str|].
  - pose proof (sort_by_sorted String.ltb str_ltb_asym (split text)) as Hs.
    apply (@Sorted_StronglySorted _ _ not_after_str_trans) in Hs.
    eapply StronglySorted_mono; [|exact Hs].
    intros a b. by rewrite not_after_str.
  - intros Hnd. split; [done|]. apply sort_by_str_strict. by rewrite sort_by_perm.
Qed.

(** ** The pipeline *)

(** The stages of the module body. *)
Lemma mine_stages fl lines rep :
  mine fl lines = Ok rep ->
  exists counted1 candidates2 counted2 rules2 candidates3 counted3 rules3,
    count_singles lines = Ok counted1 /\
    prune counted1 = Ok (singles rep) /\
    make_candidates (singles rep) = Ok candidates2 /\
    count_level 2 lines candidates2 = Ok counted2 /\
    prune counted2 = Ok (pairs rep) /\
    make_rules (pairs rep) [singles rep] = Ok rules2 /\
    sorted (Rule.__lt__ fl) rules2 true = Ok (pair_rules rep) /\
    make_candidates (pairs rep) = Ok candidates3 /\
    count_level 3 lines candidates3 = Ok counted3 /\
    prune counted3 = Ok (triples rep) /\
    make_rules (triples rep) [singles rep; pairs rep] = Ok rules3 /\
    sorted (Rule.__lt__ fl) rules3 true = Ok (triple_rules rep).
Proof.
  unfold mine.
  intros (c1 & E1 & H)%bind_Ok. apply bind_Ok in H as (s1 & E2 & H).
  apply bind_Ok in H as (c2 & E3 & H). apply bind_Ok in H as (n2 & E4 & H).
  apply bind_Ok in H as (p2 & E5 & H). apply bind_Ok in H as (r2 & E6 & H).
  apply bind_Ok in H as (pr & E7 & H). apply bind_Ok in H as (c3 & E8 & H).
  apply bind_Ok in H as (n3 & E9 & H). apply bind_Ok in H as (p3 & E10 & H).
  apply bind_Ok in H as (r3 & E11 & H). apply bind_Ok in H as (tr & E12 & H).
  injection H as <-. simpl. by exists c1, c2, n2, r2, c3, n3, r3.
Qed.

Lemma support_le_length items lines : support items lines <= Z.of_nat (length lines).
Proof. unfold support. pose proof (length_filter (fun line => items ⊆ line) lines). lia. Qed.

(** Support looks at the items of a line, not at their order. *)
Lemma support_perm items lines lines' :
  Forall2 (fun line line' => line ≡ₚ line') lines lines' ->
  support items lines = support items lines'.
Proof.
  induction 1 as [|line line' lines lines' Hp _ IH]; [done|].
  rewrite !support_cons, IH.
  destruct (decide (items ⊆ line)) as [Hs|Hs].
  - rewrite decide_True; [done|]. by rewrite <- Hp.
  - rewrite decide_False; [done|]. by rewrite <- Hp.
Qed.

Lemma frequent_table_support k lines lines' table :
  (forall items, support items lines = support items lines') ->
  frequent_table k lines table -> frequent_table k lines' table.
Proof.
  intros Hs (Hnd & Hsound & Hcomplete). split_and!; [done| |].
  - intros key count Hget.
    destruct (Hsound key count Hget) as (items & -> & Hi & Hlen & -> & Hf).
    exists items. by rewrite <- Hs.
  - intros items Hi Hlen Hf. rewrite <- Hs in *. by apply Hcomplete.
Qed.

(** X14. From the text of a file whose lines repeat no word, the program
    computes exactly the frequent itemsets: the singles, pairs and triples
    tables hold the itemsets of 1, 2 and 3 items that at least FREQ_THRES
    lines of the file contain, under their canonical keys, each once and
    with the number of the lines that contain it; nothing raises. *)
Theorem main_frequent_itemsets (fl : Qc -> Qc) (raw : list string) :
  Forall (fun text => NoDup (split text)) raw ->
  exists rep,
    main fl raw = Ok rep /\
    frequent_table 1 (map split raw) (singles rep) /\
    frequent_table 2 (map split raw) (pairs rep) /\
    frequent_table 3 (map split raw) (triples rep).
Proof.
  intros Hnd. unfold main. rewrite read_lines_sorted, ret_bind.
  set (lines := map (fun text => sort_by String.ltb (split (strip text))) raw).
  assert (Forall itemset lines) as Hl.
  { apply Forall_forall. intros line (text & -> & Hin)%list_elem_of_fmap.
    rewrite Forall_forall in Hnd. rewrite split_strip. split.
    - rewrite sort_by_perm. apply split_tokens.
    - apply sort_by_str_strict. rewrite sort_by_perm. by apply Hnd. }
  assert (forall items, support items lines = support items (map split raw)) as Hs.
  { intros items. apply support_perm. unfold lines.
    apply Forall2_fmap, Forall_Forall2_diag, Forall_forall. intros text _.
    unfold compose. by rewrite split_strip, sort_by_perm. }
  destruct (mine_spec fl lines Hl) as (rep & E & H1 & H2 & H3 & _).
  exists rep. split_and!; [done|by eapply frequent_table_support..].
Qed.

Lemma main_frequent_itemsets_witness :
  exists rep,
    main (fun q => q) (replicate 100 " b a " ++ ["c a"]) = Ok rep /\
    frequent_table 1 (map split (replicate 100 " b a " ++ ["c a"])) (singles rep) /\
    frequent_table 2 (map split (replicate 100 " b a " ++ ["c a"])) (pairs rep) /\
    frequent_table 3 (map split (replicate 100 " b a " ++ ["c a"])) (triples rep).
Proof.
  apply (main_frequent_itemsets (fun q => q)).
  apply Forall_app. split; [apply Forall_replicate|repeat constructor]; by_compute.
Defined.

(** The tables of the levels 1 to 3 are downward closed. *)
Lemma frequent_tables_closed (lines : list (list string)) (tables : list dict)
    (k : nat) (table : dict) (key : string) (count : Z) (sub : list string) :
  (forall i level, tables !! i = Some level -> frequent_table (S i) lines level) ->
  (forall i, (i < k)%nat -> is_Some (tables !! i)) ->
  tables !! k = Some table ->
  dict_get table key = Some count ->
  sublist sub (split key) -> sub <> [] ->
  exists level count',
    tables !! (length sub - 1)%nat = Some level /\
    dict_get level (join sub) = Some count' /\
    count' = support sub lines /\ count <= count'.
Proof.
  intros Htabs Hbelow Hk Hget Hsub Hne.
  destruct (Htabs k table Hk) as (_ & Hsound & _).
  destruct (Hsound key count Hget) as (items & -> & Hi & Hlen & -> & Hf).
  rewrite (split_join items) in Hsub by apply Hi.
  pose proof (itemset_sublist sub items Hsub Hi) as Hisub.
  pose proof (sublist_length _ _ Hsub) as Hle.
  assert (1 <= length sub)%nat as Hpos by (destruct sub; [done|simpl; lia]).
  assert (exists level, tables !! (length sub - 1)%nat = Some level) as [level Hlevel].
  { destruct (decide (length sub - 1 = k)%nat) as [->|Hn]; [by eauto|].
    apply Hbelow. lia. }
  pose proof (support_anti items sub lines (sublist_subseteq _ _ Hsub)) as Hanti.
  destruct (Htabs _ level Hlevel) as (_ & _ & Hcomplete).
  exists level, (support sub lines). split_and!; [done| |done|done].
  apply Hcomplete; [done|lia|lia].
Qed.

(** X15. The tables of the report are downward closed: every part of a
    reported itemset that is not empty is reported under its own key in the
    table of its size, with its support, which is not less than the count
    of the itemset. *)
Theorem mine_downward_closed (fl : Qc -> Qc) (lines : list (list string)) :
  Forall itemset lines ->
  exists rep,
    mine fl lines = Ok rep /\
    forall (k : nat) table key count sub,
      [singles rep; pairs rep; triples rep] !! k = Some table ->
      dict_get table key = Some count ->
      sublist sub (split key) -> sub <> [] ->
      exists level count',
        [singles rep; pairs rep; triples rep] !! (length sub - 1)%nat = Some level /\
        dict_get level (join sub) = Some count' /\
        count' = support sub lines /\ count <= count'.
Proof.
  intros Hl. destruct (mine_spec fl lines Hl) as (rep & E & H1 & H2 & H3 & _).
  exists rep. split; [done|]. intros k table key count sub Hk.
  apply (frequent_tables_closed lines _ k table); [| |done].
  - intros [|[|[|i]]] level [= <-]; done.
  - intros i Hi. apply lookup_lt_is_Some. apply lookup_lt_Some in Hk. simpl in *. lia.
Qed.

Lemma mine_downward_closed_witness :
  let lines := replicate 100 ["a"; "b"; "c"] ++ replicate 20 ["a"; "b"] in
  Forall itemset lines /\
  exists rep,
    mine (fun q => q) lines = Ok rep /\
    forall (k : nat) table key count sub,
      [singles rep; pairs rep; triples rep] !! k = Some table ->
      dict_get table key = Some count ->
      sublist sub (split key) -> sub <> [] ->
      exists level count',
        [singles rep; pairs rep; triples rep] !! (length sub - 1)%nat = Some level /\
        dict_get level (join sub) = Some count' /\
        count' = support sub lines /\ count <= count'.
Proof.
  intros lines.
  assert (Forall itemset lines) as Hl
    by (apply Forall_app; split; apply Forall_replicate; solve_itemset).
  split; [exact Hl|]. exact (mine_downward_closed (fun q => q) lines Hl).
Defined.

Lemma list_sum_constant {A} (f : A -> nat) (c : nat) (l : list A) :
  (forall x, x ∈ l -> f x = c) -> list_sum (map f l) = (c * length l)%nat.
Proof.
  induction l as [|x l IH]; intros H; [simpl; lia|].
  change (list_sum (map f (x :: l))) with (f x + list_sum (map f l))%nat.
  rewrite IH by (intros y Hy; apply H; by apply list_elem_of_further).
  rewrite (H x) by apply list_elem_of_here. simpl. lia.
Qed.

(** The rules of one level: complete, and [2 ^ n - 2] for every itemset. *)
Lemma make_rules_complete (n : nat) lines top_level args rules :
  Forall itemset lines ->
  frequent_table n lines top_level ->
  (forall i, (1 <= i < n)%nat ->
     exists level, args !! (i - 1)%nat = Some level /\ frequent_table i lines level) ->
  make_rules top_level args = Ok rules ->
  Forall Rule.valid rules /\
  all_splits_mined lines n rules /\
  length rules = ((2 ^ n - 2) * length top_level)%nat.
Proof.
  intros Hl Ht Hargs Hr. split_and!.
  - destruct (make_rules_levels n lines top_level args Hl Ht Hargs) as (rules' & E & Hm).
    rewrite Hr in E. injection E as <-.
    apply Forall_forall. intros rule Hin. eapply mined_rule_valid, Hm, Hin.
  - intros items left Hi Hn Hf Hsub Hlen.
    destruct Ht as (_ & _ & Hcomplete).
    pose proof (Hcomplete items Hi Hn Hf) as Htop.
    apply make_rules_Forall2 in Hr.
    destruct (Forall2_elem_of_l _ _ _ (join items, left) Hr) as (rule & Hin & Hrule).
    { apply elem_of_splits. rewrite (split_join items) by apply Hi.
      split_and!; [|done|lia|lia]. apply dict_get_is_Some. by eexists. }
    simpl in Hrule. rewrite (split_join items) in Hrule by apply Hi.
    apply make_rule_Ok in Hrule as (af & level & lf & Haf & Hlevel & Hlf & ->).
    rewrite Htop in Haf. injection Haf as <-.
    replace (Z.of_nat (length left) - 1) with (Z.of_nat (length left - 1)) in Hlevel
      by lia.
    rewrite py_index_nat in Hlevel.
    destruct (Hargs (length left)) as (level' & Hl' & (_ & Hsound & _)); [lia|].
    rewrite Hl' in Hlevel. injection Hlevel as ->.
    destruct (Hsound _ _ Hlf) as (items' & Hj & Hi' & _ & -> & _).
    apply join_inj in Hj; [by subst|by eapply Forall_of_sublist, Hi|apply Hi'].
  - rewrite (length_make_rules _ _ _ Hr).
    pose proof (frequent_table_level n lines top_level Ht) as Hlevel.
    rewrite (list_sum_constant _ (2 ^ n - 2)%nat).
    + unfold keys. by rewrite length_fmap.
    + intros key (items & -> & Hi & <-)%Hlevel.
      by rewrite (split_join items) by apply Hi.
Qed.

(** X16. The report has the rule of every split of every frequent pair
    and triple, with the supports of the itemset and of the left side as
    frequencies; it has 2 rules for every frequent pair and 6 for every
    frequent triple. *)
Theorem mine_rules_complete (fl : Qc -> Qc) (lines : list (list string)) :
  Forall itemset lines ->
  exists rep,
    mine fl lines = Ok rep /\
    all_splits_mined lines 2 (pair_rules rep) /\
    all_splits_mined lines 3 (triple_rules rep) /\
    length (pair_rules rep) = (2 * length (pairs rep))%nat /\
    length (triple_rules rep) = (6 * length (triples rep))%nat.
Proof.
  intros Hl. destruct (mine_spec fl lines Hl) as (rep & E & H1 & H2 & H3 & Hr2 & Hr3).
  exists rep. split; [done|].
  destruct (mine_stages fl lines rep E)
    as (_ & _ & _ & r2 & _ & _ & r3 & _ & _ & _ & _ & _ & E2 & S2 & _ & _ & _ & E3 & S3).
  destruct (make_rules_complete 2 lines (pairs rep) [singles rep] r2 Hl H2)
    as (Hv2 & Hc2 & Hn2); [|done|].
  { intros i Hi. exists (singles rep). by replace i with 1%nat by lia. }
  destruct (make_rules_complete 3 lines (triples rep) [singles rep; pairs rep] r3 Hl H3)
    as (Hv3 & Hc3 & Hn3); [|done|].
  { intros i Hi.
    assert (i = 1 \/ i = 2)%nat as [-> | ->] by lia;
      [by exists (singles rep)|by exists (pairs rep)]. }
  pose proof (sorted_rules_perm fl r2 true _ S2 Hv2) as Hp2.
  pose proof (sorted_rules_perm fl r3 true _ S3 Hv3) as Hp3.
  split_and!.
  - intros items left Hi Hn Hf Hsub Hlen. rewrite Hp2. by apply Hc2.
  - intros items left Hi Hn Hf Hsub Hlen. rewrite Hp3. by apply Hc3.
  - by rewrite Hp2, Hn2.
  - by rewrite Hp3, Hn3.
Qed.

Lemma mine_rules_complete_witness :
  let lines := replicate 100 ["a"; "b"; "c"] ++ replicate 20 ["a"; "b"] in
  Forall itemset lines /\
  exists rep,
    mine (fun q => q) lines = Ok rep /\
    all_splits_mined lines 2 (pair_rules rep) /\
    all_splits_mined lines 3 (triple_rules rep) /\
    length (pair_rules rep) = (2 * length (pairs rep))%nat /\
    length (triple_rules rep) = (6 * length (triples rep))%nat.
Proof.
  intros lines.
  assert (Forall itemset lines) as Hl
    by (apply Forall_app; split; apply Forall_replicate; solve_itemset).
  split; [exact Hl|]. exact (mine_rules_complete (fun q => q) lines Hl).
Defined.

(** X17. Fewer lines than FREQ_THRES give an empty report: no itemset is
    frequent and no rule is derived. *)
Theorem mine_few_lines (fl : Qc -> Qc) (lines : list (list string)) :
  Forall itemset lines ->
  Z.of_nat (length lines) < FREQ_THRES ->
  mine fl lines = Ok (Report [] [] [] [] []).
Proof.
  intros Hl Hfew.
  destruct (mine_spec fl lines Hl) as (rep & E & H1 & H2 & H3 & Hr2 & Hr3).
  rewrite E. f_equal.
  assert (forall k table, frequent_table k lines table -> table = []) as Hempty.
  { intros k [|[key count] t] (_ & Hsound & _); [done|].
    destruct (Hsound key count) as (items & _ & _ & _ & -> & Hf).
    - simpl. by rewrite String.eqb_refl.
    - pose proof (support_le_length items lines). lia. }
  assert (forall args n rules,
             (forall rule, rule ∈ rules -> mined_rule lines args n rule) -> rules = [])
    as Hnone.
  { intros args n [|rule rules] Hm; [done|].
    destruct (Hm rule) as (items & _ & _ & _ & _ & _ & _ & Haf & _ & Hf & _);
      [apply list_elem_of_here|].
    pose proof (support_le_length items lines). lia. }
  destruct rep as [s p pr t tr]. simpl in *.
  by rewrite (Hempty _ _ H1), (Hempty _ _ H2), (Hempty _ _ H3),
    (Hnone _ _ _ Hr2), (Hnone _ _ _ Hr3).
Qed.

Lemma mine_few_lines_witness :
  mine (fun q => q) (replicate 99 ["a"; "b"; "c"]) = Ok (Report [] [] [] [] []).
Proof.
  apply mine_few_lines; [apply Forall_replicate; solve_itemset|].
  rewrite length_replicate. unfold FREQ_THRES. lia.
Defined.

(** ** Lines that repeat an item *)

Section Repeated.
Variable fl : Qc -> Qc.

(** Equal tables up to arithmetic in the counts. *)
Ltac dict_eq :=
  f_equal;
  repeat (apply (f_equal2 cons); [apply (f_equal2 pair); [reflexivity|lia]|]);
  reflexivity.

(** The line [a a b b], read. *)
#[local] Abbreviation aabb := ["a"; "a"; "b"; "b"].

Lemma count_singles_aabb (n : nat) :
  count_singles (replicate (S n) aabb)
  = Ok [("a", 2 * Z.of_nat (S n)); ("b", 2 * Z.of_nat (S n))].
Proof.
  assert (forall m x y,
             for_each (fun singles line => for_each count_item line singles)
                      (replicate m aabb) [("a", x); ("b", y)]
             = Ok [("a", x + 2 * Z.of_nat m); ("b", y + 2 * Z.of_nat m)]) as Hloop.
  { induction m as [|m IH]; intros x y.
    - simpl. dict_eq.
    - change (replicate (S m) aabb) with (aabb :: replicate m aabb).
      rewrite for_each_cons.
      change (for_each count_item aabb [("a", x); ("b", y)])
        with (Ok [("a", x + 1 + 1); ("b", y + 1 + 1)] : result dict).
      rewrite ret_bind, IH. dict_eq. }
  unfold count_singles. change (replicate (S n) aabb) with (aabb :: replicate n aabb).
  rewrite for_each_cons.
  change (for_each count_item aabb []) with (Ok [("a", 0 + 1 + 1); ("b", 0 + 1 + 1)] : result dict).
  rewrite ret_bind, Hloop. dict_eq.
Qed.

Lemma count_pairs_aabb (n : nat) :
  count_level 2 (replicate n aabb) [("a a", 0); ("a b", 0); ("b b", 0)]
  = Ok [("a a", Z.of_nat n); ("a b", 4 * Z.of_nat n); ("b b", Z.of_nat n)].
Proof.
  assert (forall m x y z,
             count_level 2 (replicate m aabb) [("a a", x); ("a b", y); ("b b", z)]
             = Ok [("a a", x + Z.of_nat m); ("a b", y + 4 * Z.of_nat m);
                   ("b b", z + Z.of_nat m)]) as Hloop.
  { unfold count_level. induction m as [|m IH]; intros x y z.
    - simpl. dict_eq.
    - change (replicate (S m) aabb) with (aabb :: replicate m aabb).
      rewrite for_each_cons.
      change (for_each (fun table combination => count_key table (join combination))
                       (combinations aabb 2) [("a a", x); ("a b", y); ("b b", z)])
        with (Ok [("a a", x + 1); ("a b", y + 1 + 1 + 1 + 1); ("b b", z + 1)]
              : result dict).
      rewrite ret_bind, IH. dict_eq. }
  rewrite Hloop. dict_eq.
Qed.

Lemma count_triples_aabb (n : nat) :
  count_level 3 (replicate n aabb) [("a b b", 0)] = Ok [("a b b", 2 * Z.of_nat n)].
Proof.
  assert (forall m x,
             count_level 3 (replicate m aabb) [("a b b", x)]
             = Ok [("a b b", x + 2 * Z.of_nat m)]) as Hloop.
  { unfold count_level. induction m as [|m IH]; intros x.
    - simpl. dict_eq.
    - change (replicate (S m) aabb) with (aabb :: replicate m aabb).
      rewrite for_each_cons.
      change (for_each (fun table combination => count_key table (join combination))
                       (combinations aabb 3) [("a b b", x)])
        with (Ok [("a b b", x + 1 + 1)] : result dict).
      rewrite ret_bind, IH. dict_eq. }
  rewrite Hloop. dict_eq.
Qed.

(** X18. Lines that repeat an item can make the program raise: for 50 to
    99 lines [a a b b] the triple ["a b b"] is counted as frequent (twice a
    line), while ["b b"] (once a line) is not a frequent pair, so the
    look-up of the left side ["b b"] in [make_rules] raises KeyError. *)
Theorem repeated_item_key_error (n : nat) :
  (50 <= n < 100)%nat ->
  main fl (replicate n "a a b b") = Raise (KeyError "b b").
Proof.
  intros Hn. unfold main.
  rewrite read_lines_sorted, ret_bind, fmap_replicate.
  change (sort_by String.ltb (split (strip "a a b b"))) with aabb.
  destruct n as [|m]; [lia|]. unfold mine.
  rewrite count_singles_aabb, ret_bind.
  set (N := Z.of_nat (S m)). assert (50 <= N < 100) as HN by lia.
  rewrite prune_filter by (simpl; by_compute).
  rewrite !filter_cons_True, filter_nil by (unfold frequent, FREQ_THRES; simpl; lia).
  rewrite ret_bind.
  change (make_candidates [("a", 2 * N); ("b", 2 * N)])
    with (Ok [("a a", 0); ("a b", 0); ("b b", 0)] : result dict).
  rewrite ret_bind, count_pairs_aabb, ret_bind. fold N.
  rewrite prune_filter by (simpl; by_compute).
  rewrite filter_cons_False by (unfold frequent, FREQ_THRES; simpl; lia).
  rewrite filter_cons_True by (unfold frequent, FREQ_THRES; simpl; lia).
  rewrite filter_cons_False, filter_nil by (unfold frequent, FREQ_THRES; simpl; lia).
  rewrite ret_bind.
  change (make_rules [("a b", 4 * N)] [[("a", 2 * N); ("b", 2 * N)]])
    with (Ok [Rule.__init__ ["a"] ["b"] (4 * N) (2 * N);
              Rule.__init__ ["b"] ["a"] (4 * N) (2 * N)] : result (list Rule.t)).
  rewrite ret_bind, sorted_rules_valid
    by (solve_Forall ltac:(unfold Rule.valid, FLOAT_OVERFLOW;
                           cbn [Rule.left_freq Rule.all_freq]; lia)).
  rewrite ret_bind.
  change (make_candidates [("a b", 4 * N)]) with (Ok [("a b b", 0)] : result dict).
  rewrite ret_bind, count_triples_aabb, ret_bind. fold N.
  rewrite prune_filter by (simpl; by_compute).
  rewrite filter_cons_True, filter_nil by (unfold frequent, FREQ_THRES; simpl; lia).
  rewrite ret_bind.
  reflexivity.
Qed.

End Repeated.

Lemma repeated_item_key_error_witness :
  main (fun q => q) (replicate 50 "a a b b") = Raise (KeyError "b b").
Proof. apply (repeated_item_key_error (fun q => q) 50). lia. Defined.
